(** * The step-orchestration engine of the GWAS pipeline

    A shallow embedding of [workflow/gwas_pipeline]: the configuration
    lookups of [config.py], the input wiring helper of [steps.py], the
    progress recorder of [progress.py] and the runner of [pipeline.py],
    followed by the properties the specification states about them.

    Python objects are modelled as follows.
    - [str] is [string] (code points below 256).
    - An exception is a record of its class name and of [str(exc)].
      Only instances of [Exception] are modelled: they are what
      [except Exception] in [GWASPipeline.run] catches.
    - The dictionaries [ProgressLog.data] and its step entries have a fixed
      set of keys, so they are records; a key that may be missing is an
      [option] field. [_active_starts], which [popitem] empties from its
      end, is an association list in insertion order.
    - The file system, the wall clock and the success or failure of each
      file operation form the environment [Env], threaded explicitly. A
      write goes out character by character and a rename is one step, so
      the environment also keeps every state of the files that a reader
      running beside the program could have come across.
    - The functions of the Python library that the program calls without
      looking inside ([json.dumps], [repr], [pathlib], the rounding of a
      duration, the layout of a log line) are the fields of [Library]; what
      a step handler does is the field of [StepHandlers]. Every property is
      proved for all of them. *)

From Stdlib Require Import String Ascii ZArith List Lia.
From stdpp Require Import base option list gmap strings.

#[local] Set Warnings "-register-all".

Local Open Scope string_scope.
Local Open Scope list_scope.
Local Open Scope stdpp_scope.

(** ** Python values and exceptions *)

Record exn := Exn { exn_type : string; exn_str : string }.

Inductive outcome (A : Type) : Type :=
  | Returned (a : A)
  | Raised (e : exn).
Arguments Returned {A} a.
Arguments Raised {A} e.

Definition ConfigError (msg : string) : exn := Exn "ConfigError" msg.
Definition OSError (msg : string) : exn := Exn "OSError" msg.

(** Truth value of an optional string, as in [if message:]. *)
Definition truthy_str (message : option string) : bool :=
  match message with
  | Some (String _ _) => true
  | _ => false
  end.

(** [sep.join(parts)] *)
Fixpoint join (sep : string) (parts : list string) : string :=
  match parts with
  | [] => ""
  | [p] => p
  | p :: rest => p +:+ sep +:+ join sep rest
  end.

(** [s.split(",")]: one more part than there are separators. *)
Fixpoint split (sep : ascii) (s : string) : list string :=
  match s with
  | EmptyString => [""]
  | String c rest =>
      if Ascii.eqb c sep then "" :: split sep rest
      else match split sep rest with
           | [] => [String c ""]
           | hd :: tl => String c hd :: tl
           end
  end.

(** [str.isspace] on one character below 256: tab to carriage return, the
    four separators 28 to 31, the space, NEL and the no-break space. *)
Definition isspace (c : ascii) : bool :=
  let n := nat_of_ascii c in
  ((9 <=? n)%nat && (n <=? 13)%nat) || ((28 <=? n)%nat && (n <=? 32)%nat)
  || (n =? 133)%nat || (n =? 160)%nat.

Fixpoint lstrip (s : string) : string :=
  match s with
  | EmptyString => ""
  | String c rest => if isspace c then lstrip rest else s
  end.

Definition rstrip (s : string) : string := String.rev (lstrip (String.rev s)).

(** [s.strip()] *)
Definition strip (s : string) : string := rstrip (lstrip s).

(** [s] occurs in [msg] as a contiguous piece. *)
Definition occurs_in (s msg : string) : Prop :=
  ∃ before after, msg = before +:+ s +:+ after.

(** ** Dates *)

(** A [datetime] as Python holds it, field by field. *)
Record datetime := Datetime {
  year : nat; month : nat; day : nat;
  hour : nat; minute : nat; second : nat; microsecond : nat }.

Definition digit (n : nat) : ascii := ascii_of_nat (48 + n mod 10).

(** A number in decimal, with the digits it has. *)
Fixpoint decimal_digits (fuel n : nat) : string :=
  match fuel with
  | O => ""
  | S fuel =>
      if (n <? 10)%nat then String (digit n) ""
      else decimal_digits fuel (n / 10) +:+ String (digit n) ""
  end.

Definition decimal_of_nat (n : nat) : string := decimal_digits (S n) n.

Definition pad2 (n : nat) : string :=
  String (digit (n / 10)) (String (digit n) "").
Definition pad4 (n : nat) : string :=
  String (digit (n / 1000)) (String (digit (n / 100)) (pad2 n)).

(** [ProgressLog._fmt]: [dt.isoformat(timespec="seconds")]. *)
Definition _fmt (dt : datetime) : string :=
  pad4 (year dt) +:+ "-" +:+ pad2 (month dt) +:+ "-" +:+ pad2 (day dt) +:+ "T"
  +:+ pad2 (hour dt) +:+ ":" +:+ pad2 (minute dt) +:+ ":" +:+ pad2 (second dt).

(** [dt.strftime('%Y%m%d_%H%M%S')]. Unlike [isoformat], [strftime] hands
    the year to the C library, whose [%Y] writes it with the digits it has:
    the year 999 gives three of them. The other fields are two digits
    wide. *)
Definition strftime_compact (dt : datetime) : string :=
  decimal_of_nat (year dt) +:+ pad2 (month dt) +:+ pad2 (day dt) +:+ "_"
  +:+ pad2 (hour dt) +:+ pad2 (minute dt) +:+ pad2 (second dt).

(** ** Paths and the environment *)

(** A path is the list of its components; [p / name] appends one. *)
Definition Path := list string.
Definition parent (p : Path) : Path := removelast p.
Definition name (p : Path) : string := List.last p "".
Definition div (p : Path) (component : string) : Path := p ++ [component].
Infix "//" := div (at level 40, left associativity).

(** What the operating system answers to one file operation: it succeeds,
    it fails before touching anything, or (for a write) it fails after some
    characters went out. *)
Inductive io_verdict :=
  | IoOk
  | IoFailBefore (msg : string)
  | IoFailAfter (written : nat) (msg : string).

(** [fs] maps each existing file to its text. [observable] lists every state
    of the file system that existed at some moment, most recent first: a
    reader running beside the program sees one of them. [clock] and
    [faults] are read at index [ticks] and [io_calls]. *)
Record Env := mkEnv {
  fs : gmap Path string;
  observable : list (gmap Path string);
  clock : nat → datetime;
  ticks : nat;
  faults : nat → io_verdict;
  io_calls : nat;
  stderr : list string }.

Definition set_fs (states : list (gmap Path string)) (env : Env) : Env :=
  mkEnv (List.last states (fs env)) (reverse states ++ observable env)
        (clock env) (ticks env) (faults env) (io_calls env) (stderr env).

Definition next_io (env : Env) : io_verdict * Env :=
  (faults env (io_calls env),
   mkEnv (fs env) (observable env) (clock env) (ticks env)
         (faults env) (S (io_calls env)) (stderr env)).

(** [datetime.now()] *)
Definition now (env : Env) : datetime * Env :=
  (clock env (ticks env),
   mkEnv (fs env) (observable env) (clock env) (S (ticks env))
         (faults env) (io_calls env) (stderr env)).

Definition IO (A : Type) : Type := Env → outcome A * Env.

#[global] Instance IO_ret : MRet IO := λ A a env, (Returned a, env).
#[global] Instance IO_bind : MBind IO := λ A B f m env,
  match m env with
  | (Returned a, env') => f a env'
  | (Raised e, env') => (Raised e, env')
  end.

(** [p.mkdir(parents=True, exist_ok=True)]; directories are not files and
    leave [fs] as it is. *)
Definition mkdir (p : Path) : IO () := λ env,
  match next_io env with
  | (IoOk, env') => (Returned (), env')
  | (IoFailBefore msg, env') | (IoFailAfter _ msg, env') => (Raised (OSError msg), env')
  end.

(** [utils.ensure_parent] *)
Definition ensure_parent (p : Path) : IO () := mkdir (parent p).

(** The states a file goes through while [content] is written to it: empty
    once opened for writing, then one character longer at a time. *)
Definition writing_states (p : Path) (content : string) (upto : nat)
    (files : gmap Path string) : list (gmap Path string) :=
  (λ k, <[p := substring 0 k content]> files) <$> seq 0 (S upto).

(** [p.write_text(content, encoding="utf-8")] *)
Definition write_text (p : Path) (content : string) : IO () := λ env,
  match next_io env with
  | (IoOk, env') =>
      (Returned (), set_fs (writing_states p content (String.length content) (fs env')) env')
  | (IoFailBefore msg, env') => (Raised (OSError msg), env')
  | (IoFailAfter k msg, env') =>
      (Raised (OSError msg),
       set_fs (writing_states p content (k `min` String.length content) (fs env')) env')
  end.

(** [src.replace(dst)]: one atomic rename. *)
Definition replace (src dst : Path) : IO () := λ env,
  match next_io env with
  | (IoOk, env') =>
      match fs env' !! src with
      | Some text => (Returned (), set_fs [<[dst := text]> (delete src (fs env'))] env')
      | None => (Raised (Exn "FileNotFoundError" (join "/" src)), env')
      end
  | (IoFailBefore msg, env') | (IoFailAfter _ msg, env') => (Raised (OSError msg), env')
  end.

(** Opening a file for appending, as [logging.FileHandler] does when it is
    built: the file is created empty if it is not there. *)
Definition open_append (p : Path) : IO () := λ env,
  match next_io env with
  | (IoOk, env') =>
      match fs env' !! p with
      | Some _ => (Returned (), env')
      | None => (Returned (), set_fs [<[p := ""]> (fs env')] env')
      end
  | (IoFailBefore msg, env') | (IoFailAfter _ msg, env') => (Raised (OSError msg), env')
  end.

(** [log_handler.close()] of a [logging.FileHandler]: what the stream still
    holds is flushed and the file closed, which the operating system can
    refuse. Nothing catches that error. *)
Definition close (p : Path) : IO () := λ env,
  match next_io env with
  | (IoOk, env') => (Returned (), env')
  | (IoFailBefore msg, env') | (IoFailAfter _ msg, env') => (Raised (OSError msg), env')
  end.

(** ** The session document

    [ProgressLog.data], the entries of its "steps" list and the summary
    written to latest.json, each with the key it stands for. *)
Record StepEntry := mkEntry {
  e_step : string;                      (* "step" *)
  e_status : string;                    (* "status" *)
  e_noted_at : option string;           (* "noted_at" *)
  e_started_at : option string;         (* "started_at" *)
  e_finished_at : option string;        (* "finished_at" *)
  e_duration_seconds : option Z;        (* "duration_seconds" *)
  e_message : option string }.          (* "message" *)

Record SessionData := mkData {
  d_session : string;                   (* "session" *)
  d_dry_run : bool;                     (* "dry_run" *)
  d_started_at : string;                (* "started_at" *)
  d_status : string;                    (* "status" *)
  d_run_order : list string;            (* "run_order" *)
  d_steps : list StepEntry;             (* "steps" *)
  d_finished_at : option string;        (* "finished_at" *)
  d_message : option string;            (* "message" *)
  d_last_completed_step : option string }. (* "last_completed_step" *)

Record LatestPayload := mkLatest {
  l_session : string;
  l_progress_file : string;
  l_status : string;
  l_started_at : string;
  l_finished_at : option string;
  l_last_completed_step : option string }.

(** ** Library functions

    Functions of the Python library whose text the program never inspects:
    they are taken as they come. *)
Class Library := {
  (* json.dumps(self.data, indent=2) *)
  json_dumps_session : SessionData → string;
  (* json.dumps(latest_payload, indent=2) *)
  json_dumps_latest : LatestPayload → string;
  (* repr of a string *)
  repr : string → string;
  (* round((finished - start).total_seconds(), 2), in hundredths of a second *)
  duration_seconds : datetime → datetime → Z;
  (* logging.Formatter("[%(asctime)s] %(levelname)s - %(message)s", "%H:%M:%S") *)
  format_record : datetime → string → string → string;
  (* Path(value) for a string *)
  Path_of : string → Path;
  (* path.is_absolute() *)
  is_absolute : Path → bool;
  (* (root / path).resolve(), as the file system stands *)
  resolve_under : Path → Path → Path;
  (* the text of the TypeError Path(value) raises on a value that is no string *)
  path_type_error : string }.

(** ** Insertion-ordered dictionaries with string keys *)

Section Dict.
Context {V : Type}.

(** [d[k] = v]: in place when the key is there, at the end otherwise. *)
Fixpoint dict_set (k : string) (v : V) (d : list (string * V)) : list (string * V) :=
  match d with
  | [] => [(k, v)]
  | (k', v') :: rest =>
      if decide (k = k') then (k, v) :: rest else (k', v') :: dict_set k v rest
  end.

(** [d.pop(k, None)] *)
Fixpoint dict_pop (k : string) (d : list (string * V)) : option V * list (string * V) :=
  match d with
  | [] => (None, [])
  | (k', v') :: rest =>
      if decide (k = k') then (Some v', rest)
      else let '(found, rest') := dict_pop k rest in (found, (k', v') :: rest')
  end.

(** [d.get(k)] *)
Fixpoint dict_get (k : string) (d : list (string * V)) : option V :=
  match d with
  | [] => None
  | (k', v') :: rest => if decide (k = k') then Some v' else dict_get k rest
  end.
End Dict.

(** ** progress.py *)

Record ProgressLog := mkLog {
  path : Path;
  latest_path : Path;
  session : string;
  dry_run : bool;
  started_at : datetime;
  _active_starts : list (string * datetime);
  data : SessionData }.

Definition set_data (self : ProgressLog) (d : SessionData) : ProgressLog :=
  mkLog (path self) (latest_path self) (session self) (dry_run self)
        (started_at self) (_active_starts self) d.

Definition set_active_starts (self : ProgressLog) (a : list (string * datetime)) : ProgressLog :=
  mkLog (path self) (latest_path self) (session self) (dry_run self)
        (started_at self) a (data self).

Definition set_steps (d : SessionData) (steps : list StepEntry) : SessionData :=
  mkData (d_session d) (d_dry_run d) (d_started_at d) (d_status d) (d_run_order d)
         steps (d_finished_at d) (d_message d) (d_last_completed_step d).

(** The statuses [_find_step_entry] looks for. *)
Definition recorded_statuses : list string := ["running"; "completed"; "failed"].

Section Progress.
Context `{!Library}.

(** The summary written to [latest.json]. *)
Definition latest_payload (self : ProgressLog) : LatestPayload :=
  mkLatest (session self) (name (path self)) (d_status (data self))
           (d_started_at (data self)) (d_finished_at (data self))
           (d_last_completed_step (data self)).

Definition tmp_of (p : Path) : Path := parent p // (name p +:+ ".tmp").

Definition _write (self : ProgressLog) : IO () :=
  _ ← ensure_parent (path self);
  _ ← write_text (tmp_of (path self)) (json_dumps_session (data self));
  _ ← replace (tmp_of (path self)) (path self);
  _ ← ensure_parent (latest_path self);
  _ ← write_text (tmp_of (latest_path self)) (json_dumps_latest (latest_payload self));
  replace (tmp_of (latest_path self)) (latest_path self).

(** The object [ProgressLog.__init__] sets up before it writes it. *)
Definition new_log (path : Path) (session : string) (dry_run : bool)
    (run_order : list string) (started : datetime) : ProgressLog :=
  mkLog path (parent path // "latest.json") session dry_run started []
        (mkData session dry_run (_fmt started) "running" run_order [] None None None).

(** [ProgressLog.__init__]; the object exists only if the first write
    went through. *)
Definition ProgressLog_init (path : Path) (session : string) (dry_run : bool)
    (run_order : list string) (started_at : option datetime)
    (env : Env) : outcome ProgressLog * Env :=
  let '(started, env) :=
    match started_at with
    | Some dt => (dt, env)
    | None => now env
    end in
  let self := new_log path session dry_run run_order started in
  match _write self env with
  | (Returned _, env') => (Returned self, env')
  | (Raised e, env') => (Raised e, env')
  end.

(** A method mutates the object and the environment and returns or
    raises; the mutation stays when it raises. *)
Definition Method : Type := ProgressLog → Env → outcome () * ProgressLog * Env.

Definition append_entry (self : ProgressLog) (entry : StepEntry) : ProgressLog :=
  set_data self (set_steps (data self) (d_steps (data self) ++ [entry])).

Definition plan_step (step : string) : Method := λ self env,
  let '(stamp, env) := now env in
  let self := append_entry self
    (mkEntry step "planned" (Some (_fmt stamp)) None None None None) in
  let '(r, env) := _write self env in
  (r, self, env).

Definition start_step (step : string) : Method := λ self env,
  let '(started, env) := now env in
  let self := set_active_starts self (dict_set step started (_active_starts self)) in
  let self := append_entry self
    (mkEntry step "running" None (Some (_fmt started)) None None None) in
  let '(r, env) := _write self env in
  (r, self, env).

(** The position in [steps] of the entry the source returns: the last one
    for [step] whose status is running, completed or failed. *)
Definition _find_step_entry (step : string) (steps : list StepEntry) : outcome nat :=
  match list_find (λ entry, e_step entry = step ∧ e_status entry ∈ recorded_statuses)
                  (reverse steps) with
  | Some (i, _) => Returned (length steps - 1 - i)
  | None => Raised (Exn "KeyError" (repr ("No step entry recorded for " +:+ repr step)))
  end.

(** The writes [complete_step] makes to the entry it found. *)
Definition close_entry (status : string) (finished : datetime)
    (start_time : option datetime) (message : option string)
    (entry : StepEntry) : StepEntry :=
  mkEntry (e_step entry) status (e_noted_at entry) (e_started_at entry)
          (Some (_fmt finished))
          (match start_time with
           | Some t => Some (duration_seconds finished t)
           | None => e_duration_seconds entry
           end)
          (if truthy_str message then message else e_message entry).

Definition complete_step (step : string) (status : string) (message : option string)
    : Method := λ self env,
  let '(finished, env) := now env in
  match _find_step_entry step (d_steps (data self)) with
  | Raised e => (Raised e, self, env)
  | Returned i =>
      let '(start_time, active) := dict_pop step (_active_starts self) in
      let d := data self in
      let d := mkData (d_session d) (d_dry_run d) (d_started_at d) (d_status d)
                 (d_run_order d)
                 (alter (close_entry status finished start_time message) i (d_steps d))
                 (d_finished_at d) (d_message d)
                 (if decide (status = "completed") then Some step
                  else d_last_completed_step d) in
      let self := set_data (set_active_starts self active) d in
      let '(r, env) := _write self env in
      (r, self, env)
  end.

Definition fail_step (step : string) (message : option string) : Method :=
  complete_step step "failed" message.

(** The writes [finish] makes to a pending entry. *)
Definition fail_entry (finished started : datetime) (message : option string)
    (entry : StepEntry) : StepEntry :=
  mkEntry (e_step entry) "failed" (e_noted_at entry) (e_started_at entry)
          (Some (_fmt finished))
          (Some (duration_seconds finished started))
          (if truthy_str message
           then match e_message entry with
                | Some m => Some m
                | None => message
                end
           else e_message entry).

(** The [while self._active_starts] loop of [finish]. [pending] is the
    dictionary in the order [popitem] empties it, last inserted first. It
    returns what is left of it when [_find_step_entry] raises. *)
Fixpoint fail_pending (finished : datetime) (message : option string)
    (pending : list (string * datetime)) (steps : list StepEntry)
    : outcome () * list (string * datetime) * list StepEntry :=
  match pending with
  | [] => (Returned (), [], steps)
  | (pending_step, started) :: rest =>
      match _find_step_entry pending_step steps with
      | Raised e => (Raised e, rest, steps)
      | Returned i =>
          fail_pending finished message rest
            (alter (fail_entry finished started message) i steps)
      end
  end.

Definition finish (status : string) (message : option string) : Method := λ self env,
  let '(finished, env) := now env in
  let d := data self in
  let d := mkData (d_session d) (d_dry_run d) (d_started_at d) status (d_run_order d)
             (d_steps d) (Some (_fmt finished))
             (if truthy_str message then message else d_message d)
             (d_last_completed_step d) in
  let '(r, remaining, steps) :=
    fail_pending finished message (reverse (_active_starts self)) (d_steps d) in
  let self := set_data (set_active_starts self (reverse remaining)) (set_steps d steps) in
  match r with
  | Raised e => (Raised e, self, env)
  | Returned _ =>
      let '(r, env) := _write self env in
      (r, self, env)
  end.
End Progress.

(** ** config.py *)

(** A loaded YAML value. [YOther] stands for the scalars the program only
    tests for truth (floats, dates). *)
Inductive yaml :=
  | YNull
  | YBool (b : bool)
  | YInt (z : Z)
  | YStr (s : string)
  | YOther (truth : bool)
  | YSeq (items : list yaml)
  | YMap (items : list (string * yaml)).

(** [isinstance(v, dict)] *)
Definition is_dict (v : yaml) : bool :=
  match v with YMap _ => true | _ => false end.

(** [bool(v)] *)
Definition truthy (v : yaml) : bool :=
  match v with
  | YNull => false
  | YBool b => b
  | YInt z => negb (z =? 0)%Z
  | YStr s => truthy_str (Some s)
  | YOther truth => truth
  | YSeq items => match items with [] => false | _ => true end
  | YMap items => match items with [] => false | _ => true end
  end.

(** [d.get(k)], with [None] for a missing key. *)
Definition yaml_get (k : string) (d : list (string * yaml)) : yaml :=
  default YNull (dict_get k d).

Record PipelineConfig := mkConfig {
  config_data : list (string * yaml);
  root : Path;
  config_path : Path }.

(** The loop of [PipelineConfig.get] from [node] on. *)
Fixpoint get_from (node : yaml) (keys : list string) (default : yaml) : yaml :=
  match keys with
  | [] => node
  | key :: rest =>
      match node with
      | YMap items =>
          match dict_get key items with
          | Some v => get_from v rest default
          | None => default
          end
      | _ => default
      end
  end.

Definition get (config : PipelineConfig) (keys : list string) (default : yaml) : yaml :=
  get_from (YMap (config_data config)) keys default.

Section Config.
Context `{!Library}.

Definition resolve_path (config : PipelineConfig) (value : yaml) (create_parent : bool)
    : IO (option Path) :=
  match value with
  | YNull | YStr EmptyString => mret None
  | YStr s =>
      let p := Path_of s in
      let p := if is_absolute p then p else resolve_under (root config) p in
      if create_parent then _ ← mkdir (parent p); mret (Some p)
      else mret (Some p)
  | _ => λ env, (Raised (Exn "TypeError" path_type_error), env)
  end.

(** [PipelineConfig.path], with [default] left at [None]. *)
Definition config_path_of (config : PipelineConfig) (keys : list string)
    (create_parent : bool) : IO (option Path) :=
  resolve_path config (get config keys YNull) create_parent.

(** ** steps.py: input wiring *)

Definition _resolve_input_path (config : PipelineConfig) (step_cfg : list (string * yaml))
    (key : string) (fallback_keys : option (list string)) : IO Path :=
  let raw := yaml_get key step_cfg in
  let missing : IO Path := λ env,
    (Raised (ConfigError ("Missing input path for key '" +:+ key
                          +:+ "' and no fallback provided")), env) in
  if truthy raw then
    p ← resolve_path config raw false;
    match p with
    | None => λ env, (Raised (ConfigError ("Input path for " +:+ key +:+ " is not set")), env)
    | Some p => mret p
    end
  else
    match fallback_keys with
    | Some ((_ :: _) as keys) =>
        fallback ← config_path_of config keys false;
        match fallback with
        | Some p => mret p
        | None => missing
        end
    | _ => missing
    end.
End Config.

(** ** pipeline.py *)

Definition STEP_SEQUENCE : list (string * string) :=
  [ ("step01_filter_variants", "filter_variants");
    ("step02_filter_mapped_snps", "filter_mapped_snps");
    ("step03_filter_individuals", "filter_individuals");
    ("step04_transpose_matrix", "transpose_genotypes");
    ("step05_calculate_ibs", "ibs_similarity");
    ("step06_convert_to_dissimilarity", "ibs_dissimilarity");
    ("step07_extract_labels", "extract_labels");
    ("step08_create_plink_map", "create_plink_map");
    ("step09_csv_to_tped", "transpose_to_tped");
    ("step10_ld_decay_plot", "ld_decay_plot");
    ("step11_plink_pruning", "plink_pruning");
    ("step12_extract_pruned_subset", "extract_pruned_subset");
    ("step13_pcoa", "pcoa");
    ("step14_convert_to_structure", "convert_to_structure");
    ("step15_fix_pruned_ped", "fix_pruned_ped");
    ("step16_trait_split", "trait_split");
    ("step17_trait_adjust", "trait_adjust") ].

Definition STEP_ORDER : list string := fst <$> STEP_SEQUENCE.

(** [dict.update] with a list of pairs: a later pair wins. *)
Definition update {V : Type} (m : gmap string V) (pairs : list (string * V)) : gmap string V :=
  foldl (λ m kv, <[kv.1 := kv.2]> m) m pairs.

Definition STEP_ALIASES : gmap string string :=
  update (update ∅ ((λ '(primary, alias), (alias, primary)) <$> STEP_SEQUENCE))
         ((λ '(primary, _), (primary, primary)) <$> STEP_SEQUENCE).

(** The functions of steps.py that [STEP_FUNCTIONS] refers to. *)
Inductive handler :=
  | filter_variants | filter_mapped_snps | filter_individuals
  | transpose_genotypes | calculate_ibs | convert_to_dissimilarity
  | extract_labels | create_plink_map | transpose_to_tped | ld_decay_plot
  | plink_pruning | extract_pruned_subset | run_pcoa | convert_to_structure
  | fix_pruned_ped | split_traits | adjust_traits
  | transpose_genotypes_pruned | calculate_ibs_pruned
  | convert_to_dissimilarity_pruned | extract_labels_pruned.

Definition STEP_FUNCTIONS : gmap string handler :=
  update (update ∅
    [ ("step01_filter_variants", filter_variants);
      ("step02_filter_mapped_snps", filter_mapped_snps);
      ("step03_filter_individuals", filter_individuals);
      ("step04_transpose_matrix", transpose_genotypes);
      ("step05_calculate_ibs", calculate_ibs);
      ("step06_convert_to_dissimilarity", convert_to_dissimilarity);
      ("step07_extract_labels", extract_labels);
      ("step08_create_plink_map", create_plink_map);
      ("step09_csv_to_tped", transpose_to_tped);
      ("step10_ld_decay_plot", ld_decay_plot);
      ("step11_plink_pruning", plink_pruning);
      ("step12_extract_pruned_subset", extract_pruned_subset);
      ("step13_pcoa", run_pcoa);
      ("step14_convert_to_structure", convert_to_structure);
      ("step15_fix_pruned_ped", fix_pruned_ped);
      ("step16_trait_split", split_traits);
      ("step17_trait_adjust", adjust_traits);
      ("step04_transpose_pruned", transpose_genotypes_pruned);
      ("step05_calculate_ibs_pruned", calculate_ibs_pruned);
      ("step06_convert_to_dissimilarity_pruned", convert_to_dissimilarity_pruned);
      ("step07_extract_labels_pruned", extract_labels_pruned) ])
    [ ("filter_variants", filter_variants);
      ("filter_mapped_snps", filter_mapped_snps);
      ("filter_individuals", filter_individuals);
      ("transpose_genotypes", transpose_genotypes);
      ("ibs_similarity", calculate_ibs);
      ("ibs_dissimilarity", convert_to_dissimilarity);
      ("extract_labels", extract_labels);
      ("create_plink_map", create_plink_map);
      ("transpose_to_tped", transpose_to_tped);
      ("plink_pruning", plink_pruning);
      ("extract_pruned_subset", extract_pruned_subset);
      ("convert_to_structure", convert_to_structure);
      ("pcoa", run_pcoa);
      ("fix_pruned_ped", fix_pruned_ped);
      ("trait_split", split_traits);
      ("trait_adjust", adjust_traits);
      ("ld_decay_plot", ld_decay_plot) ].

(** What a step does is outside this development: a handler is any function
    of the configuration and the environment that returns or raises. *)
Class StepHandlers := {
  call : handler → PipelineConfig → Env → outcome () * Env }.

(** The loop of [configured_steps] over the remaining pairs [sequence]. *)
Fixpoint configured_from (steps_cfg : list (string * yaml))
    (sequence : list (string * string)) (configured : list string) : list string :=
  match sequence with
  | [] => configured
  | (primary, legacy) :: rest =>
      let cfg := yaml_get primary steps_cfg in
      let cfg := if negb (is_dict cfg) && truthy_str (Some legacy)
                 then yaml_get legacy steps_cfg else cfg in
      configured_from steps_cfg rest
        (if is_dict cfg then configured ++ [primary] else configured)
  end.

Definition configured_steps (config : PipelineConfig) : outcome (list string) :=
  match get config ["steps"] (YMap []) with
  | YMap steps_cfg => Returned (configured_from steps_cfg STEP_SEQUENCE [])
  | _ => Raised (ConfigError "steps must be a mapping in the YAML configuration")
  end.

(** Lines 61 to 69 of [run]: the tokens, cut at commas and stripped, without
    the empty ones. *)
Definition parts_of (token : option string) : list string :=
  match token with
  | None => []
  | Some t => filter (λ part, part ≠ "") (strip <$> split "," t)
  end.

Definition selected_list_of (selected_steps : list (option string)) : list string :=
  mbind parts_of selected_steps.

(** Lines 70 to 77: alias resolution, sorting the tokens into the known and
    the unknown. *)
Fixpoint classify (selected_list normalised unknown : list string)
    : list string * list string :=
  match selected_list with
  | [] => (normalised, unknown)
  | step :: rest =>
      let resolved := default step (STEP_ALIASES !! step) in
      match STEP_FUNCTIONS !! resolved with
      | Some _ => classify rest (normalised ++ [resolved]) unknown
      | None => classify rest normalised (unknown ++ [step])
      end
  end.

(** Lines 81 to 87: each step once. *)
Fixpoint collect (normalised : list string) (seen : gset string) (run_order : list string)
    : list string :=
  match normalised with
  | [] => run_order
  | step :: rest =>
      if decide (step ∈ seen) then collect rest seen run_order
      else collect rest ({[step]} ∪ seen) (run_order ++ [step])
  end.

(** Lines 60 to 92 of [run] end in one of three ways: with a run order, with
    the early return of line 90, or with a [ConfigError]. *)
Inductive resolution :=
  | Order (run_order : list string)
  | NothingToRun (selected_list : list string)
  | Invalid (e : exn).

Definition resolve (config : PipelineConfig) (selected_steps : option (list (option string)))
    : resolution :=
  match selected_steps with
  | Some tokens =>
      let selected_list := selected_list_of tokens in
      let '(normalised, unknown) := classify selected_list [] [] in
      match unknown with
      | _ :: _ => Invalid (ConfigError ("Unknown step(s): " +:+ join ", " unknown))
      | [] =>
          match collect normalised ∅ [] with
          | [] => NothingToRun selected_list
          | run_order => Order run_order
          end
      end
  | None =>
      match configured_steps config with
      | Raised e => Invalid e
      | Returned run_order => Order run_order
      end
  end.

(** The local variables of [run], the file handlers attached to the logger
    besides its stream handler, the environment, and the handler calls made
    so far with what each did. *)
Record RunState := mkRun {
  world : Env;
  progress : option ProgressLog;
  current_step : option string;
  log_handler : option Path;
  logger_files : list Path;
  invoked : list (string * outcome ()) }.

Definition initial (env : Env) : RunState := mkRun env None None None [] [].

Definition set_world (st : RunState) (env : Env) : RunState :=
  mkRun env (progress st) (current_step st) (log_handler st) (logger_files st) (invoked st).

Definition Run (A : Type) : Type := RunState → outcome A * RunState.

#[global] Instance Run_ret : MRet Run := λ A a st, (Returned a, st).
#[global] Instance Run_bind : MBind Run := λ A B f m st,
  match m st with
  | (Returned a, st') => f a st'
  | (Raised e, st') => (Raised e, st')
  end.

Definition lift {A : Type} (m : IO A) : Run A := λ st,
  let '(r, env) := m (world st) in (r, set_world st env).

Definition newline : string := String (ascii_of_nat 10) "".

Section Pipeline.
Context `{!Library} `{!StepHandlers}.

(** One record sent to the logger: it goes to the stream handler and to
    every attached file. The logging module keeps its own write errors to
    itself. *)
Definition log_record (files : list Path) (level msg : string) (env : Env) : Env :=
  let '(t, env) := now env in
  let line := format_record t level msg in
  let env := mkEnv (fs env) (observable env) (clock env) (ticks env)
                   (faults env) (io_calls env) (stderr env ++ [line]) in
  foldl (λ env p,
           set_fs [<[p := default "" (fs env !! p) +:+ line +:+ newline]> (fs env)] env)
        env files.

Definition info (msg : string) : Run () := λ st,
  (Returned (), set_world st (log_record (logger_files st) "INFO" msg (world st))).

Definition warning (msg : string) : Run () := λ st,
  (Returned (), set_world st (log_record (logger_files st) "WARNING" msg (world st))).

(** [progress.<attr>(...)] on the local variable [progress]. *)
Definition method (attr : string) (m : Method) : Run () := λ st,
  match progress st with
  | None =>
      (Raised (Exn "AttributeError"
                   ("'NoneType' object has no attribute '" +:+ attr +:+ "'")), st)
  | Some self =>
      let '(r, self, env) := m self (world st) in
      (r, mkRun env (Some self) (current_step st) (log_handler st)
                (logger_files st) (invoked st))
  end.

Definition set_progress (self : ProgressLog) : Run () := λ st,
  (Returned (), mkRun (world st) (Some self) (current_step st) (log_handler st)
                      (logger_files st) (invoked st)).

Definition set_current_step (step : string) : Run () := λ st,
  (Returned (), mkRun (world st) (progress st) (Some step) (log_handler st)
                      (logger_files st) (invoked st)).

(** [log_handler = logging.FileHandler(log_path, ...)], whose file is
    already open, and [self.logger.addHandler(log_handler)]. *)
Definition add_handler (log_path : Path) : Run () := λ st,
  (Returned (), mkRun (world st) (progress st) (current_step st) (Some log_path)
                      (logger_files st ++ [log_path]) (invoked st)).

(** [handler = STEP_FUNCTIONS[step]; handler(self.config)] *)
Definition invoke (config : PipelineConfig) (step : string) : Run () := λ st,
  match STEP_FUNCTIONS !! step with
  | None => (Raised (Exn "KeyError" (repr step)), st)
  | Some h =>
      let '(r, env) := call h config (world st) in
      (r, mkRun env (progress st) (current_step st) (log_handler st)
                (logger_files st) (invoked st ++ [(step, r)]))
  end.

(** Lines 121 to 123. *)
Fixpoint plan_steps (run_order : list string) : Run () :=
  match run_order with
  | [] => mret ()
  | step :: rest =>
      _ ← method "plan_step" (plan_step step);
      _ ← info ("[dry-run] " +:+ step);
      plan_steps rest
  end.

(** Lines 128 to 133. *)
Fixpoint run_steps (config : PipelineConfig) (run_order : list string) : Run () :=
  match run_order with
  | [] => mret ()
  | step :: rest =>
      _ ← set_current_step step;
      _ ← method "start_step" (start_step step);
      _ ← invoke config step;
      _ ← method "complete_step" (complete_step step "completed" None);
      run_steps config rest
  end.

(** Lines 120 to 135, the dry run and the live run. *)
Definition run_tail (config : PipelineConfig) (run_order : list string) (dry_run : bool)
    : Run () :=
  if dry_run then
    _ ← plan_steps run_order;
    _ ← method "finish" (finish "dry_run" None);
    info "Dry run complete"
  else
    _ ← run_steps config run_order;
    _ ← method "finish" (finish "completed" None);
    info "Run complete".

(** Lines 98 to 135, the body of [try]. *)
Definition run_body (config : PipelineConfig) (run_order : list string) (dry_run : bool)
    : Run () :=
  let log_dir := root config // "outputs" // "run_history" in
  _ ← lift (mkdir log_dir);
  start_time ← lift (λ env, let '(t, env) := now env in (Returned t, env));
  let suffix := if dry_run then "_dryrun" else "" in
  let session_name := "run_" +:+ strftime_compact start_time +:+ suffix in
  let log_path := log_dir // (session_name +:+ ".log") in
  let progress_path := log_dir // (session_name +:+ ".json") in
  self ← lift (ProgressLog_init progress_path session_name dry_run run_order
                                (Some start_time));
  _ ← set_progress self;
  _ ← lift (open_append log_path);
  _ ← add_handler log_path;
  _ ← info ("Run started (dry_run=" +:+ (if dry_run then "True" else "False")
            +:+ "): " +:+ join ", " run_order);
  run_tail config run_order dry_run.

(** [try: m except Exception: pass] *)
Definition best_effort (m : Run ()) : RunState → RunState := λ st, (m st).2.

(** Lines 136 to 147, the [except] clause up to its [raise]. *)
Definition on_exception (exc : exn) (st : RunState) : RunState :=
  match progress st with
  | None => st
  | Some _ =>
      let st :=
        match current_step st with
        | Some step =>
            best_effort (method "fail_step" (fail_step step (Some (exn_str exc)))) st
        | None => st
        end in
      best_effort (method "finish" (finish "failed" (Some (exn_str exc)))) st
  end.

(** Line 151, [self.logger.removeHandler(log_handler)]. *)
Definition remove_handler (p : Path) (st : RunState) : RunState :=
  mkRun (world st) (progress st) (current_step st) (log_handler st)
        (filter (λ q, q ≠ p) (logger_files st)) (invoked st).

(** Lines 149 to 152, the [finally] clause: the handler is taken off the
    logger and then closed. *)
Definition detach : Run () := λ st,
  match log_handler st with
  | None => (Returned (), st)
  | Some p => lift (close p) (remove_handler p st)
  end.

(** Lines 94 to 152. An exception that leaves the [finally] clause takes
    the place of the result of the [try] statement, also of the exception
    that the [except] clause raises again. *)
Definition run_order_session (config : PipelineConfig) (run_order : list string)
    (dry_run : bool) : Run () := λ st,
  let '(r, st) := run_body config run_order dry_run st in
  let st := match r with
            | Raised exc => on_exception exc st
            | Returned _ => st
            end in
  match detach st with
  | (Returned _, st) => (r, st)
  | (Raised e, st) => (Raised e, st)
  end.

(** [str(selected_list)] *)
Definition str_list (l : list string) : string :=
  "[" +:+ join ", " (repr <$> l) +:+ "]".

(** [GWASPipeline.run], started in [env] with nothing but the stream
    handler on the logger. *)
Definition run (config : PipelineConfig) (selected_steps : option (list (option string)))
    (dry_run : bool) (env : Env) : outcome () * RunState :=
  match resolve config selected_steps with
  | Invalid e => (Raised e, initial env)
  | NothingToRun selected_list =>
      warning ("No matching steps to run for selection: " +:+ str_list selected_list)
              (initial env)
  | Order run_order => run_order_session config run_order dry_run (initial env)
  end.
End Pipeline.

(** ** Sequences of recorder operations *)

(** One call of a method of [ProgressLog] by whoever holds the object. *)
Inductive op :=
  | PlanStep (step : string)
  | StartStep (step : string)
  | CompleteStep (step : string) (status : string) (message : option string)
  | FailStep (step : string) (message : option string)
  | Finish (status : string) (message : option string).

Section Operations.
Context `{!Library}.

Definition apply_op (o : op) : Method :=
  match o with
  | PlanStep step => plan_step step
  | StartStep step => start_step step
  | CompleteStep step status message => complete_step step status message
  | FailStep step message => fail_step step message
  | Finish status message => finish status message
  end.

(** The calls one after the other; a caller may catch what one of them
    raises and go on. *)
Fixpoint apply_ops (ops : list op) (self : ProgressLog) (env : Env) : ProgressLog * Env :=
  match ops with
  | [] => (self, env)
  | o :: rest =>
      let '(_, self, env) := apply_op o self env in
      apply_ops rest self env
  end.
End Operations.

(** The steps the calls start, in order. *)
Definition started_steps (ops : list op) : list string :=
  omap (λ o, match o with StartStep step => Some step | _ => None end) ops.

(** No call marks a step as running again through [complete_step]. *)
Definition closes_properly (o : op) : Prop :=
  match o with
  | CompleteStep _ status _ => status ≠ "running"
  | _ => True
  end.

(** ** A small library and small handlers to run the model with *)

Definition quoted (s : string) : string :=
  String (ascii_of_nat 34) s +:+ String (ascii_of_nat 34) "".

Definition json_field (key value : string) : string := quoted key +:+ ": " +:+ value.

Definition json_optional (key : string) (value : option string) : list string :=
  match value with
  | Some v => [json_field key (quoted v)]
  | None => []
  end.

Definition json_object (fields : list string) : string := "{" +:+ join ", " fields +:+ "}".

Definition json_entry (e : StepEntry) : string :=
  json_object ([json_field "step" (quoted (e_step e));
                json_field "status" (quoted (e_status e))]
               ++ json_optional "noted_at" (e_noted_at e)
               ++ json_optional "started_at" (e_started_at e)
               ++ json_optional "finished_at" (e_finished_at e)
               ++ json_optional "message" (e_message e)).

Definition sample_library : Library := {|
  json_dumps_session := λ d,
    json_object ([json_field "session" (quoted (d_session d));
                  json_field "status" (quoted (d_status d));
                  json_field "run_order"
                    ("[" +:+ join ", " (quoted <$> d_run_order d) +:+ "]");
                  json_field "steps"
                    ("[" +:+ join ", " (json_entry <$> d_steps d) +:+ "]")]
                 ++ json_optional "finished_at" (d_finished_at d)
                 ++ json_optional "message" (d_message d)
                 ++ json_optional "last_completed_step" (d_last_completed_step d));
  json_dumps_latest := λ l,
    json_object ([json_field "session" (quoted (l_session l));
                  json_field "progress_file" (quoted (l_progress_file l));
                  json_field "status" (quoted (l_status l));
                  json_field "started_at" (quoted (l_started_at l))]
                 ++ json_optional "finished_at" (l_finished_at l)
                 ++ json_optional "last_completed_step" (l_last_completed_step l));
  repr := λ s, "'" +:+ s +:+ "'";
  duration_seconds := λ finished start,
    (100 * (Z.of_nat (second finished) - Z.of_nat (second start)))%Z;
  format_record := λ t level msg,
    "[" +:+ pad2 (hour t) +:+ ":" +:+ pad2 (minute t) +:+ ":" +:+ pad2 (second t)
    +:+ "] " +:+ level +:+ " - " +:+ msg;
  Path_of := λ s, [s];
  is_absolute := λ p, false;
  resolve_under := λ root p, root ++ p;
  path_type_error := "expected str, bytes or os.PathLike object" |}.

(** Every step returns. *)
Definition quiet_handlers : StepHandlers := {|
  call := λ _ _ env, (Returned (), env) |}.

(** [filter_mapped_snps] raises [exc]; the other steps return. *)
Definition failing_handlers (exc : exn) : StepHandlers := {|
  call := λ h _ env,
    match h with
    | filter_mapped_snps => (Raised exc, env)
    | _ => (Returned (), env)
    end |}.

(** An empty file system at one second past three, where every file
    operation succeeds. *)
Definition sample_env : Env :=
  mkEnv ∅ [] (λ n, Datetime 2025 1 2 3 4 n 0) 0 (λ _, IoOk) 0 [].

(** The same, where every file operation from the [n]-th on fails. *)
Definition failing_env (n : nat) : Env :=
  mkEnv ∅ [] (λ n, Datetime 2025 1 2 3 4 n 0) 0
        (λ k, if (n <=? k)%nat then IoFailBefore "No space left on device" else IoOk) 0 [].

(** The same, where the file operations from the [n]-th up to and without
    the [m]-th fail. *)
Definition full_between (n m : nat) : Env :=
  mkEnv ∅ [] (λ n, Datetime 2025 1 2 3 4 n 0) 0
        (λ k, if (n <=? k)%nat && (k <? m)%nat
              then IoFailBefore "No space left on device" else IoOk) 0 [].

Definition sample_config : PipelineConfig :=
  mkConfig
    [("paths", YMap [("raw_genotypes", YStr "data/genotypes.csv")]);
     ("steps", YMap [("step01_filter_variants", YMap [("output_csv", YStr "out/filtered.csv")]);
                     ("filter_mapped_snps", YMap []);
                     ("step03_filter_individuals", YNull)])]
    ["project"] ["project"; "config"; "pipeline.yaml"].

(** * What the specification speaks of

    The notions its sentences use, stated over the model above. *)

(** Each element once, at the place of its first occurrence. *)
Fixpoint first_occurrences (l : list string) : list string :=
  match l with
  | [] => []
  | x :: rest => x :: filter (λ y, y ≠ x) (first_occurrences rest)
  end.

(** The selection after alias resolution. *)
Definition resolved_selection (tokens : list (option string)) : list string :=
  (λ step, default step (STEP_ALIASES !! step)) <$> selected_list_of tokens.

(** The tokens that resolve to no registered step. *)
Definition unresolved (tokens : list (option string)) : list string :=
  filter (λ step, STEP_FUNCTIONS !! default step (STEP_ALIASES !! step) = None)
         (selected_list_of tokens).

(** A configuration block exists under [key]: the value there is a mapping,
    whatever it holds. *)
Definition block_exists (steps_cfg : list (string * yaml)) (key : string) : bool :=
  match dict_get key steps_cfg with
  | Some (YMap _) => true
  | _ => false
  end.

(** The default order as the specification words it: the steps of the
    canonical sequence with a block under the canonical or the legacy key. *)
Definition default_order (steps_cfg : list (string * yaml)) : list string :=
  fst <$> filter (λ pl, block_exists steps_cfg pl.1 || block_exists steps_cfg pl.2)
                 STEP_SEQUENCE.

(** [env'] comes after [env], and [new] lists the states of the file system
    that came to exist in between, most recent first. *)
Definition observed (env env' : Env) (new : list (gmap Path string)) : Prop :=
  observable env' = new ++ observable env.

(** An entry [_find_step_entry] can return. *)
Definition recorded (e : StepEntry) : Prop := e_status e ∈ recorded_statuses.

(** What holds of the entries and of [_active_starts] after any calls that
    start each of the steps [started] once and never close one as
    running. *)
Record sound (started : list string) (steps : list StepEntry)
    (active : list (string * datetime)) : Prop := {
  sound_started : ∀ e, e ∈ steps → recorded e → e_step e ∈ started;
  sound_unique : ∀ i j ei ej,
    steps !! i = Some ei → steps !! j = Some ej →
    recorded ei → recorded ej → e_step ei = e_step ej → i = j;
  sound_running : ∀ e, e ∈ steps → e_status e = "running" → e_step e ∈ active.*1;
  sound_pending : ∀ k, k ∈ active.*1 → ∃ e, e ∈ steps ∧ e_step e = k ∧ recorded e;
  sound_keys : NoDup active.*1 }.

(** How [finish] leaves an entry [e] as [e']: failed at [finished] when it
    was the recorded entry of a pending step, untouched otherwise. *)
Definition failed_where (finished : string) (pending : list string)
    (e e' : StepEntry) : Prop :=
  e_step e' = e_step e
  ∧ ((recorded e ∧ e_step e ∈ pending
      ∧ e_status e' = "failed" ∧ e_finished_at e' = Some finished)
     ∨ (e' = e ∧ ¬ (recorded e ∧ e_step e ∈ pending))).

(** No file operation fails in [env], now or later. *)
Definition calm (env : Env) : Prop := ∀ n, faults env n = IoOk.

(** The entry of a step that ran to its end. *)
Definition completed_as (step : string) (e : StepEntry) : Prop :=
  e_step e = step ∧ e_status e = "completed".

(** The calls of the handlers of [steps], each returning. *)
Definition ok_calls (steps : list string) : list (string * outcome ()) :=
  (λ step, (step, Returned ())) <$> steps.

Definition boom : exn := Exn "ValueError" "genotype matrix is empty".

Definition three_steps : option (list (option string)) :=
  Some [Some "filter_variants, step02_filter_mapped_snps"; None;
        Some "step03_filter_individuals,filter_variants"].

Definition history_file : Path := ["project"; "outputs"; "run_history"; "run_1.json"].

Definition mistyped_steps : list (option string) :=
  [Some "step01_filter_variants, bogus1"; Some "pcoa,bogus2"].

Definition repeated_steps : list (option string) :=
  [Some "pcoa, filter_variants"; Some "step13_pcoa"; Some "step01_filter_variants,trait_split"].

Definition fresh_log : ProgressLog :=
  new_log history_file "run_1" false
          ["step01_filter_variants"; "step02_filter_mapped_snps"]
          (Datetime 2025 1 2 3 4 0 0).

(** The environment once [fresh_log] has been built in [sample_env]. *)
Definition after_build : Env :=
  (@ProgressLog_init sample_library history_file "run_1" false
     ["step01_filter_variants"; "step02_filter_mapped_snps"] None sample_env).2.

(** A caller that closes a step as running. *)
Definition careless_calls : list op :=
  [StartStep "step01_filter_variants";
   CompleteStep "step01_filter_variants" "running" None].

(** Two steps started, one completed, one planned: the other one is still
    pending when [finish] is called. *)
Definition interrupted_calls : list op :=
  [StartStep "step01_filter_variants";
   StartStep "step02_filter_mapped_snps";
   CompleteStep "step01_filter_variants" "completed" None;
   PlanStep "step03_filter_individuals"].

Definition own_input : list (string * yaml) := [("input_csv", YStr "in/own.csv")].

Definition no_input : list (string * yaml) := [("input_csv", YStr ""); ("threshold", YInt 3)].

Definition blank_tokens : list (option string) := [Some " , "; None; Some ""; Some ",,"].

Section Notions.
Context `{!Library} `{!StepHandlers}.

(** What [resolve_path] makes of a non-empty string. *)
Definition anchored (config : PipelineConfig) (s : string) : Path :=
  if is_absolute (Path_of s) then Path_of s else resolve_under (root config) (Path_of s).

(** The path a fallback key path resolves to, if it is set. *)
Definition fallback_path (config : PipelineConfig) (fallback_keys : option (list string))
    : option Path :=
  match fallback_keys with
  | Some ((_ :: _) as keys) =>
      match get config keys YNull with
      | YStr (String c s) => Some (anchored config (String c s))
      | _ => None
      end
  | _ => None
  end.

(** The fallback is unset: there is none, or nothing or the empty string
    stands under it. *)
Definition fallback_unset (config : PipelineConfig) (fallback_keys : option (list string))
    : Prop :=
  match fallback_keys with
  | Some ((_ :: _) as keys) => get config keys YNull = YNull ∨ get config keys YNull = YStr ""
  | _ => True
  end.

Definition session_document (self : ProgressLog) : string :=
  json_dumps_session (data self).

Definition latest_document (self : ProgressLog) : string :=
  json_dumps_latest (latest_payload self).

(** What a reader may find at [dest] while [document] is being written
    over the files [old]: what was there before, or the whole document. *)
Definition whole (old : gmap Path string) (document : string) (dest : Path)
    (files : gmap Path string) : Prop :=
  files !! dest = old !! dest ∨ files !! dest = Some document.

(** The session file shows a reader the old or the new session document,
    and latest.json the old or the new summary. *)
Definition both_whole (old : gmap Path string) (self : ProgressLog)
    (files : gmap Path string) : Prop :=
  whole old (session_document self) (path self) files
  ∧ whole old (latest_document self) (latest_path self) files.

(** The names [_write] itself gives to files in the directory of the
    session file: latest.json and its temporary file. *)
Definition reserved_names : list string := ["latest.json"; "latest.json.tmp"].

(** The object was built by [ProgressLog_init], and its session file has
    none of the reserved names. *)
Definition well_placed (self : ProgressLog) : Prop :=
  latest_path self = parent (path self) // "latest.json"
  ∧ name (path self) ∉ reserved_names.

(** Both files hold the documents of [self]. *)
Definition persisted (self : ProgressLog) (files : gmap Path string) : Prop :=
  files !! path self = Some (session_document self)
  ∧ files !! latest_path self = Some (latest_document self).

(** What an operation that ends by writing [self'] lets a reader see. *)
Definition writes_atomically (env : Env) (r : outcome ()) (self' : ProgressLog)
    (env' : Env) : Prop :=
  ∃ new, observed env env' new
    ∧ Forall (both_whole (fs env) self') new
    ∧ (r = Returned () → persisted self' (fs env')).

(** The entry of the failing step as the [except] clause leaves it. *)
Definition failure_message (exc : exn) : option string :=
  if truthy_str (Some (exn_str exc)) then Some (exn_str exc) else None.
End Notions.

(** * The code around the runner

    The rest of [config.py], the step functions of [steps.py] that work on
    text alone, and [cli.py]. *)

(** ** More library functions

    As for [Library]: functions of Python and of the operating system that
    the program calls without looking inside. *)
Class Runtime := {
  (* str(path) *)
  str_of_path : Path → string;
  (* Path(path).expanduser().resolve() *)
  resolve_user : string → Path;
  (* yaml.safe_load(text): the document, or str(exc) of the YAMLError *)
  safe_load : string → yaml + string;
  (* the text of the TypeError of path / value for a value that is no string *)
  div_type_error : yaml → string;
  (* os.environ.get(name) *)
  environ : string → option string;
  (* shutil.which(name) *)
  which : string → option string;
  (* int(token), None when it raises ValueError *)
  int_of_str : string → option Z;
  (* str(n) for an integer, which raises for one with too many digits *)
  str_of_int : Z → outcome string;
  (* a line number in an f-string *)
  decimal : nat → string }.

(** ** config.py: the remaining methods *)

(** The loop of [PipelineConfig.get] when [default] is an object made for
    the call, which the data cannot hold, as in [has]: [None] stands for
    that object. *)
Fixpoint find_from (node : yaml) (keys : list string) : option yaml :=
  match keys with
  | [] => Some node
  | key :: rest =>
      match node with
      | YMap items =>
          match dict_get key items with
          | Some v => find_from v rest
          | None => None
          end
      | _ => None
      end
  end.

(** [PipelineConfig.has] *)
Definition has (config : PipelineConfig) (keys : list string) : bool :=
  match find_from (YMap (config_data config)) keys with
  | Some _ => true
  | None => false
  end.

(** [PipelineConfig.require] *)
Definition require (config : PipelineConfig) (keys : list string) : outcome yaml :=
  match get config keys YNull with
  | YNull => Raised (ConfigError ("Missing required config key: " +:+ join "." keys))
  | value => Returned value
  end.

(** [PipelineConfig.list_steps] *)
Definition list_steps (config : PipelineConfig) : outcome (list string) :=
  match get config ["steps"] (YMap []) with
  | YMap steps => Returned steps.*1
  | _ => Raised (ConfigError "steps must be a mapping of step name to configuration block")
  end.

Section Loading.
Context `{!Library} `{!Runtime}.

(** [PipelineConfig.load]. A file is there when the file system holds a
    text for it; reading it is one file operation. *)
Definition load (path : string) : IO PipelineConfig := λ env,
  let config_path := resolve_user path in
  match fs env !! config_path with
  | None => (Raised (ConfigError ("Config file not found: " +:+ str_of_path config_path)), env)
  | Some text =>
      match next_io env with
      | (IoOk, env') =>
          match safe_load text with
          | inr msg =>
              (Raised (ConfigError ("Failed to parse YAML config " +:+ str_of_path config_path
                                    +:+ ": " +:+ msg)), env')
          | inl document =>
              match (if truthy document then document else YMap []) with
              | YMap data =>
                  match default (YStr ".") (dict_get "project_root" data) with
                  | YStr root_ref =>
                      (Returned (mkConfig data
                                   (resolve_under (parent config_path) (Path_of root_ref))
                                   config_path), env')
                  | root_ref => (Raised (Exn "TypeError" (div_type_error root_ref)), env')
                  end
              | _ => (Raised (ConfigError "Top-level YAML structure must be a mapping"), env')
              end
          end
      | (IoFailBefore msg, env') | (IoFailAfter _ msg, env') => (Raised (OSError msg), env')
      end
  end.
End Loading.

(** ** utils.py *)

(** [utils.write_text] *)
Definition utils_write_text (p : Path) (content : string) : IO () :=
  _ ← ensure_parent p;
  write_text p content.

(** ** steps.py: the steps that work on text *)

(** [_stringify_missing_code], for a value read from the configuration;
    [str_value] is [str] on such a value. *)
Definition _stringify_missing_code (str_value : yaml → string) (value : yaml) : string :=
  match value with
  | YNull => "9"
  | _ => str_value value
  end.

(** The [for key in keys] loop of [_load_step_config]. *)
Fixpoint first_block (config : PipelineConfig) (keys : list string) (primary : string)
    : option (list (string * yaml)) * string :=
  match keys with
  | [] => (None, primary)
  | key :: rest =>
      match get config ["steps"; key] YNull with
      | YMap step_cfg => (Some step_cfg, key)
      | _ => first_block config rest primary
      end
  end.

(** [_load_step_config]: the block of a step and the key it stands under. *)
Definition _load_step_config (config : PipelineConfig) (primary : string)
    (legacy : option string) : option (list (string * yaml)) * string :=
  let keys :=
    match legacy with
    | Some l => if truthy_str legacy && bool_decide (l ≠ primary) then [primary; l] else [primary]
    | None => [primary]
    end in
  first_block config keys primary.

(** [s.split()]: the runs of characters that are not white space. *)
Definition word_ends (rest : string) : bool :=
  match rest with
  | EmptyString => true
  | String c _ => isspace c
  end.

Fixpoint split_whitespace (s : string) : list string :=
  match s with
  | EmptyString => []
  | String c rest =>
      if isspace c then split_whitespace rest
      else match split_whitespace rest with
           | word :: words =>
               if word_ends rest then String c "" :: word :: words
               else String c word :: words
           | [] => [String c ""]
           end
  end.

(** [line.split(",", 1)[0]] *)
Fixpoint before_comma (line : string) : string :=
  match line with
  | EmptyString => ""
  | String c rest => if Ascii.eqb c "," then "" else String c (before_comma rest)
  end.

(** [allele.upper() == "B"] and [allele.upper() == "C"]: the letter itself
    and its small form are the two strings whose upper case is the
    letter. *)
Definition upper_is_B (allele : string) : bool :=
  bool_decide (allele = "B" ∨ allele = "b").
Definition upper_is_C (allele : string) : bool :=
  bool_decide (allele = "C" ∨ allele = "c").

Module Steps.
Section Steps.
Context `{!Library} `{!StepHandlers} `{!Runtime}.

(** [plink_pruning] *)
Definition plink_pruning (config : PipelineConfig) : Run () :=
  match _load_step_config config "step11_plink_pruning" (Some "plink_pruning") with
  | (None, _) => info "Skipping step11_plink_pruning (not configured)"
  | (Some _, step_key) =>
      panel_prefix ← lift (config_path_of config ["steps"; step_key; "panel_prefix"] true);
      match panel_prefix with
      | None =>
          λ st, (Raised (ConfigError "steps.step11_plink_pruning.panel_prefix must be set"), st)
      | Some panel_prefix =>
          let output_dir := parent panel_prefix in
          _ ← lift (ensure_parent (output_dir // "_README.txt"));
          let message :=
            join newline
              [ "Run PLINK LD pruning manually to generate the binary and PED/MAP panel.";
                "";
                "Suggested command (PowerShell):";
                "  powershell -ExecutionPolicy Bypass -File scripts/cli_examples/run_plink_stage.ps1";
                "";
                "Outputs should be written under: " +:+ str_of_path output_dir ] in
          _ ← lift (utils_write_text (output_dir // "_README.txt") message);
          info ("Manual PLINK pruning required; see "
                +:+ str_of_path (output_dir // "_README.txt") +:+ " for instructions.")
      end
  end.

(** [_resolve_rscript]. [candidate] holds [None], the configured value or
    a string. *)
Definition _resolve_rscript (config : option PipelineConfig) : IO yaml :=
  let from_config : IO yaml :=
    match config with
    | None => mret YNull
    | Some config =>
        let configured := get config ["tools"; "rscript_executable"] YNull in
        if truthy configured then
          resolved ← resolve_path config configured false;
          mret (match resolved with
                | Some p => YStr (str_of_path p)
                | None => configured
                end)
        else mret YNull
    end in
  let not_found : IO yaml := λ env,
    (Raised (ConfigError ("Rscript executable not found. Add it to PATH, set "
                          +:+ "RSCRIPT_PATH/RSCRIPT_EXECUTABLE, "
                          +:+ "or configure tools.rscript_executable.")), env) in
  candidate ← from_config;
  let candidate :=
    if truthy candidate then candidate
    else
      let env_override :=
        if truthy_str (environ "RSCRIPT_PATH") then environ "RSCRIPT_PATH"
        else environ "RSCRIPT_EXECUTABLE" in
      match env_override with
      | Some (String c s) => YStr (String c s)
      | _ => candidate
      end in
  if truthy candidate then mret candidate
  else
    match which "Rscript" with
    | Some (String c s) => mret (YStr (String c s))
    | _ => not_found
    end.

(** Lines 832 to 844 of [fix_pruned_ped]: what becomes of the tokens of
    one line. The text of the first message is the one of the source file,
    byte by byte. *)
Definition fix_allele (allele : string) : string :=
  if upper_is_B allele then "C"
  else if upper_is_C allele then "C"
  else allele.

Definition fix_tokens (input_path : string) (line_no : nat) (tokens : list string)
    : outcome (list string) :=
  if (length tokens <? 6)%nat then
    Raised (ConfigError ("Line " +:+ decimal line_no +:+ " in " +:+ input_path
                         +:+ " is not a valid PED record (expected â‰¥6 columns)."))
  else
    let sex := default "" (tokens !! 4%nat) in
    match int_of_str sex with
    | None =>
        Raised (ConfigError ("Line " +:+ decimal line_no
                             +:+ ": could not parse sex value '" +:+ sex +:+ "'."))
    | Some sex_val =>
        match str_of_int (sex_val + 1) with
        | Raised e => Raised e
        | Returned text =>
            Returned (take 6 (<[4%nat := text]> tokens) ++ (fix_allele <$> drop 6 tokens))
        end
    end.

(** Lines 827 to 846 of [fix_pruned_ped]: the loop over the lines of the
    input from line [line_no] on. It gives the lines written to the output
    so far, and [total] or the exception that ended the loop. *)
Fixpoint fix_lines (input_path : string) (line_no : nat) (lines : list string)
    (written : list string) (total : nat) : outcome nat * list string :=
  match lines with
  | [] => (Returned total, written)
  | raw :: rest =>
      let stripped := strip raw in
      if decide (stripped = "") then fix_lines input_path (S line_no) rest written total
      else
        match fix_tokens input_path line_no (split_whitespace stripped) with
        | Raised e => (Raised e, written)
        | Returned tokens =>
            fix_lines input_path (S line_no) rest
                      (written ++ [join " " tokens +:+ newline]) (S total)
        end
  end.

(** Lines 688 and 689 of [extract_pruned_subset]: the identifiers listed in
    the file prune.in. *)
Definition selected_of (prune_in : list string) : gset string :=
  list_to_set (filter (λ line, line ≠ "") (strip <$> prune_in)).

(** Lines 690 to 697: the lines written, from the line of index [idx] on. *)
Fixpoint subset_lines (selected : gset string) (idx : nat) (lines : list string)
    : list string :=
  match lines with
  | [] => []
  | line :: rest =>
      if (idx =? 0)%nat then line :: subset_lines selected (S idx) rest
      else if decide (before_comma line ∈ selected)
           then line :: subset_lines selected (S idx) rest
           else subset_lines selected (S idx) rest
  end.
End Steps.
End Steps.

(** ** pipeline.py: the steps on offer *)

(** [sorted] on strings. *)
Fixpoint insert_sorted (x : string) (l : list string) : list string :=
  match l with
  | [] => [x]
  | y :: rest => if String.leb x y then x :: l else y :: insert_sorted x rest
  end.

Definition sorted (l : list string) : list string := foldr insert_sorted [] l.

(** [GWASPipeline.available_steps] *)
Definition available_steps : list string := sorted (elements (dom STEP_FUNCTIONS)).

(** ** cli.py *)

(** What [parse_args] returns. *)
Record Namespace := mkArgs {
  args_config : string;
  args_list_steps : bool;
  args_steps : option (list string);
  args_dry_run : bool }.

(** [except ConfigError] *)
Definition is_ConfigError (exc : exn) : bool := bool_decide (exn_type exc = "ConfigError").

Section Cli.
Context `{!Library} `{!StepHandlers} `{!Runtime}.

(** [args.steps] as the [selected_steps] of [run]: a list of strings when
    the option was given. *)
Definition selection_of (steps : option (list string)) : option (list (option string)) :=
  match steps with
  | Some tokens => Some (Some <$> tokens)
  | None => None
  end.

Definition error (msg : string) : Run () := λ st,
  (Returned (), set_world st (log_record (logger_files st) "ERROR" msg (world st))).

(** [main] from the parsed arguments on: the exit status, or the exception
    that leaves [main]. *)
Definition main (args : Namespace) (env : Env) : outcome Z * RunState :=
  match load (args_config args) env with
  | (Raised exc, env) =>
      if is_ConfigError exc then (Returned 1%Z, (error (exn_str exc) (initial env)).2)
      else (Raised exc, initial env)
  | (Returned config, env) =>
      if args_list_steps args then
        let st := (info ("Available steps: " +:+ join ", " available_steps) (initial env)).2 in
        match configured_steps config with
        | Raised exc => (Raised exc, st)
        | Returned configured =>
            (Returned 0%Z, (info ("Configured steps: " +:+ join ", " configured) st).2)
        end
      else
        match run config (selection_of (args_steps args)) (args_dry_run args) env with
        | (Raised exc, st) =>
            if is_ConfigError exc then (Returned 1%Z, (error (exn_str exc) st).2)
            else (Raised exc, st)
        | (Returned _, st) => (Returned 0%Z, st)
        end
  end.
End Cli.

(** ** More to run the model with *)

Definition decimal_of_Z (z : Z) : string :=
  if (z <? 0)%Z then "-" +:+ decimal_of_nat (Z.to_nat (- z)) else decimal_of_nat (Z.to_nat z).

(** The value of a string of digits. *)
Fixpoint digits_value (s : string) (acc : nat) : option nat :=
  match s with
  | EmptyString => Some acc
  | String c rest =>
      let n := nat_of_ascii c in
      if (48 <=? n)%nat && (n <=? 57)%nat then digits_value rest (10 * acc + (n - 48))
      else None
  end.

Definition sample_runtime : Runtime := {|
  str_of_path := λ p, join "/" p;
  resolve_user := λ s, ["project"; "config"; s];
  safe_load := λ text,
    if decide (text = "") then inl YNull
    else if decide (text = "- a") then inl (YSeq [YStr "a"])
    else if decide (text = "steps: 3") then inl (YMap [("steps", YInt 3)])
    else inr "could not parse";
  div_type_error := λ _, "unsupported operand type(s) for /";
  environ := λ k, if decide (k = "RSCRIPT_EXECUTABLE") then Some "/opt/R/bin/Rscript" else None;
  which := λ _, Some "/usr/bin/Rscript";
  int_of_str := λ s,
    match s with
    | EmptyString => None
    | String "-" (String c rest) => (λ n, (- Z.of_nat n)%Z) <$> digits_value (String c rest) 0
    | _ => Z.of_nat <$> digits_value s 0
    end;
  str_of_int := λ z, Returned (decimal_of_Z z);
  decimal := decimal_of_nat |}.

(** ** What the properties below speak of *)

(** The first of the values that is set: there, and not the empty
    string. *)
Definition first_set (values : list (option string)) : option string :=
  head (omap (λ v, match v with
                   | Some (String c s) => Some (String c s)
                   | _ => None
                   end) values).

(** What no call on a [ProgressLog] changes: its files, its session and
    the head of its document. *)
Definition header (self : ProgressLog) :=
  (path self, latest_path self, session self, d_session (data self),
   d_dry_run (data self), d_started_at (data self), d_run_order (data self)).

(** [e'] is the entry [e] after some calls: the entry of the same step,
    noted and started at the same times. *)
Definition same_entry (e e' : StepEntry) : Prop :=
  e_step e' = e_step e ∧ e_noted_at e' = e_noted_at e ∧ e_started_at e' = e_started_at e.

(** The steps that the calls add an entry for, in order. *)
Definition entered_steps (ops : list op) : list string :=
  omap (λ o, match o with
             | PlanStep step | StartStep step => Some step
             | _ => None
             end) ops.

(** Every step of [_active_starts] is there once and has an entry that
    [_find_step_entry] returns. *)
Definition tracked (steps : list StepEntry) (active : list (string * datetime)) : Prop :=
  NoDup active.*1 ∧ ∀ k, k ∈ active.*1 → ∃ e, e ∈ steps ∧ e_step e = k ∧ recorded e.

(** From [st] to [st'] the logger kept its handlers, and the recorder, if
    there is one, its files and the head of its document. *)
Definition steady (st st' : RunState) : Prop :=
  log_handler st' = log_handler st
  ∧ logger_files st' = logger_files st
  ∧ match progress st, progress st' with
    | Some self, Some self' => header self' = header self
    | None, None => True
    | _, _ => False
    end.

(** What the operating system answered to the last file operation made
    in [env]. *)
Definition last_verdict (env : Env) : io_verdict := faults env (pred (io_calls env)).

(** The error [run] meets in its [finally] clause: the one of closing the
    log file, when [run] had opened one and closing it was refused. It is
    the last file operation of [run]. *)
Definition close_error (st : RunState) : option exn :=
  match log_handler st with
  | None => None
  | Some _ =>
      match last_verdict (world st) with
      | IoOk => None
      | IoFailBefore msg | IoFailAfter _ msg => Some (OSError msg)
      end
  end.

(** What [run] does with the result [r] of its [try] statement. *)
Definition after_closing (st : RunState) (r : outcome ()) : outcome () :=
  match close_error st with
  | Some e => Raised e
  | None => r
  end.

Section Sessions.
Context `{!Library}.

(** The session that [run] opens in [env] for [run_order]: its name, its
    log file, and the recorder as it is built. *)
Definition session_name_of (dry_run : bool) (env : Env) : string :=
  "run_" +:+ strftime_compact (clock env (ticks env))
  +:+ (if dry_run then "_dryrun" else "").

Definition log_path_of (config : PipelineConfig) (dry_run : bool) (env : Env) : Path :=
  root config // "outputs" // "run_history" // (session_name_of dry_run env +:+ ".log").

Definition session_of (config : PipelineConfig) (run_order : list string) (dry_run : bool)
    (env : Env) : ProgressLog :=
  new_log (root config // "outputs" // "run_history"
           // (session_name_of dry_run env +:+ ".json"))
          (session_name_of dry_run env) dry_run run_order (clock env (ticks env)).
End Sessions.

(** A configuration with the block of step 15 under its legacy key. *)
Definition legacy_ped_config : PipelineConfig :=
  mkConfig
    [("steps", YMap [("fix_pruned_ped", YMap [("input_ped", YStr "panel.ped")]);
                     ("plink_pruning", YMap [("panel_prefix", YStr "panel/pruned")])])]
    ["project"] ["project"; "config"; "pipeline.yaml"].


(** Four lines of a PED file: a record, a blank line, a line that is too
    short and another record. *)
Definition ped_lines : list string :=
  ["FAM1 IND1 0 0 1 -9 A b" +:+ newline; "  " +:+ newline;
   "FAM1 IND2" +:+ newline; "FAM1 IND3 0 0 2 -9 B B" +:+ newline].

(** The environment of [sample_env] with a configuration file of the given
    text at the place [sample_runtime] resolves pipeline.yaml to. *)
Definition env_with_config (text : string) : Env :=
  mkEnv {[ ["project"; "config"; "pipeline.yaml"] := text ]} []
        (λ n, Datetime 2025 1 2 3 4 n 0) 0 (λ _, IoOk) 0 [].

(** What [load] makes of an empty configuration file there. *)
Definition empty_config : PipelineConfig :=
  mkConfig [] ["project"; "config"; "."] ["project"; "config"; "pipeline.yaml"].

Definition args_for (list_steps : bool) (steps : option (list string)) : Namespace :=
  mkArgs "pipeline.yaml" list_steps steps false.

(** * Properties *)

#[local] Set Warnings "-clear-no-such-hyp".
#[local] Opaque STEP_FUNCTIONS STEP_ALIASES STEP_SEQUENCE.
#[local] Arguments writing_states : simpl never.
#[local] Arguments set_fs : simpl never.

(** ** Run order *)

Lemma collect_filter normalised seen run_order :
  collect normalised seen run_order
  = run_order ++ filter (λ y, y ∉ seen) (first_occurrences normalised).
Proof.
  revert seen run_order.
  induction normalised as [|x rest IH]; intros seen run_order; simpl.
  - by rewrite app_nil_r.
  - rewrite filter_cons, list_filter_filter. destruct (decide (x ∈ seen)) as [Hin|Hout].
    + rewrite IH. destruct (decide (x ∉ seen)); [done|].
      f_equal. apply list_filter_iff. intros y. split; [|tauto].
      intros Hy. split; [done|]. intros ->. done.
    + rewrite IH. destruct (decide (x ∉ seen)); [|done].
      rewrite <- app_assoc. simpl. do 2 f_equal.
      apply list_filter_iff. intros y. set_solver.
Qed.

Lemma collect_first_occurrences normalised :
  collect normalised ∅ [] = first_occurrences normalised.
Proof.
  rewrite collect_filter. simpl. induction (first_occurrences normalised) as [|x l IH].
  - done.
  - rewrite filter_cons. destruct (decide (x ∉ (∅ : gset string))); [|set_solver].
    by rewrite IH.
Qed.

Lemma first_occurrences_elem l x : x ∈ first_occurrences l ↔ x ∈ l.
Proof.
  induction l as [|h t IH]; simpl; [done|].
  rewrite !elem_of_cons, list_elem_of_filter, IH.
  destruct (decide (x = h)); naive_solver.
Qed.

Lemma first_occurrences_NoDup l : NoDup (first_occurrences l).
Proof.
  induction l as [|h t IH]; simpl; [constructor|].
  constructor.
  - rewrite list_elem_of_filter. naive_solver.
  - by apply NoDup_filter.
Qed.

Lemma filter_split {A} (P : A → Prop) `{!∀ x, Decision (P x)} (l a b : list A) x :
  filter P l = a ++ x :: b →
  ∃ a' b', l = a' ++ x :: b' ∧ filter P a' = a ∧ filter P b' = b ∧ P x.
Proof.
  revert a. induction l as [|h t IH]; intros a Heq.
  - by destruct a.
  - rewrite filter_cons in Heq. destruct (decide (P h)) as [Hh|Hh].
    + destruct a as [|a0 a]; simpl in Heq; injection Heq as -> Heq.
      * exists [], t. by rewrite filter_nil.
      * destruct (IH _ Heq) as (a' & b' & -> & <- & <- & Hx).
        exists (a0 :: a'), b'. rewrite filter_cons.
        by destruct (decide (P a0)).
    + destruct (IH _ Heq) as (a' & b' & -> & <- & <- & Hx).
      exists (h :: a'), b'. rewrite filter_cons. by destruct (decide (P h)).
Qed.

(** When [x] stands before [y] in the result, the first [x] of the input
    comes before any [y]. *)
Lemma first_occurrences_order l x y l1 l2 l3 :
  first_occurrences l = l1 ++ x :: l2 ++ y :: l3 →
  ∃ before after, l = before ++ (x :: after) ∧ (x ∉ before) ∧ (y ∉ before).
Proof.
  revert l1 l2 l3. induction l as [|h t IH]; intros l1 l2 l3 Heq; simpl in Heq.
  - by destruct l1.
  - destruct l1 as [|h1 l1]; simpl in Heq; injection Heq as -> Heq.
    + exists [], t. set_solver.
    + destruct (filter_split _ _ _ _ _ Heq) as (a' & b' & Hfo & _ & Hb & Hx).
      destruct (filter_split _ _ _ _ _ Hb) as (a'' & b'' & -> & _ & _ & Hy).
      destruct (IH _ _ _ Hfo) as (before & after & -> & Hxb & Hyb).
      exists (h1 :: before), after. set_solver.
Qed.

Lemma classify_spec selected_list normalised unknown :
  classify selected_list normalised unknown
  = (normalised ++ filter (λ r, is_Some (STEP_FUNCTIONS !! r))
                          ((λ step, default step (STEP_ALIASES !! step)) <$> selected_list),
     unknown ++ filter (λ step, STEP_FUNCTIONS !! default step (STEP_ALIASES !! step) = None)
                       selected_list).
Proof.
  revert normalised unknown.
  induction selected_list as [|step rest IH]; intros normalised unknown; simpl.
  - by rewrite !app_nil_r.
  - rewrite !filter_cons.
    destruct (STEP_FUNCTIONS !! default step (STEP_ALIASES !! step)) as [h|] eqn:Hh.
    + rewrite IH. destruct (decide (is_Some (Some h))) as [_|[]]; [|by eexists].
      destruct (decide (Some h = None)); [done|]. by rewrite <- app_assoc.
    + rewrite IH. destruct (decide (is_Some None)) as [[? ?]|_]; [done|].
      destruct (decide (None = None)); [|done]. by rewrite <- app_assoc.
Qed.

Lemma resolve_selection config tokens :
  resolve config (Some tokens)
  = match unresolved tokens with
    | _ :: _ => Invalid (ConfigError ("Unknown step(s): " +:+ join ", " (unresolved tokens)))
    | [] => match first_occurrences (resolved_selection tokens) with
            | [] => NothingToRun (selected_list_of tokens)
            | run_order => Order run_order
            end
    end.
Proof.
  unfold resolve. rewrite classify_spec. simpl. fold (unresolved tokens).
  destruct (unresolved tokens) as [|u us] eqn:Hu; [|done].
  rewrite collect_first_occurrences.
  fold (resolved_selection tokens).
  assert (filter (λ r, is_Some (STEP_FUNCTIONS !! r)) (resolved_selection tokens)
          = resolved_selection tokens) as ->; [|done].
  unfold resolved_selection, unresolved in *.
  induction (selected_list_of tokens) as [|s l IH]; [done|].
  rewrite filter_cons in Hu. rewrite fmap_cons, filter_cons.
  destruct (decide (STEP_FUNCTIONS !! default s (STEP_ALIASES !! s) = None)) as [|Hs]; [done|].
  destruct (decide (is_Some (STEP_FUNCTIONS !! default s (STEP_ALIASES !! s)))) as [|Hn].
  - by rewrite IH.
  - destruct Hn. by apply not_eq_None_Some.
Qed.

(** C5. For a selection in which every token resolves to a registered step,
    the run order that [run] computes holds each resolved identifier exactly
    once, in the order of the first occurrences: an identifier that stands
    before another in the run order occurs in the resolved selection before
    the other one does. *)
Theorem run_order_first_occurrence config tokens :
  unresolved tokens = [] →
  resolved_selection tokens ≠ [] →
  ∃ run_order,
    resolve config (Some tokens) = Order run_order
    ∧ NoDup run_order
    ∧ (∀ step, step ∈ run_order ↔ step ∈ resolved_selection tokens)
    ∧ (∀ x y l1 l2 l3, run_order = l1 ++ x :: l2 ++ y :: l3 →
         ∃ before after, resolved_selection tokens = before ++ (x :: after)
                         ∧ (x ∉ before) ∧ (y ∉ before)).
Proof.
  intros Hknown Hne. exists (first_occurrences (resolved_selection tokens)).
  split; [|split; [|split]].
  - rewrite resolve_selection, Hknown.
    destruct (resolved_selection tokens) as [|s l]; done.
  - apply first_occurrences_NoDup.
  - intros step. apply first_occurrences_elem.
  - intros x y l1 l2 l3. apply first_occurrences_order.
Qed.

Lemma append_assoc (a b c : string) : (a +:+ b) +:+ c = a +:+ b +:+ c.
Proof.
  induction a as [|ch a IH]; [done|].
  change (String ch ((a +:+ b) +:+ c) = String ch (a +:+ b +:+ c)). by f_equal.
Qed.

Lemma append_empty_r (a : string) : a +:+ "" = a.
Proof.
  induction a as [|ch a IH]; [done|].
  change (String ch (a +:+ "") = String ch a). by f_equal.
Qed.

Lemma occurs_in_here s after : occurs_in s (s +:+ after).
Proof. by exists "", after. Qed.

Lemma occurs_in_later s before msg : occurs_in s msg → occurs_in s (before +:+ msg).
Proof.
  intros (b & a & ->). exists (before +:+ b), a. by rewrite append_assoc.
Qed.

Lemma join_occurs sep parts s : s ∈ parts → occurs_in s (join sep parts).
Proof.
  induction parts as [|p rest IH]; [by intros ?%elem_of_nil|].
  intros [->|Hin]%elem_of_cons; simpl.
  - destruct rest; [|apply occurs_in_here].
    exists "", "". by rewrite append_empty_r.
  - destruct rest as [|q rest]; [by apply elem_of_nil in Hin|].
    apply occurs_in_later, occurs_in_later. by apply IH.
Qed.

Section Selection.
Context `{!Library} `{!StepHandlers}.

(** C4. When a token of the selection resolves to no registered step,
    [run] raises a [ConfigError] whose message holds every such token,
    and does so in the state it started in: no session object, no handler
    call, the file system untouched and nothing a reader could have
    seen. *)
Theorem unknown_steps_rejected config tokens dry_run env :
  unresolved tokens ≠ [] →
  ∃ msg st,
    run config (Some tokens) dry_run env = (Raised (ConfigError msg), st)
    ∧ Forall (λ step, occurs_in step msg) (unresolved tokens)
    ∧ progress st = None ∧ invoked st = [] ∧ world st = env.
Proof.
  intros Hunknown. unfold run. rewrite resolve_selection.
  destruct (unresolved tokens) as [|u us] eqn:Hu; [done|].
  eexists _, _. split; [done|]. split; [|done].
  apply Forall_forall. intros step Hstep.
  apply occurs_in_later. by apply join_occurs.
Qed.

(** C10. A selection whose tokens leave nothing once cut at commas and
    stripped makes [run] return at once: no session object, no handler
    call, no log handler, and the file system as it was, with no state of
    it a reader could have seen in between. *)
Theorem empty_selection_returns config tokens dry_run env :
  selected_list_of tokens = [] →
  ∃ st,
    run config (Some tokens) dry_run env = (Returned (), st)
    ∧ progress st = None ∧ invoked st = [] ∧ log_handler st = None
    ∧ fs (world st) = fs env ∧ observable (world st) = observable env.
Proof.
  intros Hempty. unfold run. rewrite resolve_selection.
  unfold unresolved, resolved_selection. rewrite Hempty. simpl.
  eexists. split; [done|]. done.
Qed.
End Selection.

(** ** Default order *)

Lemma is_dict_yaml_get steps_cfg key :
  is_dict (yaml_get key steps_cfg) = block_exists steps_cfg key.
Proof.
  unfold yaml_get, block_exists. destruct (dict_get key steps_cfg) as [[]|]; done.
Qed.

Lemma configured_from_filter steps_cfg sequence configured :
  Forall (λ pl, pl.2 ≠ "") sequence →
  configured_from steps_cfg sequence configured
  = configured ++ (fst <$> filter (λ pl, block_exists steps_cfg pl.1
                                         || block_exists steps_cfg pl.2) sequence).
Proof.
  intros Hlegacy. revert configured.
  induction Hlegacy as [|[primary legacy] rest Hne _ IH]; intros configured; simpl.
  - by rewrite app_nil_r.
  - rewrite IH, filter_cons. simpl in *.
    rewrite !is_dict_yaml_get.
    destruct legacy as [|c legacy]; [done|]. simpl.
    destruct (block_exists steps_cfg primary) eqn:Hp; simpl.
    + rewrite is_dict_yaml_get, Hp. by rewrite <- app_assoc.
    + rewrite is_dict_yaml_get.
      destruct (block_exists steps_cfg (String c legacy)); simpl; [|done].
      by rewrite <- app_assoc.
Qed.

Lemma default_order_sublist steps_cfg : default_order steps_cfg `sublist_of` STEP_ORDER.
Proof. unfold default_order, STEP_ORDER. apply fmap_sublist, sublist_filter. Qed.

Lemma STEP_SEQUENCE_legacy : Forall (λ pl, pl.2 ≠ "") STEP_SEQUENCE.
Proof. apply (bool_decide_unpack _). vm_compute. exact I. Qed.

Lemma configured_steps_Returned config run_order :
  configured_steps config = Returned run_order → run_order `sublist_of` STEP_ORDER.
Proof.
  unfold configured_steps.
  destruct (get config ["steps"] (YMap [])) as [| | | | | |steps_cfg];
    intros Heq; [discriminate Heq.. |].
  rewrite configured_from_filter in Heq by apply STEP_SEQUENCE_legacy.
  injection Heq as <-. apply default_order_sublist.
Qed.

(** C9. [configured_steps] returns the steps of the canonical sequence with
    a mapping under their canonical or their legacy key in "steps", in the
    canonical order; what the mapping holds plays no part. It raises a
    [ConfigError] when "steps" is there and is no mapping. *)
Theorem configured_steps_default_order config :
  match get config ["steps"] (YMap []) with
  | YMap steps_cfg =>
      configured_steps config = Returned (default_order steps_cfg)
      ∧ default_order steps_cfg `sublist_of` STEP_ORDER
  | _ => ∃ msg, configured_steps config = Raised (ConfigError msg)
  end.
Proof.
  unfold configured_steps.
  destruct (get config ["steps"] (YMap [])) as [| | | | | |steps_cfg];
    try (eexists; reflexivity).
  split.
  - rewrite configured_from_filter; [reflexivity|]. apply STEP_SEQUENCE_legacy.
  - apply default_order_sublist.
Qed.

(** ** Input wiring *)

Section Inputs.
Context `{!Library}.

(** C8. [_resolve_input_path] returns the path of the step's own key when
    a non-empty string stands there; when nothing true stands there and
    the fallback key path leads to a non-empty string, it returns the path
    of the fallback; when the fallback is unset too it raises a
    [ConfigError] whose message is built from the step's own key alone. *)
Theorem resolve_input_path_chain config step_cfg key fallback_keys env :
  (∀ c s, dict_get key step_cfg = Some (YStr (String c s)) →
     _resolve_input_path config step_cfg key fallback_keys env
     = (Returned (anchored config (String c s)), env))
  ∧ (∀ p, truthy (yaml_get key step_cfg) = false →
       fallback_path config fallback_keys = Some p →
       _resolve_input_path config step_cfg key fallback_keys env = (Returned p, env))
  ∧ (truthy (yaml_get key step_cfg) = false →
     fallback_unset config fallback_keys →
     _resolve_input_path config step_cfg key fallback_keys env
     = (Raised (ConfigError ("Missing input path for key '" +:+ key
                             +:+ "' and no fallback provided")), env)
     ∧ occurs_in key ("Missing input path for key '" +:+ key
                      +:+ "' and no fallback provided")).
Proof.
  unfold _resolve_input_path. split; [|split].
  - intros c s Hraw. unfold yaml_get. rewrite Hraw. simpl.
    unfold anchored. by destruct (is_absolute _).
  - intros p -> Hfb. destruct fallback_keys as [[|k keys]|]; try done.
    simpl in Hfb. unfold config_path_of.
    destruct (get config (k :: keys) YNull) as [| | |[|c s]| | |]; try done.
    injection Hfb as <-. simpl. unfold anchored. by destruct (is_absolute _).
  - intros -> Hfb. split; [|apply occurs_in_later, occurs_in_here].
    destruct fallback_keys as [[|k keys]|]; try done.
    simpl in Hfb. unfold config_path_of. by destruct Hfb as [-> | ->].
Qed.
End Inputs.

(** ** File operations *)

Lemma substring_all s : substring 0 (String.length s) s = s.
Proof. induction s as [|c s IH]; simpl; [done | by rewrite IH]. Qed.

Lemma last_writing_states p content upto files :
  List.last (writing_states p content upto files) files
  = <[p := substring 0 upto content]> files.
Proof.
  unfold writing_states. rewrite seq_S, fmap_app. simpl.
  by rewrite last_last.
Qed.

Lemma fs_set_fs states env : fs (set_fs states env) = List.last states (fs env).
Proof. done. Qed.

Lemma observable_set_fs states env :
  observable (set_fs states env) = reverse states ++ observable env.
Proof. done. Qed.

Lemma faults_set_fs states env : faults (set_fs states env) = faults env.
Proof. done. Qed.

Lemma io_calls_set_fs states env : io_calls (set_fs states env) = io_calls env.
Proof. done. Qed.

Lemma mkdir_spec p env r env' :
  mkdir p env = (r, env') →
  fs env' = fs env ∧ observable env' = observable env ∧ faults env' = faults env
  ∧ (faults env (io_calls env) = IoOk → r = Returned ())
  ∧ io_calls env' = S (io_calls env).
Proof.
  unfold mkdir, next_io. destruct (faults env (io_calls env)); intros [= <- <-]; done.
Qed.

Lemma write_text_spec p content env r env' :
  write_text p content env = (r, env') →
  ∃ new, observed env env' new
    ∧ Forall (λ files, ∃ k, files = <[p := substring 0 k content]> (fs env)) new
    ∧ (fs env' = fs env ∨ ∃ k, fs env' = <[p := substring 0 k content]> (fs env))
    ∧ (r = Returned () → fs env' = <[p := content]> (fs env))
    ∧ faults env' = faults env
    ∧ (faults env (io_calls env) = IoOk → r = Returned ())
    ∧ io_calls env' = S (io_calls env).
Proof.
  assert (∀ upto, Forall (λ files, ∃ k, files = <[p := substring 0 k content]> (fs env))
                         (reverse (writing_states p content upto (fs env)))) as Hstates.
  { intros upto. apply Forall_forall. intros files.
    rewrite elem_of_reverse. unfold writing_states.
    intros (k & -> & _)%list_elem_of_fmap. by exists k. }
  unfold write_text, next_io, observed.
  destruct (faults env (io_calls env)) as [|msg|k msg]; intros [= <- <-];
    rewrite ?fs_set_fs, ?observable_set_fs, ?faults_set_fs, ?io_calls_set_fs;
    cbn [fs observable faults io_calls]; rewrite ?last_writing_states, ?substring_all.
  - exists (reverse (writing_states p content (String.length content) (fs env))).
    split; [done|]. split; [done|]. split; [|done].
    right. exists (String.length content). by rewrite substring_all.
  - exists []. split; [done|]. split; [constructor|]. split; [by left|]. done.
  - exists (reverse (writing_states p content (k `min` String.length content) (fs env))).
    split; [done|]. split; [done|]. split; [eauto|]. done.
Qed.

Lemma replace_spec src dst env r env' :
  replace src dst env = (r, env') →
  faults env' = faults env ∧ io_calls env' = S (io_calls env)
  ∧ ((fs env' = fs env ∧ observed env env' [] ∧ ∃ e, r = Raised e
      ∧ (faults env (io_calls env) = IoOk → fs env !! src = None))
     ∨ (∃ text, fs env !! src = Some text
        ∧ fs env' = <[dst := text]> (delete src (fs env))
        ∧ observed env env' [fs env'] ∧ r = Returned ())).
Proof.
  unfold replace, next_io, observed.
  destruct (faults env (io_calls env)); cbn [fs fst snd].
  - destruct (fs env !! src) as [text|] eqn:Hsrc; intros [= <- <-];
      rewrite ?fs_set_fs, ?observable_set_fs, ?faults_set_fs, ?io_calls_set_fs;
      cbn [fs observable faults io_calls List.last reverse].
    + split; [done|]. split; [done|]. right. by exists text.
    + split; [done|]. split; [done|]. left. eauto 10.
  - intros [= <- <-]. split; [done|]. split; [done|]. left.
    split; [done|]. split; [done|]. eexists. split; [done|]. done.
  - intros [= <- <-]. split; [done|]. split; [done|]. left.
    split; [done|]. split; [done|]. eexists. split; [done|]. done.
Qed.

Lemma IO_bind_inv {A B} (m : IO A) (f : A → IO B) env r env' :
  (m ≫= f) env = (r, env') →
  (∃ a env1, m env = (Returned a, env1) ∧ f a env1 = (r, env'))
  ∨ (∃ e, m env = (Raised e, env') ∧ r = Raised e).
Proof.
  unfold mbind, IO_bind. destruct (m env) as [[a|e] env1]; intros Heq.
  - left. eauto.
  - right. injection Heq as <- <-. eauto.
Qed.

(** ** Paths *)

Lemma parent_div p c : parent (p // c) = p.
Proof. apply removelast_last. Qed.

Lemma name_div p c : name (p // c) = c.
Proof. apply last_last. Qed.

Lemma length_append a b : String.length (a +:+ b) = String.length a + String.length b.
Proof.
  induction a as [|c a IH]; [done|].
  change (S (String.length (a +:+ b)) = S (String.length a + String.length b)).
  by rewrite IH.
Qed.

Lemma name_tmp_of p : name (tmp_of p) = name p +:+ ".tmp".
Proof. apply name_div. Qed.

Lemma tmp_of_ne p : tmp_of p ≠ p.
Proof.
  intros Heq. apply (f_equal name) in Heq. rewrite name_tmp_of in Heq.
  apply (f_equal String.length) in Heq. rewrite length_append in Heq. simpl in Heq. lia.
Qed.

Lemma append_cons c (s t : string) : String c s +:+ t = String c (s +:+ t).
Proof. done. Qed.

Lemma tmp_suffix_json s : s +:+ ".tmp" ≠ "latest.json".
Proof.
  intros Heq.
  repeat (destruct s as [|? s];
          [by vm_compute in Heq
          |rewrite append_cons in Heq; first [discriminate Heq | injection Heq as _ Heq]]).
Qed.

(** ** Atomic replacement *)

Section Atomic.
Context `{!Library}.

Lemma both_whole_old old self : both_whole old self old.
Proof. split; by left. Qed.

Lemma both_whole_insert old self files p v :
  p ≠ path self → p ≠ latest_path self →
  both_whole old self files → both_whole old self (<[p := v]> files).
Proof.
  intros Hp Hl [H1 H2]. split; unfold whole; rewrite lookup_insert_ne; done.
Qed.

Lemma tmp_path_ne_path self : tmp_of (path self) ≠ path self.
Proof. apply tmp_of_ne. Qed.

Lemma path_ne_latest self : well_placed self → path self ≠ latest_path self.
Proof.
  intros [Hl Hn] Heq. apply Hn.
  assert (name (path self) = "latest.json") as -> by (by rewrite Heq, Hl, name_div).
  apply list_elem_of_here.
Qed.

Lemma tmp_path_ne_latest self : well_placed self → tmp_of (path self) ≠ latest_path self.
Proof.
  intros [Hl _] Heq. apply (f_equal name) in Heq.
  rewrite name_tmp_of, Hl, name_div in Heq. by apply tmp_suffix_json in Heq.
Qed.

Lemma tmp_latest_ne_latest self : tmp_of (latest_path self) ≠ latest_path self.
Proof. apply tmp_of_ne. Qed.

Lemma tmp_latest_ne_path self : well_placed self → tmp_of (latest_path self) ≠ path self.
Proof.
  intros [Hl Hn] Heq. apply Hn. rewrite <- Heq, name_tmp_of, Hl, name_div.
  apply list_elem_of_further, list_elem_of_here.
Qed.

Lemma write_text_keeps (P : gmap Path string → Prop) p content env r env' :
  (∀ files v, P files → P (<[p := v]> files)) →
  P (fs env) →
  write_text p content env = (r, env') →
  ∃ new, observed env env' new ∧ Forall P new ∧ P (fs env')
    ∧ (r = Returned () → fs env' !! p = Some content).
Proof.
  intros Hins HP Hw.
  destruct (write_text_spec _ _ _ _ _ Hw) as (new & Hobs & Hnew & Hfs & Hok & _).
  exists new. split; [done|]. split; [|split].
  - eapply Forall_impl; [exact Hnew|]. intros files [k ->]. by apply Hins.
  - destruct Hfs as [-> | [k ->]]; [done | by apply Hins].
  - intros Hr. rewrite (Hok Hr). apply lookup_insert_eq.
Qed.

Lemma replace_keeps (P : gmap Path string → Prop) src dst env r env' :
  (∀ text, fs env !! src = Some text → P (<[dst := text]> (delete src (fs env)))) →
  P (fs env) →
  replace src dst env = (r, env') →
  ∃ new, observed env env' new ∧ Forall P new ∧ P (fs env')
    ∧ (r = Returned () →
       ∃ text, fs env !! src = Some text ∧ fs env' = <[dst := text]> (delete src (fs env))).
Proof.
  intros Hmove HP Hr.
  destruct (replace_spec _ _ _ _ _ Hr)
    as (_ & _ & [(Hfs & Hobs & e & -> & _) | (text & Hsrc & Hfs & Hobs & ->)]).
  - exists []. rewrite Hfs. split; [done|]. split; [constructor|]. done.
  - exists [fs env']. split; [done|]. rewrite Hfs.
    split; [|split]; eauto using Forall_cons, Forall_nil.
Qed.

(** [_write] shows a reader of the session file and of latest.json
    nothing but whole documents, and leaves both in place when it
    returns. *)
Lemma _write_atomic self env r env' :
  well_placed self →
  _write self env = (r, env') →
  ∃ new, observed env env' new
    ∧ Forall (both_whole (fs env) self) new
    ∧ (r = Returned () → persisted self (fs env')).
Proof.
  intros Hwp. unfold _write, ensure_parent.
  set (K := both_whole (fs env) self).
  pose proof (tmp_path_ne_path self) as D1.
  pose proof (tmp_path_ne_latest self Hwp) as D2.
  pose proof (tmp_latest_ne_latest self) as D3.
  pose proof (tmp_latest_ne_path self Hwp) as D4.
  pose proof (path_ne_latest self Hwp) as D5.
  assert (∀ p files v, p ≠ path self → p ≠ latest_path self →
            K files → K (<[p := v]> files)) as Hins.
  { intros. by apply both_whole_insert. }
  unfold observed.
  (* the directory of the session file *)
  intros [([] & env1 & H1 & Hrest) | (e & H1 & ->)]%IO_bind_inv;
    apply mkdir_spec in H1 as (Hfs1 & Ho1 & _).
  2:{ exists []. by split. }
  assert (K (fs env1)) as HK1 by (rewrite Hfs1; apply both_whole_old).
  (* the temporary file of the session file *)
  apply IO_bind_inv in Hrest as [([] & env2 & H2 & Hrest) | (e & H2 & ->)];
    destruct (write_text_keeps K _ _ _ _ _ (λ f v, Hins _ f v D1 D2) HK1 H2)
      as (new2 & Hobs2 & Hnew2 & HK2 & Hdoc2); unfold observed in Hobs2.
  2:{ exists new2. rewrite Hobs2, Ho1. by split. }
  specialize (Hdoc2 eq_refl).
  assert (∀ text, fs env2 !! tmp_of (path self) = Some text →
            K (<[path self := text]> (delete (tmp_of (path self)) (fs env2)))) as Hmove.
  { intros text Htext. rewrite Hdoc2 in Htext. injection Htext as <-.
    destruct HK2 as [_ HKl]. split; unfold whole.
    - right. apply lookup_insert_eq.
    - rewrite lookup_insert_ne, lookup_delete_ne by done. exact HKl. }
  (* its move over the session file *)
  apply IO_bind_inv in Hrest as [([] & env3 & H3 & Hrest) | (e & H3 & ->)];
    destruct (replace_keeps K _ _ _ _ _ Hmove HK2 H3)
      as (new3 & Hobs3 & Hnew3 & HK3 & Hmoved3); unfold observed in Hobs3.
  2:{ exists (new3 ++ new2). rewrite Hobs3, Hobs2, Ho1, app_assoc.
      split; [done|]. split; [by apply Forall_app|done]. }
  destruct (Hmoved3 eq_refl) as (text & Htext & Hfs3).
  rewrite Hdoc2 in Htext. injection Htext as <-.
  (* the directory of latest.json *)
  apply IO_bind_inv in Hrest as [([] & env4 & H4 & Hrest) | (e & H4 & ->)];
    apply mkdir_spec in H4 as (Hfs4 & Ho4 & _).
  2:{ exists (new3 ++ new2). rewrite Ho4, Hobs3, Hobs2, Ho1, app_assoc.
      split; [done|]. split; [by apply Forall_app|done]. }
  assert (K (fs env4)) as HK4 by (by rewrite Hfs4).
  (* the temporary file of latest.json *)
  apply IO_bind_inv in Hrest as [([] & env5 & H5 & Hrest) | (e & H5 & ->)];
    destruct (write_text_keeps K _ _ _ _ _ (λ f v, Hins _ f v D4 D3) HK4 H5)
      as (new5 & Hobs5 & Hnew5 & HK5 & Hdoc5); unfold observed in Hobs5.
  2:{ exists (new5 ++ new3 ++ new2).
      rewrite Hobs5, Ho4, Hobs3, Hobs2, Ho1, !app_assoc.
      split; [done|]. split; [by rewrite !Forall_app|done]. }
  specialize (Hdoc5 eq_refl).
  assert (fs env5 !! path self = fs env3 !! path self) as Hsame.
  { apply write_text_spec in H5 as (_ & _ & _ & _ & Hok5 & _).
    rewrite (Hok5 eq_refl), lookup_insert_ne, Hfs4 by done. done. }
  assert (∀ text, fs env5 !! tmp_of (latest_path self) = Some text →
            K (<[latest_path self := text]> (delete (tmp_of (latest_path self)) (fs env5))))
    as Hmove'.
  { intros text Htext. rewrite Hdoc5 in Htext. injection Htext as <-.
    destruct HK5 as [HKp _]. split; unfold whole.
    - rewrite lookup_insert_ne, lookup_delete_ne by done. exact HKp.
    - right. apply lookup_insert_eq. }
  (* its move over latest.json *)
  destruct (replace_keeps K _ _ _ _ _ Hmove' HK5 Hrest)
    as (new6 & Hobs6 & Hnew6 & HK6 & Hmoved6); unfold observed in Hobs6.
  exists (new6 ++ new5 ++ new3 ++ new2).
  rewrite Hobs6, Hobs5, Ho4, Hobs3, Hobs2, Ho1, !app_assoc.
  split; [done|]. split; [by rewrite !Forall_app|].
  intros ->. destruct (Hmoved6 eq_refl) as (text & Htext & Hfs6).
  rewrite Hdoc5 in Htext. injection Htext as <-. rewrite Hfs6. split.
  - rewrite lookup_insert_ne, lookup_delete_ne, Hsame, Hfs3 by done.
    apply lookup_insert_eq.
  - apply lookup_insert_eq.
Qed.
End Atomic.

Section AtomicOps.
Context `{!Library}.

Lemma write_after_now self env r env' :
  well_placed self →
  _write self (now env).2 = (r, env') →
  writes_atomically env r self env'.
Proof.
  intros Hwp Hw. apply _write_atomic in Hw as (new & Hobs & Hnew & Hok); [|done].
  by exists new.
Qed.

Lemma nothing_written env self' e : writes_atomically env (Raised e) self' (now env).2.
Proof. exists []. split; [done|]. split; [constructor|done]. Qed.

Lemma complete_step_atomic step status message self env r self' env' :
  well_placed self →
  complete_step step status message self env = (r, self', env') →
  well_placed self' ∧ writes_atomically env r self' env'.
Proof.
  intros Hwp. unfold complete_step.
  destruct (now env) as [finished env1] eqn:Hnow.
  assert (env1 = (now env).2) as -> by by rewrite Hnow.
  destruct (_find_step_entry step (d_steps (data self))) as [i|e].
  - destruct (dict_pop step (_active_starts self)) as [start_time active].
    match goal with |- context [_write ?s ?e] => destruct (_write s e) as [r1 env2] eqn:Hw end.
    intros [= <- <- <-]. split; [done|]. by apply write_after_now in Hw.
  - intros [= <- <- <-]. split; [done|]. apply nothing_written.
Qed.

Lemma apply_op_atomic o self env r self' env' :
  well_placed self →
  apply_op o self env = (r, self', env') →
  well_placed self' ∧ writes_atomically env r self' env'.
Proof.
  intros Hwp. destruct o as [step|step|step status message|step message|status message];
    simpl.
  - unfold plan_step. destruct (now env) as [stamp env1] eqn:Hnow.
    assert (env1 = (now env).2) as -> by by rewrite Hnow.
    match goal with |- context [_write ?s ?e] => destruct (_write s e) as [r1 env2] eqn:Hw end.
    intros [= <- <- <-]. split; [done|]. by apply write_after_now in Hw.
  - unfold start_step. destruct (now env) as [stamp env1] eqn:Hnow.
    assert (env1 = (now env).2) as -> by by rewrite Hnow.
    match goal with |- context [_write ?s ?e] => destruct (_write s e) as [r1 env2] eqn:Hw end.
    intros [= <- <- <-]. split; [done|]. by apply write_after_now in Hw.
  - by apply complete_step_atomic.
  - by apply complete_step_atomic.
  - unfold finish. destruct (now env) as [finished env1] eqn:Hnow.
    assert (env1 = (now env).2) as -> by by rewrite Hnow.
    destruct (fail_pending _ _ _ _) as [[r0 remaining] steps].
    destruct r0 as [[]|e].
    + match goal with |- context [_write ?s ?e] => destruct (_write s e) as [r1 env2] eqn:Hw end.
      intros [= <- <- <-]. split; [done|]. by apply write_after_now in Hw.
    + intros [= <- <- <-]. split; [done|]. apply nothing_written.
Qed.

Lemma ProgressLog_init_eq path session dry_run run_order started_at env :
  ProgressLog_init path session dry_run run_order started_at env
  = let '(started, env) := match started_at with
                           | Some dt => (dt, env)
                           | None => now env
                           end in
    let self := new_log path session dry_run run_order started in
    match _write self env with
    | (Returned _, env') => (Returned self, env')
    | (Raised e, env') => (Raised e, env')
    end.
Proof. done. Qed.

(** C2, amended. For a recorder whose session file is named neither
    latest.json nor latest.json.tmp, building it and each of its
    operations persist the session file and latest.json through a
    temporary file in the same directory that is then moved over the
    destination: when the operation has returned, the session file holds
    the session document and latest.json the summary of the new state.
    Every state of the file system a reader can come across during the
    operation shows, at the session file, what was there before or the
    whole new session document, and at latest.json what was there before
    or the whole new summary. *)
Theorem progress_writes_are_atomic :
  (∀ session_file session dry_run run_order started_at env r env',
     name session_file ∉ reserved_names →
     ProgressLog_init session_file session dry_run run_order started_at env = (r, env') →
     ∃ self new,
       well_placed self ∧ path self = session_file
       ∧ observed env env' new
       ∧ Forall (both_whole (fs env) self) new
       ∧ (∀ built, r = Returned built → built = self ∧ persisted self (fs env')))
  ∧ (∀ o self env r self' env',
       well_placed self →
       apply_op o self env = (r, self', env') →
       well_placed self'
       ∧ ∃ new, observed env env' new
           ∧ Forall (both_whole (fs env) self') new
           ∧ (r = Returned () → persisted self' (fs env')))
  ∧ (∀ dest, parent (tmp_of dest) = parent dest ∧ tmp_of dest ≠ dest).
Proof.
  split; [|split].
  - intros session_file session dry_run run_order started_at env r env' Hname.
    rewrite ProgressLog_init_eq.
    destruct started_at as [dt|]; [|destruct (now env) as [dt env1] eqn:Hnow];
      cbv zeta.
    + set (self := new_log session_file session dry_run run_order dt).
      destruct (_write self env) as [r1 env2] eqn:Hw.
      assert (well_placed self) as Hwp by done.
      apply _write_atomic in Hw as (new & Hobs & Hnew & Hok); [|done].
      destruct r1 as [[]|e]; intros [= <- <-]; exists self, new;
        (do 4 (split; [done|])); intros built Hb; simplify_eq;
        split; [done | by apply Hok].
    + assert (env1 = (now env).2) as -> by by rewrite Hnow.
      set (self := new_log session_file session dry_run run_order dt).
      destruct (_write self (now env).2) as [r1 env2] eqn:Hw.
      assert (well_placed self) as Hwp by done.
      apply _write_atomic in Hw as (new & Hobs & Hnew & Hok); [|done].
      destruct r1 as [[]|e]; intros [= <- <-]; exists self, new;
        (do 4 (split; [done|])); intros built Hb; simplify_eq;
        split; [done | by apply Hok].
  - intros o self env r self' env' Hwp Hop. by apply apply_op_atomic in Hop.
  - intros dest. split; [apply parent_div | apply tmp_of_ne].
Qed.
End AtomicOps.

(** ** The recorder's entries *)

Lemma recorded_running e : e_status e = "running" → recorded e.
Proof. unfold recorded, recorded_statuses. intros ->. set_solver. Qed.

Lemma recorded_failed e : e_status e = "failed" → recorded e.
Proof. unfold recorded, recorded_statuses. intros ->. set_solver. Qed.

Section Entries.
Context `{!Library}.

Lemma find_Returned step steps i :
  _find_step_entry step steps = Returned i →
  ∃ e, steps !! i = Some e ∧ e_step e = step ∧ recorded e.
Proof.
  unfold _find_step_entry.
  destruct (list_find _ (reverse steps)) as [[j e]|] eqn:Hfind; [|done].
  intros [= <-]. apply list_find_Some in Hfind as (Hj & [Hstep Hrec] & _).
  exists e. split; [|done].
  pose proof (lookup_lt_Some _ _ _ Hj) as Hlt. rewrite length_reverse in Hlt.
  rewrite reverse_lookup in Hj by done.
  by replace (length steps - 1 - j) with (length steps - S j) by lia.
Qed.

Lemma find_Raised step steps exc entry :
  _find_step_entry step steps = Raised exc →
  entry ∈ steps → ¬ (e_step entry = step ∧ recorded entry).
Proof.
  unfold _find_step_entry.
  destruct (list_find _ (reverse steps)) as [[j e]|] eqn:Hfind; [done|].
  intros _ Hin. apply list_find_None in Hfind.
  rewrite Forall_forall in Hfind. apply Hfind. by apply elem_of_reverse.
Qed.

Lemma find_last step steps e :
  e_step e = step → recorded e →
  _find_step_entry step (steps ++ [e]) = Returned (length steps).
Proof.
  intros Hstep Hrec. unfold _find_step_entry. rewrite reverse_app. simpl.
  destruct (decide _) as [_|Hn]; [|by destruct Hn].
  simpl. rewrite length_app. simpl. f_equal. lia.
Qed.
End Entries.

(** ** Dictionaries *)

Lemma dict_set_keys {V} k (v : V) d :
  ∀ k', k' ∈ (dict_set k v d).*1 ↔ k' = k ∨ k' ∈ d.*1.
Proof.
  induction d as [|[k0 v0] d IH]; intros k'; simpl.
  - set_solver.
  - destruct (decide (k = k0)) as [->|Hne]; simpl; rewrite ?elem_of_cons, ?IH; naive_solver.
Qed.

Lemma dict_set_NoDup {V} k (v : V) d : NoDup d.*1 → NoDup (dict_set k v d).*1.
Proof.
  induction d as [|[k0 v0] d IH]; simpl.
  - intros _. apply NoDup_singleton.
  - rewrite NoDup_cons. intros [Hnot Hd].
    destruct (decide (k = k0)) as [->|Hne]; simpl; rewrite NoDup_cons.
    + done.
    + split; [|by apply IH]. rewrite dict_set_keys. naive_solver.
Qed.

Lemma dict_pop_keys {V} k (d : list (string * V)) :
  NoDup d.*1 → ∀ k', k' ∈ (dict_pop k d).2.*1 ↔ k' ≠ k ∧ k' ∈ d.*1.
Proof.
  induction d as [|[k0 v0] d IH]; simpl.
  - set_solver.
  - rewrite NoDup_cons. intros [Hnot Hd] k'.
    destruct (decide (k = k0)) as [->|Hne]; simpl.
    + rewrite elem_of_cons. split; [|naive_solver].
      intros Hin. split; [|by right]. by intros ->.
    + specialize (IH Hd k'). destruct (dict_pop k d) as [found rest]. simpl in *.
      rewrite !elem_of_cons, IH. naive_solver.
Qed.

Lemma dict_pop_NoDup {V} k (d : list (string * V)) : NoDup d.*1 → NoDup (dict_pop k d).2.*1.
Proof.
  induction d as [|[k0 v0] d IH]; simpl; [done|].
  rewrite NoDup_cons. intros [Hnot Hd].
  destruct (decide (k = k0)) as [->|Hne]; simpl; [done|].
  pose proof (dict_pop_keys k d Hd k0) as Hk. specialize (IH Hd).
  destruct (dict_pop k d) as [found rest]. simpl in *.
  rewrite NoDup_cons. split; [|done]. rewrite Hk. naive_solver.
Qed.

(** ** The recorder under sequences of operations *)

Lemma sound_nil : sound [] [] [].
Proof. split; try set_solver. constructor. Qed.

Lemma sound_planned started steps active step stamp :
  sound started steps active →
  sound started (steps ++ [mkEntry step "planned" stamp None None None None]) active.
Proof.
  intros [Hs Hu Hr Hp Hk].
  assert (¬ recorded (mkEntry step "planned" stamp None None None None)) as Hnew.
  { unfold recorded, recorded_statuses. simpl. set_solver. }
  split; [| | | |done].
  - intros e [Hin | ->%list_elem_of_singleton]%elem_of_app; [by apply Hs | done].
  - intros i j ei ej Hi Hj Hri Hrj Heq.
    apply lookup_app_Some in Hi as [Hi | [_ Hi]]; cycle 1.
    { apply list_lookup_singleton_Some in Hi as [_ <-]. done. }
    apply lookup_app_Some in Hj as [Hj | [_ Hj]]; cycle 1.
    { apply list_lookup_singleton_Some in Hj as [_ <-]. done. }
    by eapply Hu.
  - intros e [Hin | ->%list_elem_of_singleton]%elem_of_app; [by apply Hr | done].
  - intros k Hkin. destruct (Hp k Hkin) as (e & Hin & He). exists e.
    split; [|done]. apply elem_of_app. by left.
Qed.

Lemma sound_start started steps active step t stamp :
  step ∉ started →
  sound started steps active →
  sound (started ++ [step])
        (steps ++ [mkEntry step "running" None stamp None None None])
        (dict_set step t active).
Proof.
  intros Hfresh [Hs Hu Hr Hp Hk].
  set (new := mkEntry step "running" None stamp None None None).
  split.
  - intros e [Hin | ->%list_elem_of_singleton]%elem_of_app Hrec; apply elem_of_app.
    + left. by apply Hs.
    + right. simpl. set_solver.
  - intros i j ei ej Hi Hj Hri Hrj Heq.
    apply lookup_app_Some in Hi as [Hi | [Hli Hi]];
      apply lookup_app_Some in Hj as [Hj | [Hlj Hj]].
    + by eapply Hu.
    + apply list_lookup_singleton_Some in Hj as [_ <-]. destruct Hfresh.
      simpl in Heq. rewrite <- Heq. apply Hs; [|done]. by eapply list_elem_of_lookup_2.
    + apply list_lookup_singleton_Some in Hi as [_ <-]. destruct Hfresh.
      simpl in Heq. rewrite Heq. apply Hs; [|done]. by eapply list_elem_of_lookup_2.
    + apply list_lookup_singleton_Some in Hi as [Hi _].
      apply list_lookup_singleton_Some in Hj as [Hj _]. lia.
  - intros e [Hin | ->%list_elem_of_singleton]%elem_of_app Hrun; apply dict_set_keys.
    + right. by apply Hr.
    + by left.
  - intros k [-> | Hkin]%dict_set_keys.
    + exists new. split; [|split; [done|by apply recorded_running]].
      apply elem_of_app. right. by apply list_elem_of_singleton.
    + destruct (Hp k Hkin) as (e & Hin & He). exists e.
      split; [|done]. apply elem_of_app. by left.
  - by apply dict_set_NoDup.
Qed.

Lemma sound_close started steps active step i ei (f : StepEntry → StepEntry) :
  (∀ e, e_step (f e) = e_step e) →
  (∀ e, e_status (f e) ≠ "running") →
  sound started steps active →
  steps !! i = Some ei → e_step ei = step → recorded ei →
  sound started (alter f i steps) (dict_pop step active).2.
Proof.
  intros Hstep Hstatus [Hs Hu Hr Hp Hk] Hi Hei Hrec.
  assert (∀ j e', alter f i steps !! j = Some e' →
            ∃ e, steps !! j = Some e ∧ e_step e' = e_step e
                 ∧ ((j = i ∧ e = ei ∧ e' = f ei) ∨ (j ≠ i ∧ e' = e))) as Hback.
  { intros j e' Hj. destruct (decide (j = i)) as [->|Hne].
    - rewrite list_lookup_alter_eq, Hi in Hj. simpl in Hj. injection Hj as <-.
      exists ei. rewrite Hstep. eauto 10.
    - rewrite list_lookup_alter_ne in Hj by done. exists e'. eauto 10. }
  split.
  - intros e' (j & Hj)%list_elem_of_lookup_1 Hrec'.
    destruct (Hback j e' Hj) as (e & He & -> & [(-> & -> & ->) | (Hne & ->)]).
    + apply Hs; [|done]. by eapply list_elem_of_lookup_2.
    + apply Hs; [|done]. by eapply list_elem_of_lookup_2.
  - intros j1 j2 e1 e2 H1 H2 Hr1 Hr2 Heq.
    destruct (Hback j1 e1 H1) as (e1' & He1 & Hs1 & [(-> & -> & ->) | (Hne1 & ->)]);
      destruct (Hback j2 e2 H2) as (e2' & He2 & Hs2 & [(-> & -> & ->) | (Hne2 & ->)]).
    + done.
    + eapply Hu; eauto. congruence.
    + eapply Hu; eauto. congruence.
    + by eapply Hu.
  - intros e' (j & Hj)%list_elem_of_lookup_1 Hrun.
    destruct (Hback j e' Hj) as (e & He & Hse & [(-> & -> & ->) | (Hne & ->)]).
    + by apply Hstatus in Hrun.
    + apply dict_pop_keys; [done|]. split.
      * intros Hsame. apply Hne. eapply Hu; eauto using recorded_running. congruence.
      * apply Hr; [|done]. by eapply list_elem_of_lookup_2.
  - intros k [Hne Hkin]%dict_pop_keys; [|done].
    destruct (Hp k Hkin) as (e & (j & Hj)%list_elem_of_lookup_1 & Hek & Hrk).
    exists e. split; [|done].
    apply list_elem_of_lookup. exists j. rewrite list_lookup_alter_ne; [done|].
    intros ->. congruence.
  - by apply dict_pop_NoDup.
Qed.

Section Sequences.
Context `{!Library}.

Lemma fail_pending_spec finished message pending steps :
  (∀ i j ei ej, steps !! i = Some ei → steps !! j = Some ej →
     recorded ei → recorded ej → e_step ei = e_step ej → i = j) →
  (∀ k, k ∈ pending.*1 → ∃ e, e ∈ steps ∧ e_step e = k ∧ recorded e) →
  ∃ steps',
    fail_pending finished message pending steps = (Returned (), [], steps')
    ∧ Forall2 (failed_where (_fmt finished) pending.*1) steps steps'.
Proof.
  revert steps. induction pending as [|[k t] rest IH]; intros steps Hu Hp.
  - exists steps. split; [done|]. apply Forall2_same_length_lookup. split; [done|].
    intros i e e' He He'. assert (e' = e) as -> by congruence.
    split; [done|]. right. split; [done|]. set_solver.
  - simpl. destruct (_find_step_entry k steps) as [i|exc] eqn:Hfind; cycle 1.
    { destruct (Hp k) as (e & Hin & He); [set_solver|].
      by destruct (find_Raised _ _ _ _ Hfind Hin). }
    destruct (find_Returned _ _ _ Hfind) as (ei & Hi & Hki & Hri).
    set (f := fail_entry finished t message).
    assert (∀ j e1, alter f i steps !! j = Some e1 →
              ∃ e, steps !! j = Some e ∧ e_step e1 = e_step e
                   ∧ (recorded e1 → recorded e)
                   ∧ ((j = i ∧ e = ei ∧ e1 = f ei) ∨ (j ≠ i ∧ e1 = e))) as Hback.
    { intros j e1 Hj. destruct (decide (j = i)) as [->|Hne].
      - rewrite list_lookup_alter_eq, Hi in Hj. simpl in Hj. injection Hj as <-.
        exists ei. eauto 10.
      - rewrite list_lookup_alter_ne in Hj by done. exists e1. eauto 10. }
    destruct (IH (alter f i steps)) as (steps' & Hrun & Hrel).
    { intros j1 j2 e1 e2 H1 H2 Hr1 Hr2 Heq.
      destruct (Hback j1 e1 H1) as (e1' & He1 & Hs1 & Hrec1 & _).
      destruct (Hback j2 e2 H2) as (e2' & He2 & Hs2 & Hrec2 & _).
      eapply Hu; eauto. congruence. }
    { intros k' Hk'. destruct (Hp k') as (e & (j & Hj)%list_elem_of_lookup_1 & Hek & Hrk);
        [set_solver|].
      destruct (decide (j = i)) as [->|Hne].
      - exists (f ei). assert (e = ei) as -> by congruence.
        split; [|split; [done | by apply recorded_failed]].
        apply list_elem_of_lookup. exists i. by rewrite list_lookup_alter_eq, Hi.
      - exists e. split; [|done]. apply list_elem_of_lookup. exists j.
        by rewrite list_lookup_alter_ne. }
    exists steps'. split; [done|].
    apply Forall2_same_length_lookup in Hrel as [Hlen Hrel].
    apply Forall2_same_length_lookup. rewrite length_alter in Hlen. split; [done|].
    intros j e e' He He'.
    destruct (decide (j = i)) as [->|Hne].
    + assert (e = ei) as -> by congruence.
      assert (alter f i steps !! i = Some (f ei)) as Hfi
        by by rewrite list_lookup_alter_eq, Hi.
      destruct (Hrel i _ _ Hfi He') as [Hstep Hcases]. split; [done|]. left.
      split; [done|]. split; [set_solver|].
      destruct Hcases as [(_ & _ & ? & ?) | [-> _]]; done.
    + assert (alter f i steps !! j = Some e) as Hfj by by rewrite list_lookup_alter_ne.
      destruct (Hrel j _ _ Hfj He') as [Hstep Hcases]. split; [done|].
      destruct Hcases as [(? & ? & ? & ?) | [-> Hnot]].
      * left. set_solver.
      * right. split; [done|]. intros [Hre [Hk|Hin]%elem_of_cons].
        -- apply Hne. eapply Hu; eauto. simpl in Hk. congruence.
        -- by apply Hnot.
Qed.

Lemma finish_spec started status message self env r self' env' :
  sound started (d_steps (data self)) (_active_starts self) →
  finish status message self env = (r, self', env') →
  sound started (d_steps (data self')) (_active_starts self')
  ∧ Forall2 (failed_where (_fmt (clock env (ticks env))) (_active_starts self).*1)
            (d_steps (data self)) (d_steps (data self'))
  ∧ Forall (λ e, e_status e ≠ "running") (d_steps (data self'))
  ∧ d_status (data self') = status
  ∧ d_finished_at (data self') = Some (_fmt (clock env (ticks env)))
  ∧ (r, env') = _write self' (now env).2.
Proof.
  intros [Hs Hu Hr Hp Hk]. unfold finish. simpl.
  destruct (fail_pending_spec (clock env (ticks env)) message
              (reverse (_active_starts self)) (d_steps (data self)))
    as (steps' & -> & Hrel); [done| |].
  { intros k Hkin. apply Hp. by rewrite fmap_reverse, elem_of_reverse in Hkin. }
  assert (Forall2 (failed_where (_fmt (clock env (ticks env))) (_active_starts self).*1)
                  (d_steps (data self)) steps') as Hrel'.
  { eapply Forall2_impl; [exact Hrel|]. intros e e' [Hstep Hcases]. split; [done|].
    rewrite fmap_reverse in Hcases. setoid_rewrite elem_of_reverse in Hcases. done. }
  clear Hrel. apply Forall2_same_length_lookup in Hrel' as Hlook. destruct Hlook as [Hlen Hlook].
  assert (∀ j e', steps' !! j = Some e' →
            ∃ e, d_steps (data self) !! j = Some e
                 ∧ failed_where (_fmt (clock env (ticks env))) (_active_starts self).*1 e e')
    as Hback.
  { intros j e' Hj. destruct (lookup_lt_is_Some_2 (d_steps (data self)) j) as [e He].
    - rewrite Hlen. by eapply lookup_lt_Some.
    - exists e. eauto. }
  assert (Forall (λ e, e_status e ≠ "running") steps') as Hnone.
  { apply Forall_forall. intros e' (j & Hj)%list_elem_of_lookup_1 Hrun.
    destruct (Hback j e' Hj) as (e & He & _ & [(_ & _ & Hf & _) | [-> Hnot]]).
    - congruence.
    - apply Hnot. split; [by apply recorded_running|].
      apply Hr; [|done]. by eapply list_elem_of_lookup_2. }
  match goal with |- context [_write ?s ?e] => destruct (_write s e) as [r1 env2] eqn:Hw end.
  intros [= <- <- <-]. simpl. split; [|done].
  split; simpl; [| | |set_solver|constructor].
  - intros e' (j & Hj)%list_elem_of_lookup_1 Hrec.
    destruct (Hback j e' Hj) as (e & He & Hstep & [(Hre & _) | [-> _]]).
    + rewrite Hstep. apply Hs; [|done]. by eapply list_elem_of_lookup_2.
    + apply Hs; [|done]. by eapply list_elem_of_lookup_2.
  - intros j1 j2 e1 e2 H1 H2 Hr1 Hr2 Heq.
    destruct (Hback j1 e1 H1) as (e1' & He1 & Hs1 & Hc1).
    destruct (Hback j2 e2 H2) as (e2' & He2 & Hs2 & Hc2).
    eapply Hu; eauto; [| |congruence].
    + by destruct Hc1 as [(? & _) | [-> _]].
    + by destruct Hc2 as [(? & _) | [-> _]].
  - intros e' Hin Hrun. rewrite Forall_forall in Hnone. by destruct (Hnone e' Hin).
Qed.

Lemma complete_step_sound started step status message self env r self' env' :
  status ≠ "running" →
  sound started (d_steps (data self)) (_active_starts self) →
  complete_step step status message self env = (r, self', env') →
  sound started (d_steps (data self')) (_active_starts self').
Proof.
  intros Hstatus Hsound. unfold complete_step. simpl.
  destruct (_find_step_entry step (d_steps (data self))) as [i|exc] eqn:Hfind; cycle 1.
  { by intros [= <- <- <-]. }
  destruct (find_Returned _ _ _ Hfind) as (ei & Hi & Hki & Hri).
  destruct (dict_pop step (_active_starts self)) as [start_time active] eqn:Hpop.
  match goal with |- context [_write ?s ?e] => destruct (_write s e) as [r1 env2] eqn:Hw end.
  intros [= <- <- <-]. simpl.
  replace active with (dict_pop step (_active_starts self)).2 by by rewrite Hpop.
  by eapply sound_close.
Qed.

Lemma apply_op_sound started o self env r self' env' :
  NoDup (started ++ started_steps [o]) →
  closes_properly o →
  sound started (d_steps (data self)) (_active_starts self) →
  apply_op o self env = (r, self', env') →
  sound (started ++ started_steps [o]) (d_steps (data self')) (_active_starts self').
Proof.
  intros Hnd Hclose Hsound.
  destruct o as [step|step|step status message|step message|status message];
    simpl in *; rewrite ?app_nil_r.
  - unfold plan_step. simpl.
    match goal with |- context [_write ?s ?e] => destruct (_write s e) as [r1 env2] eqn:Hw end.
    intros [= <- <- <-]. simpl. by apply sound_planned.
  - unfold start_step. simpl.
    match goal with |- context [_write ?s ?e] => destruct (_write s e) as [r1 env2] eqn:Hw end.
    intros [= <- <- <-]. simpl. apply sound_start; [|done].
    apply NoDup_app in Hnd as (_ & Hnot & _). intros Hin. apply (Hnot _ Hin). set_solver.
  - by apply complete_step_sound.
  - by apply complete_step_sound.
  - intros Hfin. by apply finish_spec with (started := started) in Hfin as [? _].
Qed.

Lemma apply_ops_sound ops : ∀ started self env self' env',
  NoDup (started ++ started_steps ops) →
  Forall closes_properly ops →
  sound started (d_steps (data self)) (_active_starts self) →
  apply_ops ops self env = (self', env') →
  sound (started ++ started_steps ops) (d_steps (data self')) (_active_starts self').
Proof.
  induction ops as [|o ops IH]; intros started self env self' env' Hnd Hclose Hsound.
  - simpl. intros [= <- <-]. by rewrite app_nil_r.
  - assert (started_steps (o :: ops) = started_steps [o] ++ started_steps ops) as Hsplit.
    { unfold started_steps. simpl. destruct o; done. }
    rewrite Hsplit, app_assoc in Hnd |- *.
    cbn [apply_ops].
    destruct (apply_op o self env) as [[r self1] env1] eqn:Hop. intros Hrest.
    apply Forall_cons in Hclose as [Ho Hclose].
    eapply IH; [done|done| |done].
    eapply apply_op_sound; [|done|done|done].
    by apply NoDup_app in Hnd as (? & _).
Qed.

(** C6, amended. Take a recorder just built and any calls of its methods,
    whatever they return or raise, in which each step is started at most
    once and [complete_step] is never told to leave a step running. A
    call of [finish] then leaves no entry running: each entry that was
    running is failed with the time of [finish] as its finish time, and
    the status and finish time of the session are in the object that
    [finish] hands to its one write. *)
Theorem finish_leaves_nothing_running
    path session dry_run run_order started_at env0 self0 env ops
    self1 env1 status message r self2 env2 :
  ProgressLog_init path session dry_run run_order started_at env0 = (Returned self0, env) →
  NoDup (started_steps ops) →
  Forall closes_properly ops →
  apply_ops ops self0 env = (self1, env1) →
  finish status message self1 env1 = (r, self2, env2) →
  let finished := _fmt (clock env1 (ticks env1)) in
  Forall (λ e, e_status e ≠ "running") (d_steps (data self2))
  ∧ (∀ i e, d_steps (data self1) !! i = Some e → e_status e = "running" →
       ∃ e', d_steps (data self2) !! i = Some e' ∧ e_step e' = e_step e
             ∧ e_status e' = "failed" ∧ e_finished_at e' = Some finished)
  ∧ d_status (data self2) = status
  ∧ d_finished_at (data self2) = Some finished
  ∧ (r, env2) = _write self2 (now env1).2.
Proof.
  intros Hinit Hnd Hclose Hops Hfin finished.
  assert (sound [] (d_steps (data self0)) (_active_starts self0)) as Hsound0.
  { rewrite ProgressLog_init_eq in Hinit.
    destruct started_at as [dt|]; [|destruct (now env0) as [dt env0']];
      cbv zeta in Hinit;
      match type of Hinit with context [_write ?s ?e] =>
        destruct (_write s e) as [[[]|exc] env'] end;
      simplify_eq; apply sound_nil. }
  pose proof (apply_ops_sound ops [] _ _ _ _ Hnd Hclose Hsound0 Hops) as Hsound1.
  destruct (finish_spec _ _ _ _ _ _ _ _ Hsound1 Hfin)
    as (Hsound2 & Hrel & Hnone & Hstatus & Hfinished & Hwrite).
  split; [done|]. split; [|done].
  intros i e He Hrun.
  destruct (Forall2_lookup_l _ _ _ _ _ Hrel He) as (e' & He' & Hstep & Hcases).
  exists e'. split; [done|]. split; [done|].
  destruct Hcases as [(_ & _ & ? & ?) | [-> Hnot]]; [done|].
  destruct Hnot. split; [by apply recorded_running|].
  apply (sound_running _ _ _ Hsound1); [|done]. by eapply list_elem_of_lookup_2.
Qed.
End Sequences.

(** ** When no file operation fails *)

Lemma calm_now env : calm env → calm (now env).2.
Proof. done. Qed.

Lemma IO_bind_ok {A B} (m : IO A) (f : A → IO B) env a env1 :
  m env = (Returned a, env1) → (m ≫= f) env = f a env1.
Proof. unfold mbind, IO_bind. by intros ->. Qed.

Lemma mkdir_calm p env :
  calm env → ∃ env', mkdir p env = (Returned (), env') ∧ calm env' ∧ fs env' = fs env.
Proof.
  intros Hcalm. unfold mkdir, next_io. rewrite Hcalm. eexists. split; [done|]. done.
Qed.

Lemma write_text_calm p content env :
  calm env →
  ∃ env', write_text p content env = (Returned (), env') ∧ calm env'
          ∧ fs env' !! p = Some content.
Proof.
  intros Hcalm. unfold write_text, next_io. rewrite Hcalm. eexists. split; [done|].
  split; [done|]. rewrite fs_set_fs, last_writing_states, substring_all.
  apply lookup_insert_eq.
Qed.

Lemma replace_calm src dst env text :
  calm env → fs env !! src = Some text →
  ∃ env', replace src dst env = (Returned (), env') ∧ calm env'.
Proof.
  intros Hcalm Hsrc. unfold replace, next_io. rewrite Hcalm. simpl. rewrite Hsrc.
  eexists. split; [done|]. done.
Qed.

Section Calm.
Context `{!Library}.

Lemma _write_calm self env :
  calm env → ∃ env', _write self env = (Returned (), env') ∧ calm env'.
Proof.
  intros Hcalm. unfold _write, ensure_parent.
  destruct (mkdir_calm (parent (path self)) env Hcalm) as (env1 & H1 & Hc1 & _).
  rewrite (IO_bind_ok _ _ _ _ _ H1).
  destruct (write_text_calm (tmp_of (path self)) (json_dumps_session (data self)) env1 Hc1)
    as (env2 & H2 & Hc2 & Hf2).
  rewrite (IO_bind_ok _ _ _ _ _ H2).
  destruct (replace_calm _ (path self) env2 _ Hc2 Hf2) as (env3 & H3 & Hc3).
  rewrite (IO_bind_ok _ _ _ _ _ H3).
  destruct (mkdir_calm (parent (latest_path self)) env3 Hc3) as (env4 & H4 & Hc4 & _).
  rewrite (IO_bind_ok _ _ _ _ _ H4).
  destruct (write_text_calm (tmp_of (latest_path self))
              (json_dumps_latest (latest_payload self)) env4 Hc4)
    as (env5 & H5 & Hc5 & Hf5).
  rewrite (IO_bind_ok _ _ _ _ _ H5).
  destruct (replace_calm _ (latest_path self) env5 _ Hc5 Hf5) as (env6 & H6 & Hc6).
  eauto.
Qed.

Lemma ProgressLog_init_calm path session dry_run run_order started env :
  calm env →
  ∃ env', ProgressLog_init path session dry_run run_order (Some started) env
          = (Returned (new_log path session dry_run run_order started), env')
          ∧ calm env'.
Proof.
  intros Hcalm. rewrite ProgressLog_init_eq. cbv zeta.
  destruct (_write_calm (new_log path session dry_run run_order started) env Hcalm)
    as (env' & -> & Hc). eauto.
Qed.

Lemma plan_step_calm step self env :
  calm env →
  ∃ env' stamp,
    plan_step step self env
    = (Returned (),
       append_entry self (mkEntry step "planned" (Some stamp) None None None None), env')
    ∧ calm env'.
Proof.
  intros Hcalm. unfold plan_step. simpl.
  match goal with |- context [_write ?s ?e] =>
    destruct (_write_calm s e) as (env' & -> & Hc); [done|] end.
  eauto.
Qed.

Lemma finish_idle status message self env r self' env' :
  _active_starts self = [] →
  finish status message self env = (r, self', env') →
  d_steps (data self') = d_steps (data self)
  ∧ d_status (data self') = status
  ∧ d_run_order (data self') = d_run_order (data self)
  ∧ _active_starts self' = []
  ∧ (calm env → r = Returned () ∧ calm env').
Proof.
  intros Hidle. unfold finish. rewrite Hidle. simpl.
  match goal with |- context [_write ?s ?e] => destruct (_write s e) as [r1 env2] eqn:Hw end.
  intros [= <- <- <-]. simpl. do 4 (split; [done|]).
  intros Hcalm.
  match type of Hw with _write ?s ?e = _ =>
    destruct (_write_calm s e) as (env3 & Hw' & Hc); [done|] end.
  rewrite Hw in Hw'. by injection Hw' as -> ->.
Qed.

(** [complete_step] on the step started last and still pending alone. *)
Lemma complete_step_last step status message self env r self' env' steps0 entry t :
  _active_starts self = [(step, t)] →
  d_steps (data self) = steps0 ++ [entry] →
  e_step entry = step → recorded entry →
  complete_step step status message self env = (r, self', env') →
  d_steps (data self')
  = steps0 ++ [close_entry status (clock env (ticks env)) (Some t) message entry]
  ∧ _active_starts self' = []
  ∧ d_run_order (data self') = d_run_order (data self).
Proof.
  intros Hactive Hsteps Hstep Hrec. unfold complete_step. simpl.
  rewrite Hsteps, (find_last _ _ _ Hstep Hrec), Hactive. simpl.
  destruct (decide (step = step)) as [_|]; [|done].
  match goal with |- context [_write ?s ?e] => destruct (_write s e) as [r1 env2] eqn:Hw end.
  intros [= <- <- <-]. simpl. split; [|done].
  rewrite alter_app_r_alt by done. by rewrite Nat.sub_diag.
Qed.

Lemma start_step_idle step self env r self' env' :
  _active_starts self = [] →
  start_step step self env = (r, self', env') →
  ∃ t entry,
    d_steps (data self') = d_steps (data self) ++ [entry]
    ∧ e_step entry = step ∧ e_status entry = "running" ∧ e_message entry = None
    ∧ _active_starts self' = [(step, t)]
    ∧ d_run_order (data self') = d_run_order (data self).
Proof.
  intros Hidle. unfold start_step. rewrite Hidle. simpl.
  match goal with |- context [_write ?s ?e] => destruct (_write s e) as [r1 env2] eqn:Hw end.
  intros [= <- <- <-]. simpl. eauto 10.
Qed.
End Calm.

(** ** The runner *)

Lemma Run_bind_inv {A B} (m : Run A) (f : A → Run B) st r st' :
  (m ≫= f) st = (r, st') →
  (∃ a st1, m st = (Returned a, st1) ∧ f a st1 = (r, st'))
  ∨ (∃ e, m st = (Raised e, st') ∧ r = Raised e).
Proof.
  unfold mbind, Run_bind. destruct (m st) as [[a|e] st1]; intros Heq.
  - left. eauto.
  - right. injection Heq as <- <-. eauto.
Qed.

Lemma Run_bind_ok {A B} (m : Run A) (f : A → Run B) st a st1 :
  m st = (Returned a, st1) → (m ≫= f) st = f a st1.
Proof. unfold mbind, Run_bind. by intros ->. Qed.

Lemma lift_inv {A} (m : IO A) st r st' :
  lift m st = (r, st') → ∃ env', m (world st) = (r, env') ∧ st' = set_world st env'.
Proof.
  unfold lift. destruct (m (world st)) as [r1 env1]. intros [= <- <-]. eauto.
Qed.

Lemma foldl_keeps {A B C} (g : A → B) (f : A → C → A) (l : list C) (a : A) :
  (∀ a c, g (f a c) = g a) → g (foldl f a l) = g a.
Proof.
  intros Hf. revert a. induction l as [|c l IH]; intros a; [done|].
  simpl. by rewrite IH.
Qed.

Lemma STEP_ORDER_NoDup : NoDup STEP_ORDER.
Proof. apply (bool_decide_unpack _). by vm_compute. Qed.

Lemma resolve_NoDup config selected_steps run_order :
  resolve config selected_steps = Order run_order → NoDup run_order.
Proof.
  destruct selected_steps as [tokens|].
  - rewrite resolve_selection. destruct (unresolved tokens); [|done].
    pose proof (first_occurrences_NoDup (resolved_selection tokens)) as Hnd.
    destruct (first_occurrences (resolved_selection tokens)); [done|].
    by intros [= <-].
  - unfold resolve. destruct (configured_steps config) as [order|e] eqn:Hcfg; [|done].
    intros [= <-]. eapply sublist_NoDup; [apply STEP_ORDER_NoDup|].
    by apply (configured_steps_Returned config).
Qed.

Lemma completed_as_steps pre records :
  Forall2 completed_as pre records → e_step <$> records = pre.
Proof.
  induction 1 as [|step e pre records [Hstep _] _ IH]; [done|].
  by rewrite fmap_cons, Hstep, IH.
Qed.

Section Runner.
Context `{!Library} `{!StepHandlers}.

Lemma faults_log_record files level msg env :
  faults (log_record files level msg env) = faults env.
Proof. unfold log_record. simpl. by rewrite (foldl_keeps faults). Qed.

Lemma io_calls_log_record files level msg env :
  io_calls (log_record files level msg env) = io_calls env.
Proof. unfold log_record. simpl. by rewrite (foldl_keeps io_calls). Qed.

Lemma calm_log_record files level msg env :
  calm env → calm (log_record files level msg env).
Proof. unfold calm. by rewrite faults_log_record. Qed.

(** How the loop over the steps of a live run ends: a handler raised, or
    it did not and every handler called returned. *)
Lemma run_steps_trace config run_order : ∀ st r st' self done,
  progress st = Some self →
  _active_starts self = [] →
  Forall2 completed_as done (d_steps (data self)) →
  run_steps config run_order st = (r, st') →
  (∃ pre step post exc self' steps0 entry t,
     run_order = pre ++ step :: post
     ∧ r = Raised exc
     ∧ invoked st' = invoked st ++ ok_calls pre ++ [(step, Raised exc)]
     ∧ current_step st' = Some step
     ∧ progress st' = Some self'
     ∧ d_steps (data self') = steps0 ++ [entry]
     ∧ Forall2 completed_as (done ++ pre) steps0
     ∧ e_step entry = step ∧ e_status entry = "running" ∧ e_message entry = None
     ∧ _active_starts self' = [(step, t)]
     ∧ d_run_order (data self') = d_run_order (data self))
  ∨ (∃ pre, pre `prefix_of` run_order ∧ invoked st' = invoked st ++ ok_calls pre).
Proof.
  induction run_order as [|step rest IH]; intros st r st' self done Hprog Hidle Hdone.
  { intros [= <- <-]. right. exists []. by rewrite app_nil_r. }
  cbn [run_steps].
  (* current_step = step *)
  intros [([] & st1 & H1 & Hrun) | (e & H1 & _)]%Run_bind_inv; [|done].
  injection H1 as <-.
  (* progress.start_step(step) *)
  apply Run_bind_inv in Hrun as [([] & st2 & H2 & Hrun) | (e & H2 & ->)];
    unfold method in H2; cbn [progress world] in H2; rewrite Hprog in H2;
    destruct (start_step step self (world st)) as [[r1 self1] env1] eqn:Hstart;
    injection H2 as -> <-;
    destruct (start_step_idle _ _ _ _ _ _ Hidle Hstart)
      as (t & entry & Hsteps1 & Hes & Hst & Hmsg & Hact1 & Hord1).
  2:{ right. exists []. split; [apply prefix_nil | by rewrite app_nil_r]. }
  (* handler(self.config) *)
  apply Run_bind_inv in Hrun as [([] & st3 & H3 & Hrun) | (e & H3 & ->)];
    unfold invoke in H3; destruct (STEP_FUNCTIONS !! step) as [h|]; cbn [world] in H3;
    try discriminate H3;
    try destruct (call h config env1) as [r2 env2] eqn:Hcall;
    injection H3 as ? <-; subst.
  2:{ left. exists [], (e_step entry), rest, e, self1, (d_steps (data self)), entry, t.
      rewrite app_nil_r. simpl. done. }
  2:{ right. exists []. split; [apply prefix_nil | by rewrite app_nil_r]. }
  (* progress.complete_step(step) *)
  assert (recorded entry) as Hrec by by apply recorded_running.
  apply Run_bind_inv in Hrun as [([] & st4 & H4 & Hrun) | (e & H4 & ->)];
    unfold method in H4; cbn [progress world] in H4;
    destruct (complete_step (e_step entry) "completed" None self1 env2)
      as [[r3 self3] env3] eqn:Hcomplete;
    injection H4 as -> <-;
    destruct (complete_step_last _ _ _ _ _ _ _ _ _ _ _ Hact1 Hsteps1 eq_refl Hrec Hcomplete)
      as (Hsteps3 & Hact3 & Hord3).
  2:{ right. exists [e_step entry]. split; [|done]. by apply prefix_cons, prefix_nil. }
  (* the remaining steps *)
  eapply (IH _ _ _ self3 (done ++ [e_step entry])) in Hrun; [|done|done|].
  2:{ rewrite Hsteps3. apply Forall2_app; [done|]. by repeat constructor. }
  cbn [invoked] in Hrun.
  destruct Hrun as [(pre & s & post & exc & self' & steps0 & entry' & t' & -> & -> & Hinv
                     & Hcur & Hprog' & Hsteps' & Hdone' & Hes' & Hst' & Hmsg' & Hact' & Hord')
                   | (pre & Hpre & Hinv)].
  - left. exists (e_step entry :: pre), s, post, exc, self', steps0, entry', t'.
    rewrite Hinv, <- !app_assoc in *. simpl. rewrite Hord', Hord3, Hord1. done.
  - right. exists (e_step entry :: pre). split; [by apply prefix_cons|].
    by rewrite Hinv, <- app_assoc.
Qed.

(** [run_body] fails before any step, with no handler called, or opens a
    session with no entry and goes on; it goes on when no file operation
    fails. *)
Lemma run_body_split config run_order dry_run env r st' :
  run_body config run_order dry_run (initial env) = (r, st') →
  (∃ e, r = Raised e ∧ invoked st' = [] ∧ current_step st' = None ∧ ¬ calm env)
  ∨ (∃ st1 self,
       progress st1 = Some self
       ∧ d_steps (data self) = [] ∧ _active_starts self = []
       ∧ d_run_order (data self) = run_order
       ∧ invoked st1 = [] ∧ current_step st1 = None
       ∧ (calm env → calm (world st1))
       ∧ run_tail config run_order dry_run st1 = (r, st')).
Proof.
  unfold run_body.
  (* log_dir.mkdir *)
  intros [([] & st1 & H1 & Hrun) | (e & H1 & ->)]%Run_bind_inv;
    apply lift_inv in H1 as (env1 & H1 & ->).
  2:{ left. exists e. do 3 (split; [done|]). intros Hcalm.
      destruct (mkdir_calm (root config // "outputs" // "run_history") env Hcalm)
        as (? & Hok & _).
      cbn [world initial] in H1. congruence. }
  assert (calm env → calm env1) as Hc1.
  { intros Hcalm. destruct (mkdir_calm (root config // "outputs" // "run_history") env Hcalm)
      as (? & Hok & ? & _). cbn [world initial] in H1. congruence. }
  (* datetime.now() *)
  apply Run_bind_inv in Hrun as [(start_time & st2 & H2 & Hrun) | (e & H2 & _)];
    apply lift_inv in H2 as (env2 & H2 & ->); [|done].
  cbn [world set_world] in H2. injection H2 as <- <-.
  (* ProgressLog(...) *)
  apply Run_bind_inv in Hrun as [(self & st3 & H3 & Hrun) | (e & H3 & ->)];
    apply lift_inv in H3 as (env3 & H3 & ->); cbn [world set_world] in H3.
  2:{ left. exists e. do 3 (split; [done|]). intros Hcalm.
      match type of H3 with ProgressLog_init ?p ?s ?d ?o (Some ?t) ?e = _ =>
        destruct (ProgressLog_init_calm p s d o t e) as (? & Hok & _) end;
        [by apply calm_now, Hc1|]. congruence. }
  match type of H3 with ProgressLog_init ?p ?s ?d ?o (Some ?t) ?e = _ =>
    assert (self = new_log p s d o t ∧ (calm env → calm env3)) as [-> Hc3] end.
  { rewrite ProgressLog_init_eq in H3. cbv zeta in H3.
    match type of H3 with context [_write ?s ?e] =>
      pose proof (_write_calm s e) as Hw;
      destruct (_write s e) as [[[]|exc] env'] end; [|done].
    injection H3 as <- <-. split; [done|]. intros Hcalm.
    destruct Hw as (? & Hw & ?); [by apply calm_now, Hc1|]. congruence. }
  (* progress = ... *)
  apply Run_bind_inv in Hrun as [([] & st4 & H4 & Hrun) | (e & H4 & _)]; [|done].
  injection H4 as <-.
  (* logging.FileHandler(log_path) *)
  apply Run_bind_inv in Hrun as [([] & st5 & H5 & Hrun) | (e & H5 & ->)];
    apply lift_inv in H5 as (env5 & H5 & ->); cbn [world set_world] in H5.
  2:{ left. exists e. do 3 (split; [done|]). intros Hcalm.
      unfold open_append, next_io in H5. rewrite (Hc3 Hcalm) in H5. simpl in H5.
      by destruct (fs env3 !! _). }
  assert (calm env → calm env5) as Hc5.
  { intros Hcalm. unfold open_append, next_io in H5. rewrite (Hc3 Hcalm) in H5.
    simpl in H5. destruct (fs env3 !! _); injection H5 as <-; by apply Hc3. }
  (* addHandler, the first log record *)
  apply Run_bind_inv in Hrun as [([] & st6 & H6 & Hrun) | (e & H6 & _)]; [|done].
  injection H6 as <-.
  apply Run_bind_inv in Hrun as [([] & st7 & H7 & Hrun) | (e & H7 & _)]; [|done].
  injection H7 as <-.
  right. eexists _, _. split_and!; cycle 7.
  { exact Hrun. }
  all: try reflexivity.
  intros Hcalm. cbn [world set_world]. by apply calm_log_record, Hc5.
Qed.

Lemma method_invoked attr m st r st' :
  method attr m st = (r, st') → invoked st' = invoked st ∧ current_step st' = current_step st.
Proof.
  unfold method. destruct (progress st) as [self|]; [|by intros [= <- <-]].
  destruct (m self (world st)) as [[r1 self1] env1]. by intros [= <- <-].
Qed.

Lemma invoked_on_exception exc st : invoked (on_exception exc st) = invoked st.
Proof.
  unfold on_exception, best_effort. destruct (progress st); [|done].
  destruct (current_step st) as [step|].
  - destruct (method "fail_step" (fail_step step (Some (exn_str exc))) st)
      as [r1 st1] eqn:H1. cbn [snd].
    destruct (method "finish" (finish "failed" (Some (exn_str exc))) st1)
      as [r2 st2] eqn:H2. cbn [snd].
    apply method_invoked in H1 as [<- _]. by apply method_invoked in H2 as [<- _].
  - destruct (method "finish" (finish "failed" (Some (exn_str exc))) st)
      as [r2 st2] eqn:H2. cbn [snd].
    by apply method_invoked in H2 as [<- _].
Qed.

Lemma close_spec p env r env' :
  close p env = (r, env') →
  fs env' = fs env ∧ observable env' = observable env ∧ stderr env' = stderr env
  ∧ faults env' = faults env ∧ clock env' = clock env ∧ ticks env' = ticks env
  ∧ match last_verdict env' with
    | IoOk => r = Returned ()
    | IoFailBefore msg | IoFailAfter _ msg => r = Raised (OSError msg)
    end.
Proof.
  unfold close, next_io, last_verdict.
  destruct (faults env (io_calls env)) eqn:Hverdict; intros [= <- <-];
    cbn [fs observable stderr faults clock ticks io_calls pred]; by rewrite Hverdict.
Qed.

(** The [finally] clause changes nothing but the handlers of the logger,
    and its outcome is that of closing the log file. *)
Lemma detach_spec st r st' :
  detach st = (r, st') →
  invoked st' = invoked st ∧ progress st' = progress st
  ∧ current_step st' = current_step st ∧ log_handler st' = log_handler st
  ∧ logger_files st'
    = match log_handler st with
      | None => logger_files st
      | Some p => filter (λ q, q ≠ p) (logger_files st)
      end
  ∧ fs (world st') = fs (world st) ∧ observable (world st') = observable (world st)
  ∧ stderr (world st') = stderr (world st) ∧ faults (world st') = faults (world st)
  ∧ r = after_closing st' (Returned ()).
Proof.
  unfold detach, after_closing, close_error.
  destruct (log_handler st) as [p|] eqn:Hhandler.
  - unfold lift, remove_handler. cbn [world].
    destruct (close p (world st)) as [r1 env1] eqn:Hclose. intros [= <- <-].
    cbn [invoked progress current_step log_handler logger_files world set_world].
    apply close_spec in Hclose as (Hfs & Hobs & Herr & Hfaults & _ & _ & Hr).
    do 4 (split; [done|]). rewrite Hhandler. do 5 (split; [done|]).
    by destruct (last_verdict env1).
  - intros [= <- <-]. by rewrite Hhandler.
Qed.

Lemma detach_keeps st :
  invoked (detach st).2 = invoked st ∧ progress (detach st).2 = progress st.
Proof.
  destruct (detach st) as [r st'] eqn:Hdetach.
  by apply detach_spec in Hdetach as (? & ? & _).
Qed.

Lemma detach_calm st :
  calm (world st) → (detach st).1 = Returned () ∧ calm (world (detach st).2).
Proof.
  intros Hcalm. destruct (detach st) as [r st'] eqn:Hdetach. cbn [fst snd].
  apply detach_spec in Hdetach as (_ & _ & _ & _ & _ & _ & _ & _ & Hfaults & ->).
  assert (calm (world st')) as Hcalm' by (unfold calm; by rewrite Hfaults).
  split; [|done]. unfold after_closing, close_error, last_verdict.
  destruct (log_handler st'); [|done]. by rewrite Hcalm'.
Qed.

Lemma after_closing_calm st r : calm (world st) → after_closing st r = r.
Proof.
  intros Hcalm. unfold after_closing, close_error, last_verdict.
  destruct (log_handler st); [|done]. by rewrite Hcalm.
Qed.

Lemma after_closing_Returned st r : after_closing st r = Returned () → r = Returned ().
Proof. unfold after_closing. by destruct (close_error st). Qed.

(** [run_order_session] step by step: the body, the [except] clause when
    the body raised, the [finally] clause, whose error, if it raises one,
    is what [run] raises. *)
Lemma run_order_session_eq config run_order dry_run st :
  run_order_session config run_order dry_run st
  = let out := run_body config run_order dry_run st in
    let st1 := match out.1 with
               | Returned _ => out.2
               | Raised exc => on_exception exc out.2
               end in
    (after_closing (detach st1).2 out.1, (detach st1).2).
Proof.
  unfold run_order_session. destruct (run_body config run_order dry_run st) as [r st0].
  cbv zeta. cbn [fst snd].
  destruct (detach (match r with
                    | Returned _ => st0
                    | Raised exc => on_exception exc st0
                    end)) as [r1 st1] eqn:Hdetach.
  cbn [fst snd]. apply detach_spec in Hdetach as (_ & _ & _ & _ & _ & _ & _ & _ & _ & ->).
  unfold after_closing. destruct (close_error st1); [done|]. by destruct r as [[]|].
Qed.

Lemma ok_calls_returned pre step exc : (step, Raised exc) ∉ ok_calls pre.
Proof. unfold ok_calls. by intros (? & ? & _)%list_elem_of_fmap. Qed.

(** A live run in which a handler raised. *)
Lemma live_failure config run_order env r st step exc :
  run_order_session config run_order false (initial env) = (r, st) →
  (step, Raised exc) ∈ invoked st →
  r = after_closing st (Raised exc)
  ∧ ∃ pre post self steps0 entry,
      run_order = pre ++ step :: post
      ∧ invoked st = ok_calls pre ++ [(step, Raised exc)]
      ∧ progress st = Some self
      ∧ d_steps (data self) = steps0 ++ [entry]
      ∧ Forall2 completed_as pre steps0
      ∧ e_step entry = step ∧ e_status entry = "failed"
      ∧ e_message entry = failure_message exc
      ∧ d_status (data self) = "failed"
      ∧ d_run_order (data self) = run_order.
Proof.
  rewrite run_order_session_eq. cbv zeta.
  destruct (run_body config run_order false (initial env)) as [r0 st0] eqn:Hbody.
  cbn [fst snd]. intros [= <- <-]. destruct (detach_keeps (match r0 with
                                           | Returned _ => st0
                                           | Raised e => on_exception e st0
                                           end)) as [-> ->].
  assert (invoked (match r0 with
                   | Returned _ => st0
                   | Raised e => on_exception e st0
                   end) = invoked st0) as Hinv.
  { destruct r0; [done | apply invoked_on_exception]. }
  rewrite Hinv. intros Hin.
  apply run_body_split in Hbody
    as [(e & -> & Hnone & _) | (st1 & self & Hprog & Hsteps & Hidle & Hord & Hinv1 & Hcur & _ & Htail)].
  { rewrite Hnone in Hin. by apply elem_of_nil in Hin. }
  unfold run_tail in Htail.
  apply Run_bind_inv in Htail as [([] & st2 & Hloop & Htail) | (e & Hloop & ->)].
  - (* every handler returned *)
    apply (run_steps_trace _ _ _ _ _ self []) in Hloop
      as [(? & ? & ? & ? & ? & ? & ? & ? & _ & [=] & _) | (pre & _ & Hcalls)];
      [| done | done | by rewrite Hsteps].
    apply Run_bind_inv in Htail as [([] & st3 & Hfin & Htail) | (e & Hfin & ->)];
      apply method_invoked in Hfin as [Hfin _].
    + injection Htail as <- <-. cbn [invoked set_world] in Hin.
      rewrite Hfin, Hcalls, Hinv1 in Hin. by apply ok_calls_returned in Hin.
    + rewrite Hfin, Hcalls, Hinv1 in Hin. by apply ok_calls_returned in Hin.
  - (* the loop raised *)
    apply (run_steps_trace _ _ _ _ _ self []) in Hloop
      as [(pre & s & post & exc' & self' & steps0 & entry & t & -> & [= <-] & Hcalls & Hcur'
           & Hprog' & Hsteps' & Hdone & Hes & Hst & Hmsg & Hact & Hord')
         | (pre & _ & Hcalls)];
      [| | done | done | by rewrite Hsteps].
    2:{ rewrite Hcalls, Hinv1 in Hin. by apply ok_calls_returned in Hin. }
    rewrite Hcalls, Hinv1 in Hin |- *. simpl in Hin |- *.
    apply elem_of_app in Hin as [Hin | Hin%list_elem_of_singleton];
      [by apply ok_calls_returned in Hin|].
    injection Hin as -> ->. split; [done|].
    (* the except clause *)
    unfold on_exception, best_effort, method. rewrite Hprog', Hcur'. cbn [progress world fst snd].
    destruct (fail_step s (Some (exn_str e)) self' (world st0)) as [[r1 self1] env1] eqn:Hfail.
    cbn [progress world snd].
    destruct (finish "failed" (Some (exn_str e)) self1 env1) as [[r2 self2] env2] eqn:Hfin.
    cbn [progress snd].
    assert (recorded entry) as Hrec by by apply recorded_running.
    destruct (complete_step_last _ _ _ _ _ _ _ _ _ _ _ Hact Hsteps' Hes Hrec Hfail)
      as (Hsteps1 & Hact1 & Hord1).
    destruct (finish_idle _ _ _ _ _ _ _ Hact1 Hfin) as (Hsteps2 & Hstatus2 & Hord2 & _).
    eexists pre, post, self2, steps0, _. split; [done|]. split; [done|]. split; [done|].
    split; [by rewrite Hsteps2, Hsteps1|]. split; [done|].
    cbn [close_entry e_step e_status e_message]. rewrite Hmsg.
    split; [done|]. split; [done|]. split; [done|]. split; [done|]. congruence.
Qed.

Lemma plan_steps_invoked run_order : ∀ st r st',
  plan_steps run_order st = (r, st') → invoked st' = invoked st.
Proof.
  induction run_order as [|step rest IH]; intros st r st'; cbn [plan_steps].
  { by intros [= <- <-]. }
  intros [([] & st1 & H1 & Hrun) | (e & H1 & ->)]%Run_bind_inv;
    apply method_invoked in H1 as [H1 _]; [|done].
  apply Run_bind_inv in Hrun as [([] & st2 & H2 & Hrun) | (e & H2 & _)]; [|done].
  injection H2 as <-. apply IH in Hrun. by rewrite Hrun.
Qed.

Lemma plan_steps_Returned run_order : ∀ st st' self,
  progress st = Some self →
  plan_steps run_order st = (Returned (), st') →
  ∃ self',
    progress st' = Some self'
    ∧ e_step <$> d_steps (data self') = (e_step <$> d_steps (data self)) ++ run_order
    ∧ (Forall (λ e, e_status e = "planned") (d_steps (data self)) →
       Forall (λ e, e_status e = "planned") (d_steps (data self')))
    ∧ _active_starts self' = _active_starts self
    ∧ d_run_order (data self') = d_run_order (data self).
Proof.
  induction run_order as [|step rest IH]; intros st st' self Hprog; cbn [plan_steps].
  { intros [= <-]. exists self. by rewrite app_nil_r. }
  intros [([] & st1 & H1 & Hrun) | (e & _ & [=])]%Run_bind_inv.
  unfold method in H1. rewrite Hprog in H1. unfold plan_step in H1. cbn [now fst snd] in H1.
  match type of H1 with context [_write ?s ?e] =>
    destruct (_write s e) as [r1 env1] end.
  injection H1 as -> <-.
  apply Run_bind_inv in Hrun as [([] & st2 & H2 & Hrun) | (e & _ & [=])].
  injection H2 as <-.
  eapply IH in Hrun as (self' & Hprog' & Hsteps & Hplanned & Hact & Hord); [|reflexivity].
  exists self'. split; [done|].
  cbn [append_entry set_data set_steps data d_steps _active_starts d_run_order] in *.
  split; [|split; [|done]].
  - rewrite Hsteps, fmap_app. cbn. by rewrite <- app_assoc.
  - intros Hall. apply Hplanned, Forall_app. split; [done|]. by repeat constructor.
Qed.

Lemma plan_steps_calm run_order : ∀ st self,
  progress st = Some self → calm (world st) →
  ∃ st' self',
    plan_steps run_order st = (Returned (), st')
    ∧ progress st' = Some self' ∧ calm (world st').
Proof.
  induction run_order as [|step rest IH]; intros st self Hprog Hcalm; cbn [plan_steps].
  { by exists st, self. }
  destruct (plan_step_calm step self (world st) Hcalm) as (env1 & stamp & Hplan & Hc1).
  erewrite Run_bind_ok; cycle 1.
  { unfold method. rewrite Hprog, Hplan. reflexivity. }
  erewrite Run_bind_ok by reflexivity.
  eapply IH; [reflexivity|]. cbn [world set_world]. by apply calm_log_record.
Qed.

(** C7, where the code departs from it. When a handler raises [exc]
    during a live run, the errors of [fail_step] and [finish] are dropped,
    whatever their file operations do, but the error of closing the log
    file in the [finally] clause is not: [run] raises [exc] itself when
    closing the log file succeeds, and the error of [close] in the place
    of [exc] when it fails. *)
Theorem close_error_replaces_handler_error config selected_steps env r st step exc :
  run config selected_steps false env = (r, st) →
  (step, Raised exc) ∈ invoked st →
  (close_error st = None → r = Raised exc)
  ∧ (∀ e, close_error st = Some e → r = Raised e).
Proof.
  unfold run. destruct (resolve config selected_steps) as [run_order|selected_list|e].
  - intros Hrun Hin. destruct (live_failure _ _ _ _ _ _ _ Hrun Hin) as [-> _].
    unfold after_closing. split; [by intros ->|]. by intros e ->.
  - intros [= <- <-] Hin. by apply elem_of_nil in Hin.
  - intros [= <- <-] Hin. by apply elem_of_nil in Hin.
Qed.

(** C3. A dry run calls no handler. When it returns, the session holds
    one entry per step of the run order, in that order, each planned,
    under the status dry_run; and it does return when no file operation
    fails. *)
Theorem dry_run_plans_only config selected_steps env run_order r st :
  resolve config selected_steps = Order run_order →
  run config selected_steps true env = (r, st) →
  invoked st = []
  ∧ (calm env → r = Returned ())
  ∧ (r = Returned () →
     ∃ self, progress st = Some self
       ∧ d_run_order (data self) = run_order
       ∧ e_step <$> d_steps (data self) = run_order
       ∧ Forall (λ e, e_status e = "planned") (d_steps (data self))
       ∧ d_status (data self) = "dry_run").
Proof.
  unfold run. intros ->. rewrite run_order_session_eq. cbv zeta.
  destruct (run_body config run_order true (initial env)) as [r0 st0] eqn:Hbody.
  cbn [fst snd]. intros [= <- <-].
  destruct (detach_keeps (match r0 with
                          | Returned _ => st0
                          | Raised e => on_exception e st0
                          end)) as [-> ->].
  assert (invoked (match r0 with
                   | Returned _ => st0
                   | Raised e => on_exception e st0
                   end) = invoked st0) as ->.
  { destruct r0; [done | apply invoked_on_exception]. }
  apply run_body_split in Hbody
    as [(e & -> & Hnone & _ & Hfaulty)
       | (st1 & self & Hprog & Hsteps & Hidle & Hord & Hinv1 & Hcur & Hc1 & Htail)].
  { split; [done|]. split; [done|]. unfold after_closing.
    by destruct (close_error _). }
  unfold run_tail in Htail. split; [|split].
  - (* no handler is called *)
    apply Run_bind_inv in Htail as [([] & st2 & Hplan & Htail) | (e & Hplan & ->)];
      apply plan_steps_invoked in Hplan; [|congruence].
    apply Run_bind_inv in Htail as [([] & st3 & Hfin & Htail) | (e & Hfin & ->)];
      apply method_invoked in Hfin as [Hfin _]; [|congruence].
    injection Htail as <- <-. cbn [invoked set_world]. congruence.
  - (* it returns when nothing fails *)
    intros Hcalm.
    destruct (plan_steps_calm run_order st1 self Hprog (Hc1 Hcalm))
      as (st2 & self2 & Hplan & Hprog2 & Hc2).
    pose proof (plan_steps_Returned _ _ _ _ Hprog Hplan) as (? & ? & _ & _ & Hact2 & _).
    assert (_active_starts self2 = []) as Hidle2 by congruence.
    rewrite (Run_bind_ok _ _ _ _ _ Hplan) in Htail.
    apply Run_bind_inv in Htail as [([] & st3 & Hfin & Htail) | (e & Hfin & ->)];
      unfold method in Hfin; rewrite Hprog2 in Hfin;
      destruct (finish "dry_run" None self2 (world st2)) as [[r3 self3] env3] eqn:Hfinish;
      injection Hfin as -> <-;
      apply (finish_idle _ _ _ _ _ _ _ Hidle2) in Hfinish as (_ & _ & _ & _ & Hok);
      destruct (Hok Hc2) as [Hr Hc3]; [|done].
    injection Htail as <- <-. apply after_closing_calm, detach_calm.
    cbn [world set_world]. by apply calm_log_record.
  - (* the session it leaves *)
    intros ->%after_closing_Returned.
    apply Run_bind_inv in Htail as [([] & st2 & Hplan & Htail) | (e & _ & [=])].
    destruct (plan_steps_Returned _ _ _ _ Hprog Hplan)
      as (self2 & Hprog2 & Hsteps2 & Hplanned & Hact2 & Hord2).
    apply Run_bind_inv in Htail as [([] & st3 & Hfin & Htail) | (e & _ & [=])].
    unfold method in Hfin. rewrite Hprog2 in Hfin.
    destruct (finish "dry_run" None self2 (world st2)) as [[r3 self3] env3] eqn:Hfinish.
    injection Hfin as -> <-.
    apply finish_idle in Hfinish as (Hsteps3 & Hstatus3 & Hord3 & _); [|congruence].
    injection Htail as <-. exists self3. cbn [progress set_world].
    split; [done|]. split; [congruence|]. rewrite Hsteps3.
    split; [by rewrite Hsteps2, Hsteps|]. split; [|done].
    apply Hplanned. rewrite Hsteps. constructor.
Qed.

(** C1, amended. In a live run over [run_order], when the handler of the
    step at some position raises [exc]: the handlers called are those up
    to that position and no other; the session holds one entry for each
    step up to that position and none for a later step; the entries before
    it are completed and its own is failed; and that entry carries
    [str(exc)] as its message when [str(exc)] is not empty, and no message
    when it is. *)
Theorem failing_step_ends_run config selected_steps env run_order r st step exc :
  resolve config selected_steps = Order run_order →
  run config selected_steps false env = (r, st) →
  (step, Raised exc) ∈ invoked st →
  ∃ pre post self records record,
    run_order = pre ++ step :: post
    ∧ invoked st = ok_calls pre ++ [(step, Raised exc)]
    ∧ progress st = Some self
    ∧ d_steps (data self) = records ++ [record]
    ∧ Forall2 completed_as pre records
    ∧ e_step record = step ∧ e_status record = "failed"
    ∧ (exn_str exc ≠ "" → e_message record = Some (exn_str exc))
    ∧ (exn_str exc = "" → e_message record = None)
    ∧ (∀ later, later ∈ post → later ∉ e_step <$> d_steps (data self)).
Proof.
  intros Hresolve. pose proof (resolve_NoDup _ _ _ Hresolve) as Hnd.
  unfold run. rewrite Hresolve. intros Hrun Hin.
  destruct (live_failure _ _ _ _ _ _ _ Hrun Hin)
    as (_ & pre & post & self & records & record & -> & Hcalls & Hprog & Hsteps
        & Hdone & Hes & Hst & Hmsg & _).
  exists pre, post, self, records, record. do 7 (split; [done|]).
  unfold failure_message in Hmsg. split; [|split].
  - intros Hne. rewrite Hmsg. by destruct (exn_str exc).
  - intros Hempty. by rewrite Hmsg, Hempty.
  - intros later Hlater.
    rewrite Hsteps, fmap_app, (completed_as_steps _ _ Hdone). simpl. rewrite Hes.
    apply NoDup_app in Hnd as (_ & Hdisjoint & Hnd).
    apply NoDup_cons in Hnd as [Hstep _].
    intros [Hpre | ->%list_elem_of_singleton]%elem_of_app; [|done].
    apply (Hdisjoint _ Hpre). by right.
Qed.
End Runner.

(** ** The model at work *)

Example strip_keeps_inner_spaces : strip "  step01 a " = "step01 a".
Proof. vm_compute. reflexivity. Qed.

Example split_keeps_empty_parts : split "," "a,,b ,c" = ["a"; ""; "b "; "c"].
Proof. vm_compute. reflexivity. Qed.

Example selected_list_of_tokens :
  selected_list_of [Some " pcoa , step01_filter_variants,,"; None; Some "pcoa"]
  = ["pcoa"; "step01_filter_variants"; "pcoa"].
Proof. vm_compute. reflexivity. Qed.

Example fmt_pads : _fmt (Datetime 2025 11 3 9 5 7 123) = "2025-11-03T09:05:07".
Proof. vm_compute. reflexivity. Qed.

(** [isoformat] pads the year to four digits, [strftime] does not. *)
Example year_999 :
  _fmt (Datetime 999 1 2 3 4 0 0) = "0999-01-02T03:04:00"
  ∧ strftime_compact (Datetime 999 1 2 3 4 0 0) = "9990102_030400"
  ∧ strftime_compact (Datetime 2025 11 3 9 5 7 123) = "20251103_090507".
Proof. vm_compute. done. Qed.

Example aliases_resolve :
  STEP_ALIASES !! "pcoa" = Some "step13_pcoa"
  ∧ STEP_ALIASES !! "step13_pcoa" = Some "step13_pcoa"
  ∧ STEP_ALIASES !! "step04_transpose_pruned" = None
  ∧ size STEP_FUNCTIONS = 38.
Proof. vm_compute. done. Qed.

(** The example of the specification, on the loop that drops repeats. *)
Example collect_stepA_stepB : collect ["stepA"; "stepA"; "stepB"] ∅ [] = ["stepA"; "stepB"].
Proof. vm_compute. reflexivity. Qed.

Example configured_steps_sample :
  configured_steps sample_config
  = Returned ["step01_filter_variants"; "step02_filter_mapped_snps"].
Proof. vm_compute. reflexivity. Qed.

(** ** The theorems at concrete inputs *)

(** C1 as stated fails: a handler that raises an exception whose text is
    empty leaves the entry of its step failed and without any message. *)
Lemma failed_step_may_lack_message :
  let st := (@run sample_library (failing_handlers (Exn "ValueError" ""))
                  sample_config three_steps false sample_env).2 in
  ("step02_filter_mapped_snps", Raised (Exn "ValueError" "")) ∈ invoked st
  ∧ ∃ self record,
      progress st = Some self
      ∧ d_steps (data self) !! 1 = Some record
      ∧ e_status record = "failed"
      ∧ e_message record = None.
Proof.
  split.
  - apply (list_elem_of_lookup_2 _ 1). vm_compute. reflexivity.
  - eexists _, _. split; [vm_compute; reflexivity|].
    split; [vm_compute; reflexivity|]. split; vm_compute; reflexivity.
Qed.

Lemma failing_step_ends_run_witness :
  let out := @run sample_library (failing_handlers boom)
                  sample_config three_steps false sample_env in
  resolve sample_config three_steps
  = Order ["step01_filter_variants"; "step02_filter_mapped_snps";
           "step03_filter_individuals"]
  ∧ ("step02_filter_mapped_snps", Raised boom) ∈ invoked out.2
  ∧ ∃ pre post self records record,
      ["step01_filter_variants"; "step02_filter_mapped_snps"; "step03_filter_individuals"]
      = pre ++ "step02_filter_mapped_snps" :: post
      ∧ invoked out.2 = ok_calls pre ++ [("step02_filter_mapped_snps", Raised boom)]
      ∧ progress out.2 = Some self
      ∧ d_steps (data self) = records ++ [record]
      ∧ Forall2 completed_as pre records
      ∧ e_step record = "step02_filter_mapped_snps" ∧ e_status record = "failed"
      ∧ (exn_str boom ≠ "" → e_message record = Some (exn_str boom))
      ∧ (exn_str boom = "" → e_message record = None)
      ∧ (∀ later, later ∈ post → later ∉ e_step <$> d_steps (data self)).
Proof.
  intros out.
  assert (resolve sample_config three_steps
          = Order ["step01_filter_variants"; "step02_filter_mapped_snps";
                   "step03_filter_individuals"]) as Hresolve
    by (vm_compute; reflexivity).
  assert (("step02_filter_mapped_snps", Raised boom) ∈ invoked out.2) as Hin
    by (apply (list_elem_of_lookup_2 _ 1); vm_compute; reflexivity).
  split; [exact Hresolve|]. split; [exact Hin|].
  exact (@failing_step_ends_run sample_library (failing_handlers boom) sample_config
           three_steps sample_env _ out.1 out.2 _ boom
           Hresolve (surjective_pairing out) Hin).
Defined.

(** C2 as stated fails for a recorder whose session file has one of the
    two names [_write] itself uses in that directory. Named
    latest.json.tmp, it is the very file written as the temporary file of
    latest.json: a reader finds in it the first character of the summary
    and nothing more. Named latest.json, it is not persisted: the summary
    is moved over it, and once the recorder is built the session document
    is in no file. *)
Lemma session_file_names_clash :
  (let session_file := ["run_history"; "latest.json.tmp"] in
   let built := @ProgressLog_init sample_library session_file "run_1" false
                  ["step01_filter_variants"] None sample_env in
   let self := new_log session_file "run_1" false ["step01_filter_variants"]
                       (Datetime 2025 1 2 3 4 0 0) in
   built.1 = Returned self
   ∧ ∃ files, files ∈ observable built.2
       ∧ files !! session_file = Some "{"
       ∧ ¬ whole (fs sample_env) (@session_document sample_library self) session_file files
       ∧ ¬ whole (fs sample_env) (@latest_document sample_library self) session_file files)
  ∧ (let session_file := ["run_history"; "latest.json"] in
     let built := @ProgressLog_init sample_library session_file "run_1" false
                    ["step01_filter_variants"] None sample_env in
     let self := new_log session_file "run_1" false ["step01_filter_variants"]
                         (Datetime 2025 1 2 3 4 0 0) in
     built.1 = Returned self
     ∧ fs built.2 !! session_file = Some (@latest_document sample_library self)
     ∧ map_Forall (λ _ text, text ≠ @session_document sample_library self) (fs built.2)).
Proof.
  split.
  - split; [vm_compute; reflexivity|].
    apply Exists_exists. unfold whole. apply (bool_decide_unpack _). vm_compute. exact I.
  - split; [vm_compute; reflexivity|]. split; [vm_compute; reflexivity|].
    apply (bool_decide_unpack _). vm_compute. exact I.
Qed.

Lemma triple_eta {A B C} (x : A * B * C) : x = (x.1.1, x.1.2, x.2).
Proof. by destruct x as [[? ?] ?]. Qed.

Lemma progress_writes_are_atomic_witness :
  let built := @ProgressLog_init sample_library history_file "run_1" false
                 ["step01_filter_variants"] None sample_env in
  let self := new_log history_file "run_1" false ["step01_filter_variants"]
                      (Datetime 2025 1 2 3 4 0 0) in
  let started := @apply_op sample_library (StartStep "step01_filter_variants")
                   self built.2 in
  ((name history_file ∉ reserved_names)
   ∧ ∃ self new,
       well_placed self ∧ path self = history_file
       ∧ observed sample_env built.2 new
       ∧ Forall (@both_whole sample_library (fs sample_env) self) new
       ∧ (∀ log, built.1 = Returned log →
            log = self ∧ @persisted sample_library self (fs built.2)))
  ∧ (well_placed self
     ∧ well_placed started.1.2
     ∧ ∃ new, observed built.2 started.2 new
         ∧ Forall (@both_whole sample_library (fs built.2) started.1.2) new
         ∧ (started.1.1 = Returned () →
            @persisted sample_library started.1.2 (fs started.2)))
  ∧ parent (tmp_of history_file) = parent history_file.
Proof.
  intros built self started.
  assert (name history_file ∉ reserved_names) as Hname
    by (apply (bool_decide_unpack _); vm_compute; exact I).
  assert (well_placed self) as Hplaced by (split; [reflexivity | exact Hname]).
  destruct (@progress_writes_are_atomic sample_library) as (Hbuild & Hop & Htmp).
  split; [|split].
  - split; [exact Hname|].
    exact (Hbuild history_file "run_1" false ["step01_filter_variants"] None sample_env
             built.1 built.2 Hname (surjective_pairing built)).
  - split; [exact Hplaced|].
    exact (Hop (StartStep "step01_filter_variants") self built.2
             started.1.1 started.1.2 started.2 Hplaced (triple_eta started)).
  - exact (proj1 (Htmp history_file)).
Defined.

Lemma dry_run_plans_only_witness :
  let out := @run sample_library quiet_handlers sample_config three_steps true sample_env in
  resolve sample_config three_steps
  = Order ["step01_filter_variants"; "step02_filter_mapped_snps";
           "step03_filter_individuals"]
  ∧ calm sample_env
  ∧ invoked out.2 = []
  ∧ out.1 = Returned ()
  ∧ ∃ self, progress out.2 = Some self
      ∧ d_run_order (data self)
        = ["step01_filter_variants"; "step02_filter_mapped_snps";
           "step03_filter_individuals"]
      ∧ e_step <$> d_steps (data self)
        = ["step01_filter_variants"; "step02_filter_mapped_snps";
           "step03_filter_individuals"]
      ∧ Forall (λ e, e_status e = "planned") (d_steps (data self))
      ∧ d_status (data self) = "dry_run".
Proof.
  intros out.
  assert (resolve sample_config three_steps
          = Order ["step01_filter_variants"; "step02_filter_mapped_snps";
                   "step03_filter_individuals"]) as Hresolve
    by (vm_compute; reflexivity).
  assert (calm sample_env) as Hcalm by (intros n; reflexivity).
  destruct (@dry_run_plans_only sample_library quiet_handlers sample_config three_steps
              sample_env _ out.1 out.2 Hresolve (surjective_pairing out))
    as (Hnone & Hreturns & Hsession).
  split; [exact Hresolve|]. split; [exact Hcalm|]. split; [exact Hnone|].
  split; [exact (Hreturns Hcalm)|]. exact (Hsession (Hreturns Hcalm)).
Defined.

Lemma unknown_steps_rejected_witness :
  unresolved mistyped_steps ≠ []
  ∧ ∃ msg st,
      @run sample_library quiet_handlers sample_config (Some mistyped_steps) false sample_env
      = (Raised (ConfigError msg), st)
      ∧ Forall (λ step, occurs_in step msg) (unresolved mistyped_steps)
      ∧ progress st = None ∧ invoked st = [] ∧ world st = sample_env.
Proof.
  assert (unresolved mistyped_steps ≠ []) as Hunknown by (vm_compute; discriminate).
  split; [exact Hunknown|].
  exact (@unknown_steps_rejected sample_library quiet_handlers sample_config
           mistyped_steps false sample_env Hunknown).
Defined.

Lemma run_order_first_occurrence_witness :
  unresolved repeated_steps = []
  ∧ resolved_selection repeated_steps ≠ []
  ∧ ∃ run_order,
      resolve sample_config (Some repeated_steps) = Order run_order
      ∧ NoDup run_order
      ∧ (∀ step, step ∈ run_order ↔ step ∈ resolved_selection repeated_steps)
      ∧ (∀ x y l1 l2 l3, run_order = l1 ++ x :: l2 ++ y :: l3 →
           ∃ before after, resolved_selection repeated_steps = before ++ (x :: after)
                           ∧ (x ∉ before) ∧ (y ∉ before)).
Proof.
  assert (unresolved repeated_steps = []) as Hknown by (vm_compute; reflexivity).
  assert (resolved_selection repeated_steps ≠ []) as Hsome by (vm_compute; discriminate).
  split; [exact Hknown|]. split; [exact Hsome|].
  exact (run_order_first_occurrence sample_config repeated_steps Hknown Hsome).
Defined.

Example run_order_of_repeated_steps :
  resolve sample_config (Some repeated_steps)
  = Order ["step13_pcoa"; "step01_filter_variants"; "step16_trait_split"].
Proof. vm_compute. reflexivity. Qed.

Lemma pair_eta_l {A B} (x : A * B) (a : A) : x.1 = a → x = (a, x.2).
Proof. destruct x. simpl. by intros ->. Qed.

Lemma fresh_log_built :
  @ProgressLog_init sample_library history_file "run_1" false
    ["step01_filter_variants"; "step02_filter_mapped_snps"] None sample_env
  = (Returned fresh_log, after_build).
Proof.
  assert ((@ProgressLog_init sample_library history_file "run_1" false
             ["step01_filter_variants"; "step02_filter_mapped_snps"] None sample_env).1
          = Returned fresh_log) as Hbuilt by (vm_compute; reflexivity).
  exact (pair_eta_l _ _ Hbuilt).
Qed.

(** C6 as stated fails: each step is started once, yet the entry that
    [complete_step] was told to mark as running is still running after
    [finish] has returned. *)
Lemma finish_may_leave_running :
  let after := @apply_ops sample_library careless_calls fresh_log after_build in
  let closing := @finish sample_library "completed" None after.1 after.2 in
  NoDup (started_steps careless_calls)
  ∧ closing.1.1 = Returned ()
  ∧ ∃ e, e ∈ d_steps (data closing.1.2) ∧ e_status e = "running".
Proof.
  split; [apply (bool_decide_unpack _); vm_compute; exact I|].
  split; [vm_compute; reflexivity|].
  eexists. split; [apply (list_elem_of_lookup_2 _ 0)|]; vm_compute; reflexivity.
Qed.

Lemma finish_leaves_nothing_running_witness :
  let after := @apply_ops sample_library interrupted_calls fresh_log after_build in
  let closing := @finish sample_library "failed" (Some "interrupted") after.1 after.2 in
  let finished := _fmt (clock after.2 (ticks after.2)) in
  NoDup (started_steps interrupted_calls)
  ∧ Forall closes_properly interrupted_calls
  ∧ Forall (λ e, e_status e ≠ "running") (d_steps (data closing.1.2))
  ∧ (∀ i e, d_steps (data after.1) !! i = Some e → e_status e = "running" →
       ∃ e', d_steps (data closing.1.2) !! i = Some e' ∧ e_step e' = e_step e
             ∧ e_status e' = "failed" ∧ e_finished_at e' = Some finished)
  ∧ d_status (data closing.1.2) = "failed"
  ∧ d_finished_at (data closing.1.2) = Some finished
  ∧ (closing.1.1, closing.2) = @_write sample_library closing.1.2 (now after.2).2.
Proof.
  intros after closing finished.
  assert (NoDup (started_steps interrupted_calls)) as Hnd
    by (apply (bool_decide_unpack _); vm_compute; exact I).
  assert (Forall closes_properly interrupted_calls) as Hclose
    by (repeat constructor; vm_compute; discriminate).
  split; [exact Hnd|]. split; [exact Hclose|].
  exact (@finish_leaves_nothing_running sample_library history_file "run_1" false
           ["step01_filter_variants"; "step02_filter_mapped_snps"] None sample_env
           fresh_log after_build interrupted_calls after.1 after.2
           "failed" (Some "interrupted") closing.1.1 closing.1.2 closing.2
           fresh_log_built Hnd Hclose (surjective_pairing after) (triple_eta closing)).
Defined.

Example interrupted_step_is_failed :
  let after := @apply_ops sample_library interrupted_calls fresh_log after_build in
  let closing := @finish sample_library "failed" (Some "interrupted") after.1 after.2 in
  (λ e, (e_step e, e_status e, e_message e)) <$> d_steps (data closing.1.2)
  = [("step01_filter_variants", "completed", None);
     ("step02_filter_mapped_snps", "failed", Some "interrupted");
     ("step03_filter_individuals", "planned", None)].
Proof. vm_compute. reflexivity. Qed.

(** The disk is full from the moment the second step raises [boom]: the
    writes of [fail_step] and [finish] fail and are passed over, then
    closing the log file fails, and [run] raises that error, not [boom]. *)
Lemma close_error_replaces_handler_error_witness :
  let out := @run sample_library (failing_handlers boom)
                  sample_config three_steps false (failing_env 26) in
  ("step02_filter_mapped_snps", Raised boom) ∈ invoked out.2
  ∧ close_error out.2 = Some (OSError "No space left on device")
  ∧ out.1 = Raised (OSError "No space left on device").
Proof.
  intros out.
  assert (("step02_filter_mapped_snps", Raised boom) ∈ invoked out.2) as Hin
    by (apply (list_elem_of_lookup_2 _ 1); vm_compute; reflexivity).
  assert (close_error out.2 = Some (OSError "No space left on device")) as Hclose
    by (vm_compute; reflexivity).
  split; [exact Hin|]. split; [exact Hclose|].
  exact (proj2 (@close_error_replaces_handler_error sample_library (failing_handlers boom)
                  sample_config three_steps (failing_env 26) out.1 out.2 _ boom
                  (surjective_pairing out) Hin) _ Hclose).
Defined.

(** With the disk full from the failing step on, the failure is still
    recorded in the session object, but the session file does not hold
    the document of that state. *)
Example failure_not_persisted :
  let out := @run sample_library (failing_handlers boom)
                  sample_config three_steps false (failing_env 26) in
  (d_status ∘ data) <$> progress out.2 = Some "failed"
  ∧ (λ self, bool_decide (fs (world out.2) !! path self
                          = Some (@session_document sample_library self)))
    <$> progress out.2 = Some false.
Proof. vm_compute. done. Qed.

(** When only the writes of [fail_step] and [finish] fail and the log file
    can be closed, [run] raises [boom]. *)
Example failure_reraised_when_closing_succeeds :
  let out := @run sample_library (failing_handlers boom)
                  sample_config three_steps false (full_between 26 28) in
  (d_status ∘ data) <$> progress out.2 = Some "failed"
  ∧ io_calls (world out.2) = 29
  ∧ out.1 = Raised boom.
Proof. vm_compute. done. Qed.

Lemma resolve_input_path_chain_witness :
  (dict_get "input_csv" own_input = Some (YStr "in/own.csv")
   ∧ @_resolve_input_path sample_library sample_config own_input "input_csv"
       (Some ["paths"; "raw_genotypes"]) sample_env
     = (Returned ["project"; "in/own.csv"], sample_env))
  ∧ (truthy (yaml_get "input_csv" no_input) = false
     ∧ @fallback_path sample_library sample_config (Some ["paths"; "raw_genotypes"])
       = Some ["project"; "data/genotypes.csv"]
     ∧ @_resolve_input_path sample_library sample_config no_input "input_csv"
         (Some ["paths"; "raw_genotypes"]) sample_env
       = (Returned ["project"; "data/genotypes.csv"], sample_env))
  ∧ (truthy (yaml_get "input_csv" no_input) = false
     ∧ fallback_unset sample_config (Some ["paths"; "pruned_genotypes"])
     ∧ @_resolve_input_path sample_library sample_config no_input "input_csv"
         (Some ["paths"; "pruned_genotypes"]) sample_env
       = (Raised (ConfigError
                    "Missing input path for key 'input_csv' and no fallback provided"),
          sample_env)).
Proof.
  assert (truthy (yaml_get "input_csv" no_input) = false) as Hunset by reflexivity.
  split; [|split].
  - split; [reflexivity|].
    exact (proj1 (@resolve_input_path_chain sample_library sample_config own_input
                    "input_csv" (Some ["paths"; "raw_genotypes"]) sample_env)
                 _ _ eq_refl).
  - split; [exact Hunset|]. split; [reflexivity|].
    exact (proj1 (proj2 (@resolve_input_path_chain sample_library sample_config no_input
                           "input_csv" (Some ["paths"; "raw_genotypes"]) sample_env))
                 _ Hunset eq_refl).
  - assert (fallback_unset sample_config (Some ["paths"; "pruned_genotypes"])) as Hfb
      by (left; reflexivity).
    split; [exact Hunset|]. split; [exact Hfb|].
    exact (proj1 (proj2 (proj2 (@resolve_input_path_chain sample_library sample_config
                                  no_input "input_csv"
                                  (Some ["paths"; "pruned_genotypes"]) sample_env))
                        Hunset Hfb)).
Defined.

Lemma empty_selection_returns_witness :
  selected_list_of blank_tokens = []
  ∧ ∃ st,
      @run sample_library quiet_handlers sample_config (Some blank_tokens) false sample_env
      = (Returned (), st)
      ∧ progress st = None ∧ invoked st = [] ∧ log_handler st = None
      ∧ fs (world st) = fs sample_env ∧ observable (world st) = observable sample_env.
Proof.
  assert (selected_list_of blank_tokens = []) as Hblank by (vm_compute; reflexivity).
  split; [exact Hblank|].
  exact (@empty_selection_returns sample_library quiet_handlers sample_config
           blank_tokens false sample_env Hblank).
Defined.

(** * Properties of the code around the runner *)

(** ** Configuration lookups *)

Lemma get_from_find node keys d : get_from node keys d = default d (find_from node keys).
Proof.
  revert node. induction keys as [|key keys IH]; intros node; simpl; [done|].
  destruct node; try done. destruct (dict_get key items); [apply IH|done].
Qed.

Lemma find_from_app node keys more :
  find_from node (keys ++ more) = find_from node keys ≫= λ v, find_from v more.
Proof.
  revert node. induction keys as [|key keys IH]; intros node; simpl; [done|].
  destruct node; try done. destruct (dict_get key items); [apply IH|done].
Qed.

Lemma has_find config keys :
  has config keys = true ↔ is_Some (find_from (YMap (config_data config)) keys).
Proof.
  unfold has. destruct (find_from _ keys); split; done.
Qed.

(** X1. [has] tells whether [get] finds something at the key path: when it
    is false [get] answers with its default, also for every longer path;
    when it is true [get] answers with the same node whatever the default,
    and a longer path is looked up from that node. A path that is there
    has all its prefixes there. *)
Theorem has_decides_get config keys more :
  (has config keys = false → ∀ d, get config (keys ++ more) d = d)
  ∧ (has config keys = true →
     ∃ node, (∀ d, get config keys d = node)
             ∧ ∀ d, get config (keys ++ more) d = get_from node more d)
  ∧ (has config (keys ++ more) = true → has config keys = true).
Proof.
  unfold has, get. split_and!.
  - intros Hhas d. rewrite get_from_find, find_from_app.
    destruct (find_from _ keys); done.
  - intros Hhas. destruct (find_from _ keys) as [node|] eqn:Hfind; [|done].
    exists node. split; intros d.
    + by rewrite get_from_find, Hfind.
    + rewrite !get_from_find, find_from_app, Hfind. done.
  - rewrite find_from_app. destruct (find_from _ keys); done.
Qed.

(** X2. [require] returns only a value that is not [None], found at a path
    that [has] confirms; it raises a [ConfigError] that names the dotted
    path when the path is missing, and also when the key is there with
    the value [None], although [has] is true of it. *)
Theorem require_needs_a_value config keys :
  (∀ v, require config keys = Returned v →
     v ≠ YNull ∧ has config keys = true ∧ ∀ d, get config keys d = v)
  ∧ (has config keys = false →
     ∃ msg, require config keys = Raised (ConfigError msg)
            ∧ occurs_in (join "." keys) msg)
  ∧ (find_from (YMap (config_data config)) keys = Some YNull →
     has config keys = true
     ∧ ∃ msg, require config keys = Raised (ConfigError msg)
              ∧ occurs_in (join "." keys) msg).
Proof.
  unfold require, has, get. rewrite get_from_find. split_and!.
  - intros v Hv.
    destruct (find_from _ keys) as [node|] eqn:Hfind; simpl in Hv; [|done].
    assert (node = v) as -> by (destruct node; congruence).
    split_and!; [by intros ->|done|].
    intros d. by rewrite get_from_find, Hfind.
  - intros Hhas. destruct (find_from _ keys); [done|]. simpl.
    eexists. split; [done|]. eexists _, "". by rewrite append_empty_r.
  - intros ->. split; [done|]. simpl.
    eexists. split; [done|]. eexists _, "". by rewrite append_empty_r.
Qed.

Lemma dict_get_keys {V} k (d : list (string * V)) v : dict_get k d = Some v → k ∈ d.*1.
Proof.
  induction d as [|[k' v'] d IH]; simpl; [done|].
  rewrite elem_of_cons.
  destruct (decide (k = k')) as [->|]; [by left|].
  intros Hget. right. apply IH, Hget.
Qed.

Lemma block_exists_keys steps_cfg key : block_exists steps_cfg key = true → key ∈ steps_cfg.*1.
Proof.
  unfold block_exists. destruct (dict_get key steps_cfg) as [v|] eqn:Hget; [|done].
  intros _. by apply (dict_get_keys _ _ v).
Qed.

Lemma default_order_elem steps_cfg step :
  step ∈ default_order steps_cfg
  ↔ ∃ legacy, (step, legacy) ∈ STEP_SEQUENCE
              ∧ (block_exists steps_cfg step = true ∨ block_exists steps_cfg legacy = true).
Proof.
  unfold default_order. rewrite list_elem_of_fmap. split.
  - intros ([primary legacy] & -> & Hin). apply list_elem_of_filter in Hin as [Hblock Hin].
    exists legacy. split; [done|]. simpl in Hblock.
    apply Is_true_true, orb_true_iff in Hblock. done.
  - intros (legacy & Hin & Hblock). exists (step, legacy). split; [done|].
    apply list_elem_of_filter. split; [|done]. simpl.
    apply Is_true_true, orb_true_iff. done.
Qed.

Lemma configured_steps_eq config :
  configured_steps config
  = match get config ["steps"] (YMap []) with
    | YMap steps_cfg => Returned (default_order steps_cfg)
    | _ => Raised (ConfigError "steps must be a mapping in the YAML configuration")
    end.
Proof.
  unfold configured_steps.
  destruct (get config ["steps"] (YMap [])) as [| | | | | |steps_cfg]; try done.
  by rewrite configured_from_filter by apply STEP_SEQUENCE_legacy.
Qed.

(** X3. [list_steps] and [configured_steps] read the same "steps" value:
    they raise a [ConfigError] together, and every step of the default
    order has its canonical or its legacy name among the keys that
    [list_steps] returns. *)
Theorem configured_steps_are_listed config :
  (∀ order, configured_steps config = Returned order →
     ∃ keys, list_steps config = Returned keys
       ∧ ∀ step, step ∈ order →
           ∃ legacy, (step, legacy) ∈ STEP_SEQUENCE ∧ (step ∈ keys ∨ legacy ∈ keys))
  ∧ (∀ e, configured_steps config = Raised e →
       ∃ msg, e = ConfigError "steps must be a mapping in the YAML configuration"
              ∧ list_steps config = Raised (ConfigError msg))
  ∧ (∀ keys, list_steps config = Returned keys →
       ∃ order, configured_steps config = Returned order).
Proof.
  rewrite configured_steps_eq. unfold list_steps.
  destruct (get config ["steps"] (YMap [])) as [| | | | | |steps_cfg]; split_and!;
    try (by intros ? [=]); try (intros ? [= <-]; eexists; split; reflexivity).
  - intros order [= <-]. eexists. split; [done|].
    intros step (legacy & Hin & Hblock)%default_order_elem. exists legacy. split; [done|].
    destruct Hblock as [Hblock|Hblock]; [left|right]; by apply block_exists_keys.
Qed.

(** ** Step blocks *)

Lemma get_steps_key config steps_cfg key :
  get config ["steps"] (YMap []) = YMap steps_cfg →
  get config ["steps"; key] YNull = yaml_get key steps_cfg.
Proof.
  unfold get, yaml_get. simpl.
  destruct (dict_get "steps" (config_data config)) as [node|]; simpl.
  - intros ->. by destruct (dict_get key steps_cfg).
  - by intros [= <-].
Qed.

(** X4. [_load_step_config] returns the block under the canonical key,
    with that key, when a mapping stands there. When none stands there it
    returns the block under the legacy key, with the legacy key, if a
    legacy name that is not empty is given and a mapping stands under it;
    and no block, with the canonical key, in every other case. An empty
    legacy name is ignored: the call gives what it gives without a legacy
    name, whatever stands under the empty key. *)
Theorem load_step_config_prefers_canonical config primary legacy :
  (∀ step_cfg,
     get config ["steps"; primary] YNull = YMap step_cfg →
     _load_step_config config primary legacy = (Some step_cfg, primary))
  ∧ (∀ l step_cfg,
       is_dict (get config ["steps"; primary] YNull) = false →
       legacy = Some l → l ≠ "" →
       get config ["steps"; l] YNull = YMap step_cfg →
       _load_step_config config primary legacy = (Some step_cfg, l))
  ∧ (is_dict (get config ["steps"; primary] YNull) = false →
     (∀ l, legacy = Some l → l ≠ "" → is_dict (get config ["steps"; l] YNull) = false) →
     _load_step_config config primary legacy = (None, primary))
  ∧ _load_step_config config primary (Some "") = _load_step_config config primary None.
Proof.
  unfold _load_step_config. split_and!.
  - intros step_cfg Hp.
    destruct legacy as [l|]; [destruct (truthy_str (Some l) && bool_decide (l ≠ primary))|];
      cbn [first_block]; by rewrite Hp.
  - intros l step_cfg Hp -> Hne Hl.
    destruct (decide (l = primary)) as [->|Hdiff]; [by rewrite Hl in Hp|].
    replace (truthy_str (Some l)) with true by (by destruct l).
    rewrite bool_decide_true by done. cbn [andb first_block].
    destruct (get config ["steps"; primary] YNull); try done; by rewrite Hl.
  - intros Hp Hl.
    assert (first_block config [primary] primary = (None, primary)) as Hone.
    { cbn [first_block]. by destruct (get config ["steps"; primary] YNull). }
    destruct legacy as [l|]; [|done].
    destruct (truthy_str (Some l) && bool_decide (l ≠ primary)) eqn:Hcond; [|done].
    apply andb_true_iff in Hcond as [Hset _].
    assert (l ≠ "") as Hne by (by destruct l).
    specialize (Hl l eq_refl Hne). cbn [first_block].
    destruct (get config ["steps"; primary] YNull); try done;
      by destruct (get config ["steps"; l] YNull).
  - done.
Qed.

Lemma STEP_SEQUENCE_functional :
  Forall (λ pl1, Forall (λ pl2, pl1.1 = pl2.1 → pl1 = pl2) STEP_SEQUENCE) STEP_SEQUENCE.
Proof. apply (bool_decide_unpack _). vm_compute. exact I. Qed.

Lemma STEP_SEQUENCE_distinct : Forall (λ pl, pl.2 ≠ pl.1) STEP_SEQUENCE.
Proof. apply (bool_decide_unpack _). vm_compute. exact I. Qed.

Lemma load_step_config_blocks config steps_cfg primary legacy :
  get config ["steps"] (YMap []) = YMap steps_cfg →
  legacy ≠ "" → legacy ≠ primary →
  is_Some (_load_step_config config primary (Some legacy)).1
  ↔ block_exists steps_cfg primary = true ∨ block_exists steps_cfg legacy = true.
Proof.
  intros Hsteps Hne Hdiff. unfold _load_step_config.
  replace (truthy_str (Some legacy)) with true by (by destruct legacy).
  rewrite bool_decide_true by done. cbn [andb first_block].
  rewrite !(get_steps_key _ _ _ Hsteps), <- !is_dict_yaml_get.
  unfold is_Some.
  destruct (yaml_get primary steps_cfg), (yaml_get legacy steps_cfg); simpl; naive_solver.
Qed.

(** X5. The default order and the step functions agree on what configured
    means: for a pair of the canonical sequence, [configured_steps] lists
    the step exactly when [_load_step_config], called with the canonical
    and the legacy name as the step function calls it, finds a block. *)
Theorem default_order_agrees_with_step_blocks config order primary legacy :
  configured_steps config = Returned order →
  (primary, legacy) ∈ STEP_SEQUENCE →
  primary ∈ order ↔ is_Some (_load_step_config config primary (Some legacy)).1.
Proof.
  rewrite configured_steps_eq.
  destruct (get config ["steps"] (YMap [])) as [| | | | | |steps_cfg] eqn:Hsteps;
    intros Heq; [discriminate Heq.. |].
  injection Heq as <-. intros Hin.
  pose proof STEP_SEQUENCE_legacy as Hlegacy.
  pose proof STEP_SEQUENCE_distinct as Hdistinct.
  pose proof STEP_SEQUENCE_functional as Hfun.
  rewrite Forall_forall in Hlegacy, Hdistinct, Hfun.
  rewrite (load_step_config_blocks config steps_cfg primary legacy Hsteps
             (Hlegacy _ Hin) (Hdistinct _ Hin)).
  rewrite default_order_elem. split.
  - intros (legacy' & Hin' & Hblock).
    specialize (Hfun _ Hin). rewrite Forall_forall in Hfun.
    specialize (Hfun _ Hin' eq_refl). by injection Hfun as ->.
  - intros Hblock. by exists legacy.
Qed.

(** X6. [fix_pruned_ped] is the one step function that calls
    [_load_step_config] without the legacy name (line 812). A block that
    stands under the legacy key "fix_pruned_ped" alone therefore puts
    step15_fix_pruned_ped into the default order, and the step function,
    run for it, finds no block. *)
Theorem legacy_block_of_fix_pruned_ped config steps_cfg :
  get config ["steps"] (YMap []) = YMap steps_cfg →
  block_exists steps_cfg "fix_pruned_ped" = true →
  block_exists steps_cfg "step15_fix_pruned_ped" = false →
  (∃ order, configured_steps config = Returned order ∧ "step15_fix_pruned_ped" ∈ order)
  ∧ _load_step_config config "step15_fix_pruned_ped" None
    = (None, "step15_fix_pruned_ped")
  ∧ is_Some (_load_step_config config "step15_fix_pruned_ped" (Some "fix_pruned_ped")).1.
Proof.
  intros Hsteps Hlegacy Hprimary. split_and!.
  - rewrite configured_steps_eq, Hsteps. eexists. split; [done|].
    apply default_order_elem. exists "fix_pruned_ped". split; [|by right].
    apply (bool_decide_unpack _). vm_compute. exact I.
  - unfold _load_step_config. cbn [first_block].
    rewrite (get_steps_key _ _ _ Hsteps).
    rewrite <- is_dict_yaml_get in Hprimary.
    by destruct (yaml_get "step15_fix_pruned_ped" steps_cfg).
  - apply (load_step_config_blocks config steps_cfg); [done..|by right].
Qed.

(** ** The steps that work on text *)

Section TextSteps.
Context `{!Runtime}.



Lemma fix_tokens_line_no input_path line_no tokens fixed :
  Steps.fix_tokens input_path line_no tokens = Returned fixed →
  ∀ k, Steps.fix_tokens input_path k tokens = Returned fixed.
Proof.
  unfold Steps.fix_tokens. destruct (length tokens <? 6)%nat; [done|]. cbv zeta.
  destruct (int_of_str (default "" (tokens !! 4%nat))); [|done].
  by destruct (str_of_int (z + 1)).
Qed.

(** X8. The loop of [fix_pruned_ped] writes one line for each line of the
    input that is not blank, in order, after what was written before, and
    counts them in [total]: the line written for an input line is made of
    its tokens as [fix_tokens] leaves them, joined by single spaces, and a
    line feed. When a line is refused the loop stops there: the lines
    written for the ones before it stay in the output, and the exception
    is the one raised for that line, numbered by its place in the file,
    the blank lines counted. *)
Theorem fix_lines_output input_path lines : ∀ line_no written total r written',
  Steps.fix_lines input_path line_no lines written total = (r, written') →
  ∃ good rows,
    written' = written ++ rows
    ∧ good `prefix_of` lines
    ∧ Forall2 (λ raw row,
                 ∃ tokens,
                   (∀ k, Steps.fix_tokens input_path k (split_whitespace (strip raw))
                         = Returned tokens)
                   ∧ row = join " " tokens +:+ newline)
              (filter (λ raw, strip raw ≠ "") good) rows
    ∧ match r with
      | Returned total' => good = lines ∧ total' = (total + length rows)%nat
      | Raised e =>
          ∃ bad, (good ++ [bad]) `prefix_of` lines
            ∧ strip bad ≠ ""
            ∧ Steps.fix_tokens input_path (line_no + length good)
                               (split_whitespace (strip bad)) = Raised e
      end.
Proof.
  induction lines as [|raw rest IH]; intros line_no written total r written'; simpl.
  - intros [= <- <-]. exists [], []. rewrite app_nil_r. split_and!; [done..|constructor|done].
  - destruct (decide (strip raw = "")) as [Hblank|Hblank].
    + intros Hrest. apply IH in Hrest as (good & rows & -> & Hpre & Hlen & Hr).
      exists (raw :: good), rows. split_and!; [done|by apply prefix_cons| |].
      * rewrite filter_cons_False by (by intros ?). done.
      * destruct r as [total'|e]; [by destruct Hr as [-> ->]|].
        destruct Hr as (bad & Hbad & Hne & Hraised). exists bad.
        split_and!; [by apply prefix_cons|done|].
        by replace (line_no + length (raw :: good))%nat
             with (S line_no + length good)%nat by (simpl; lia).
    + destruct (Steps.fix_tokens input_path line_no (split_whitespace (strip raw)))
        as [tokens|e] eqn:Htokens.
      * intros Hrest. apply IH in Hrest as (good & rows & -> & Hpre & Hlen & Hr).
        exists (raw :: good), ((join " " tokens +:+ newline) :: rows).
        split_and!; [by rewrite <- app_assoc|by apply prefix_cons| |].
        { rewrite filter_cons_True by done. constructor; [|done].
          exists tokens. split; [|done]. by apply (fix_tokens_line_no _ line_no). }
        destruct r as [total'|e].
        { destruct Hr as [-> ->]. split; [done|]. simpl. lia. }
        destruct Hr as (bad & Hbad & Hne & Hraised). exists bad.
        split_and!; [by apply prefix_cons|done|].
        by replace (line_no + length (raw :: good))%nat
             with (S line_no + length good)%nat by (simpl; lia).
      * intros [= <- <-]. exists [], []. rewrite app_nil_r.
        split_and!; [done|apply prefix_nil|constructor|].
        exists raw. split_and!; [|done|].
        { apply prefix_cons, prefix_nil. }
        by rewrite Nat.add_0_r.
Qed.

Lemma subset_lines_later selected idx lines :
  Steps.subset_lines selected (S idx) lines
  = filter (λ line, before_comma line ∈ selected) lines.
Proof.
  revert idx. induction lines as [|line rest IH]; intros idx; [done|].
  cbn [Steps.subset_lines Nat.eqb]. rewrite IH.
  destruct (decide (before_comma line ∈ selected)).
  - by rewrite filter_cons_True.
  - by rewrite filter_cons_False.
Qed.

Lemma filter_idemp {A} (P : A → Prop) `{!∀ x, Decision (P x)} (l : list A) :
  filter P (filter P l) = filter P l.
Proof.
  induction l as [|x l IH]; [done|].
  destruct (decide (P x)).
  - rewrite !filter_cons_True by done. by rewrite IH.
  - by rewrite filter_cons_False.
Qed.

(** X9. [extract_pruned_subset] writes the first line of its input, the
    header, whatever it holds, and after it exactly the lines whose text
    before the first comma is, once stripped, a line of prune.in that is
    not blank; the lines keep their order, and running the step on its
    own output with the same prune.in changes nothing. *)
Theorem pruned_subset_keeps_selected prune_in lines :
  let selected := Steps.selected_of prune_in in
  let written := Steps.subset_lines selected 0 lines in
  written `sublist_of` lines
  ∧ head written = head lines
  ∧ tail written = filter (λ line, before_comma line ∈ selected) (tail lines)
  ∧ (∀ id, id ∈ selected ↔ id ≠ "" ∧ ∃ listed, listed ∈ prune_in ∧ strip listed = id)
  ∧ Steps.subset_lines selected 0 written = written.
Proof.
  intros selected written. subst written.
  assert (∀ id, id ∈ selected ↔ id ≠ "" ∧ ∃ listed, listed ∈ prune_in ∧ strip listed = id)
    as Hselected.
  { intros id. unfold selected, Steps.selected_of.
    rewrite elem_of_list_to_set, list_elem_of_filter, list_elem_of_fmap. naive_solver. }
  destruct lines as [|header rows]; [done|].
  cbn [Steps.subset_lines Nat.eqb]. rewrite !subset_lines_later.
  split_and!; [|done|done|done|].
  - apply sublist_skip, sublist_filter.
  - by rewrite filter_idemp.
Qed.
End TextSteps.

(** ** Tools and the PLINK step *)

Section Tools.
Context `{!Library} `{!StepHandlers} `{!Runtime}.

(** X10. [_resolve_rscript] takes the executable from the first place
    where it is set: tools.rscript_executable of the configuration,
    anchored like every configured path and whether or not the file is
    there, then the environment variable RSCRIPT_PATH, then
    RSCRIPT_EXECUTABLE, then the Rscript found on PATH; an empty string
    counts as not set. It raises a [ConfigError] when none is set, and a
    configured value that is true and no string ends in the [TypeError]
    of [resolve_path]. *)
Theorem rscript_precedence config env :
  let configured :=
    match config with
    | Some c => get c ["tools"; "rscript_executable"] YNull
    | None => YNull
    end in
  let elsewhere :=
    first_set [environ "RSCRIPT_PATH"; environ "RSCRIPT_EXECUTABLE"; which "Rscript"] in
  (∀ c ch s, config = Some c → configured = YStr (String ch s) →
     str_of_path (anchored c (String ch s)) ≠ "" →
     Steps._resolve_rscript config env
     = (Returned (YStr (str_of_path (anchored c (String ch s)))), env))
  ∧ (truthy configured = false →
     ∀ found, elsewhere = Some found →
       Steps._resolve_rscript config env = (Returned (YStr found), env))
  ∧ (truthy configured = false → elsewhere = None →
     ∃ msg, Steps._resolve_rscript config env = (Raised (ConfigError msg), env))
  ∧ (truthy configured = true → (∀ s, configured ≠ YStr s) →
     Steps._resolve_rscript config env = (Raised (Exn "TypeError" path_type_error), env)).
Proof.
  intros configured elsewhere. subst configured elsewhere.
  unfold Steps._resolve_rscript, first_set. split_and!.
  - intros c ch s -> Hcfg Hstr. rewrite Hcfg. simpl.
    unfold mbind, IO_bind, mret, IO_ret. simpl. fold (anchored c (String ch s)).
    destruct (str_of_path (anchored c (String ch s))) eqn:Hp; [done|]. done.
  - intros Hfalse found Hfound.
    assert ((match config with
             | Some config0 =>
                 let configured := get config0 ["tools"; "rscript_executable"] YNull in
                 if truthy configured
                 then resolve_path config0 configured false
                      ≫= λ resolved, mret match resolved with
                                          | Some p => YStr (str_of_path p)
                                          | None => configured
                                          end
                 else mret YNull
             | None => mret YNull
             end : IO yaml) env = (Returned YNull, env)) as Hnone.
    { destruct config as [c|]; [|done]. cbv zeta. by rewrite Hfalse. }
    rewrite (IO_bind_ok _ _ _ _ _ Hnone). cbn [truthy].
    destruct (environ "RSCRIPT_PATH") as [[|c1 s1]|]; simpl in *;
      try (injection Hfound as <-; done);
      (destruct (environ "RSCRIPT_EXECUTABLE") as [[|c2 s2]|]; simpl in *;
       try (injection Hfound as <-; done);
       (destruct (which "Rscript") as [[|c3 s3]|]; simpl in *;
        try (injection Hfound as <-; done); done)).
  - intros Hfalse Hnothing.
    assert ((match config with
             | Some config0 =>
                 let configured := get config0 ["tools"; "rscript_executable"] YNull in
                 if truthy configured
                 then resolve_path config0 configured false
                      ≫= λ resolved, mret match resolved with
                                          | Some p => YStr (str_of_path p)
                                          | None => configured
                                          end
                 else mret YNull
             | None => mret YNull
             end : IO yaml) env = (Returned YNull, env)) as Hnone.
    { destruct config as [c|]; [|done]. cbv zeta. by rewrite Hfalse. }
    rewrite (IO_bind_ok _ _ _ _ _ Hnone). cbn [truthy].
    destruct (environ "RSCRIPT_PATH") as [[|c1 s1]|]; simpl in *; try done;
      (destruct (environ "RSCRIPT_EXECUTABLE") as [[|c2 s2]|]; simpl in *; try done;
       (destruct (which "Rscript") as [[|c3 s3]|]; simpl in *; try done;
        by eexists)).
  - intros Htrue Hnostr. destruct config as [c|]; [|done].
    cbv zeta. rewrite Htrue.
    destruct (get c ["tools"; "rscript_executable"] YNull) as [| | |s| | |] eqn:Hcfg;
      try done.
    by destruct (Hnostr s).
Qed.
End Tools.

Lemma get_block_key config keys step_cfg key :
  get config keys YNull = YMap step_cfg →
  get config (keys ++ [key]) YNull = yaml_get key step_cfg.
Proof.
  unfold get. rewrite !get_from_find, find_from_app.
  destruct (find_from _ keys) as [node|]; simpl; [|done].
  intros ->. unfold yaml_get. simpl. by destruct (dict_get key step_cfg).
Qed.

Lemma occurs_in_trans a b c : occurs_in a b → occurs_in b c → occurs_in a c.
Proof.
  intros (x & y & ->) (u & v & ->). exists (u +:+ x), (y +:+ v).
  by rewrite !append_assoc.
Qed.

Lemma first_block_found config keys primary step_cfg key :
  first_block config keys primary = (Some step_cfg, key) →
  get config ["steps"; key] YNull = YMap step_cfg.
Proof.
  induction keys as [|k keys IH]; simpl; [done|].
  destruct (get config ["steps"; k] YNull) eqn:Hk; try apply IH.
  by intros [= <- <-].
Qed.

Lemma set_world_world st : set_world st (world st) = st.
Proof. by destruct st. Qed.

Section Plink.
Context `{!Library} `{!StepHandlers} `{!Runtime}.

Lemma log_record_fs_other files level msg env p :
  p ∉ files → fs (log_record files level msg env) !! p = fs env !! p.
Proof.
  unfold log_record. cbn [now]. cbv zeta.
  set (line := format_record _ level msg). clearbody line.
  set (env0 := mkEnv _ _ _ _ _ _ _).
  change (fs env) with (fs env0). clearbody env0. clear env.
  revert env0. induction files as [|q files IH]; intros env Hp; [done|].
  apply not_elem_of_cons in Hp as [Hne Hp]. cbn [foldl].
  rewrite IH by done. rewrite fs_set_fs. cbn [List.last].
  by apply lookup_insert_ne.
Qed.

(** X11. [plink_pruning] runs no program. Without a block under either of
    its keys it returns and touches no file but the log files. With a
    block whose panel_prefix is missing or empty it raises a [ConfigError]
    and changes nothing. With a panel_prefix, and when no file operation
    fails, it returns and leaves beside the panel, in _README.txt, a text
    that names the directory the panel is to be written to. *)
Theorem plink_pruning_leaves_instructions config st :
  ((_load_step_config config "step11_plink_pruning" (Some "plink_pruning")).1 = None →
   ∃ st', Steps.plink_pruning config st = (Returned (), st')
     ∧ ∀ p, p ∉ logger_files st → fs (world st') !! p = fs (world st) !! p)
  ∧ (∀ step_cfg step_key,
       _load_step_config config "step11_plink_pruning" (Some "plink_pruning")
       = (Some step_cfg, step_key) →
       yaml_get "panel_prefix" step_cfg = YNull ∨ yaml_get "panel_prefix" step_cfg = YStr "" →
       ∃ msg, Steps.plink_pruning config st = (Raised (ConfigError msg), st))
  ∧ (∀ step_cfg step_key c s,
       _load_step_config config "step11_plink_pruning" (Some "plink_pruning")
       = (Some step_cfg, step_key) →
       yaml_get "panel_prefix" step_cfg = YStr (String c s) →
       calm (world st) →
       let output_dir := parent (anchored config (String c s)) in
       output_dir // "_README.txt" ∉ logger_files st →
       ∃ st' text,
         Steps.plink_pruning config st = (Returned (), st')
         ∧ fs (world st') !! (output_dir // "_README.txt") = Some text
         ∧ occurs_in (str_of_path output_dir) text
         ∧ calm (world st')).
Proof.
  assert (∀ step_cfg step_key,
            _load_step_config config "step11_plink_pruning" (Some "plink_pruning")
            = (Some step_cfg, step_key) →
            get config ["steps"; step_key] YNull = YMap step_cfg) as Hload.
  { intros step_cfg step_key. unfold _load_step_config. apply first_block_found. }
  unfold Steps.plink_pruning.
  destruct (_load_step_config config "step11_plink_pruning" (Some "plink_pruning"))
    as [[step_cfg|] step_key]; split_and!; try done.
  - intros ? ? [= <- <-] Hunset. pose proof (Hload _ _ eq_refl) as Hblock.
    pose proof (get_block_key config ["steps"; step_key] step_cfg "panel_prefix" Hblock)
      as Hget. cbn [app] in Hget.
    unfold config_path_of, lift. rewrite Hget.
    unfold mbind, Run_bind.
    destruct Hunset as [-> | ->]; cbn; rewrite set_world_world; by eexists.
  - intros ? ? c s [= <- <-] Hprefix Hcalm. cbv zeta.
    set (output_dir := parent (anchored config (String c s))).
    intros Hlog. pose proof (Hload _ _ eq_refl) as Hblock.
    pose proof (get_block_key config ["steps"; step_key] step_cfg "panel_prefix" Hblock)
      as Hget. cbn [app] in Hget.
    set (panel := anchored config (String c s)) in *.
    destruct (mkdir_calm (parent panel) (world st) Hcalm) as (env1 & Hio1 & Hc1 & _).
    fold output_dir in Hio1.
    assert (lift (config_path_of config ["steps"; step_key; "panel_prefix"] true) st
            = (Returned (Some panel), set_world st env1)) as Hpath.
    { unfold lift, config_path_of. rewrite Hget, Hprefix. cbn [resolve_path].
      fold (anchored config (String c s)). fold panel.
      by rewrite (IO_bind_ok _ _ _ _ _ Hio1). }
    rewrite (Run_bind_ok _ _ _ _ _ Hpath). fold output_dir.
    destruct (mkdir_calm (parent (output_dir // "_README.txt")) env1 Hc1)
      as (env2 & Hio2 & Hc2 & _).
    assert (lift (ensure_parent (output_dir // "_README.txt")) (set_world st env1)
            = (Returned (), set_world st env2)) as Hensure.
    { unfold lift, ensure_parent. cbn [world set_world]. by rewrite Hio2. }
    rewrite (Run_bind_ok _ _ _ _ _ Hensure).
    destruct (mkdir_calm (parent (output_dir // "_README.txt")) env2 Hc2)
      as (env3 & Hio3 & Hc3 & _).
    match goal with
    | |- context [utils_write_text _ ?m] => set (message := m)
    end.
    destruct (write_text_calm (output_dir // "_README.txt") message env3 Hc3)
      as (env4 & Hio4 & Hc4 & Hfs4).
    assert (lift (utils_write_text (output_dir // "_README.txt") message)
                 (set_world st env2)
            = (Returned (), set_world st env4)) as Hwrite.
    { unfold lift, utils_write_text, ensure_parent. cbn [world set_world].
      by rewrite (IO_bind_ok _ _ _ _ _ Hio3), Hio4. }
    rewrite (Run_bind_ok _ _ _ _ _ Hwrite).
    unfold info. cbn [world set_world logger_files].
    eexists _, message. split_and!; [done| | |].
    + cbn [world set_world]. by rewrite log_record_fs_other.
    + subst message.
      apply (occurs_in_trans _ ("Outputs should be written under: "
                                +:+ str_of_path output_dir)).
      { eexists _, "". by rewrite append_empty_r. }
      apply join_occurs. rewrite !elem_of_cons. do 5 right. left. done.
    + cbn [world set_world]. by apply calm_log_record.
  - intros _. unfold info. eexists. split; [done|].
    intros p Hp. cbn [world set_world]. by apply log_record_fs_other.
Qed.
End Plink.

(** ** The run order and the registry *)

Lemma elem_of_insert_sorted x y l : x ∈ insert_sorted y l ↔ x = y ∨ x ∈ l.
Proof.
  induction l as [|z l IH]; simpl.
  - by rewrite elem_of_cons.
  - destruct (String.leb y z); rewrite !elem_of_cons, ?IH; tauto.
Qed.

Lemma elem_of_sorted x l : x ∈ sorted l ↔ x ∈ l.
Proof.
  unfold sorted. induction l as [|y l IH]; simpl; [done|].
  by rewrite elem_of_insert_sorted, IH, elem_of_cons.
Qed.

Lemma elem_of_available_steps step :
  step ∈ available_steps ↔ is_Some (STEP_FUNCTIONS !! step).
Proof. unfold available_steps. by rewrite elem_of_sorted, elem_of_elements, elem_of_dom. Qed.

Lemma STEP_ALIASES_canonical :
  map_Forall (λ _ primary, STEP_ALIASES !! primary = Some primary) STEP_ALIASES.
Proof. apply (bool_decide_unpack _). vm_compute. exact I. Qed.

Lemma STEP_ORDER_registered :
  Forall (λ step, is_Some (STEP_FUNCTIONS !! step) ∧ STEP_ALIASES !! step = Some step)
         STEP_ORDER.
Proof. apply (bool_decide_unpack _). vm_compute. exact I. Qed.

Lemma resolved_twice step :
  let resolved := default step (STEP_ALIASES !! step) in
  default resolved (STEP_ALIASES !! resolved) = resolved.
Proof.
  cbv zeta. destruct (STEP_ALIASES !! step) as [primary|] eqn:Halias; simpl.
  - by rewrite (STEP_ALIASES_canonical _ _ Halias).
  - by rewrite Halias.
Qed.

Lemma resolve_registered config selected_steps run_order :
  resolve config selected_steps = Order run_order →
  Forall (λ step, is_Some (STEP_FUNCTIONS !! step)
                  ∧ default step (STEP_ALIASES !! step) = step) run_order.
Proof.
  destruct selected_steps as [tokens|].
  - rewrite resolve_selection. destruct (unresolved tokens) eqn:Hunresolved; [|done].
    intros Horder.
    assert (run_order = first_occurrences (resolved_selection tokens)) as ->.
    { destruct (first_occurrences (resolved_selection tokens)); [done|].
      by injection Horder. }
    apply Forall_forall. intros step Hin.
    rewrite first_occurrences_elem in Hin. unfold resolved_selection in Hin.
    apply list_elem_of_fmap in Hin as (token & -> & Hin).
    split; [|apply resolved_twice].
    destruct (STEP_FUNCTIONS !! default token (STEP_ALIASES !! token)) eqn:Hfun; [done|].
    by destruct (filter_nil_not_elem_of _ _ token Hunresolved Hfun).
  - unfold resolve. destruct (configured_steps config) as [order|e] eqn:Hcfg; [|done].
    intros [= <-]. apply configured_steps_Returned in Hcfg.
    apply Forall_forall. intros step Hin.
    pose proof STEP_ORDER_registered as Hreg. rewrite Forall_forall in Hreg.
    destruct (Hreg step (elem_of_sublist _ _ _ Hin Hcfg)) as [? Halias].
    split; [done|]. by rewrite Halias.
Qed.

(** X12. Every step of a run order, whether it comes from a selection or
    from the configuration, is the name of a registered step function, so
    that the lookup [STEP_FUNCTIONS[step]] of the live run cannot fail; it
    is among [available_steps], and it is a canonical name: resolving it
    as an alias gives it back. *)
Theorem run_order_is_registered config selected_steps run_order :
  resolve config selected_steps = Order run_order →
  Forall (λ step, is_Some (STEP_FUNCTIONS !! step)
                  ∧ step ∈ available_steps
                  ∧ default step (STEP_ALIASES !! step) = step) run_order.
Proof.
  intros Hresolve. eapply Forall_impl; [by apply (resolve_registered config selected_steps)|].
  intros step [Hfun Hfixed]. by rewrite elem_of_available_steps.
Qed.

Lemma first_occurrences_id l : NoDup l → first_occurrences l = l.
Proof.
  induction 1 as [|x l Hx _ IH]; simpl; [done|].
  rewrite IH. f_equal. clear IH. induction l as [|y l IH]; [done|].
  apply not_elem_of_cons in Hx as [Hne Hx].
  rewrite filter_cons_True by done. by rewrite IH.
Qed.

Lemma registered_names_are_tokens :
  map_Forall (λ step _, parts_of (Some step) = [step]) STEP_FUNCTIONS.
Proof. apply (bool_decide_unpack _). vm_compute. exact I. Qed.

Lemma selected_list_of_names names :
  Forall (λ step, is_Some (STEP_FUNCTIONS !! step)) names →
  selected_list_of (Some <$> names) = names.
Proof.
  unfold selected_list_of. induction 1 as [|step names [h Hfun] _ IH]; [done|].
  rewrite fmap_cons, bind_cons, IH.
  by rewrite (registered_names_are_tokens _ _ Hfun).
Qed.

(** X13. A run order can be given back as a selection: selecting the steps
    of a run order that is not empty, one token each, resolves to the same
    run order. *)
Theorem run_order_selects_itself config selected_steps run_order :
  resolve config selected_steps = Order run_order →
  run_order ≠ [] →
  resolve config (Some (Some <$> run_order)) = Order run_order.
Proof.
  intros Hresolve Hne.
  pose proof (resolve_registered _ _ _ Hresolve) as Hreg.
  pose proof (resolve_NoDup _ _ _ Hresolve) as Hnodup.
  assert (selected_list_of (Some <$> run_order) = run_order) as Hselected.
  { apply selected_list_of_names. eapply Forall_impl; [done|]. by intros ? [? _]. }
  rewrite resolve_selection. unfold unresolved, resolved_selection. rewrite Hselected.
  assert ((λ step, default step (STEP_ALIASES !! step)) <$> run_order = run_order) as ->.
  { clear -Hreg. induction Hreg as [|step rest [_ Hfixed] _ IH]; [done|].
    by rewrite fmap_cons, Hfixed, IH. }
  assert (filter (λ step, STEP_FUNCTIONS !! default step (STEP_ALIASES !! step) = None)
                 run_order = []) as ->.
  { clear -Hreg. induction Hreg as [|step rest [[h Hfun] Hfixed] _ IH]; [done|].
    rewrite filter_cons_False; [done|]. by rewrite Hfixed, Hfun. }
  rewrite first_occurrences_id by done. by destruct run_order.
Qed.

Lemma split_nonempty sep s : split sep s ≠ [].
Proof.
  destruct s as [|c s]; simpl; [done|].
  destruct (Ascii.eqb c sep); [done|]. by destruct (split sep s).
Qed.

Lemma split_app sep a b :
  split sep (a +:+ String sep b) = split sep a ++ split sep b.
Proof.
  induction a as [|c a IH].
  - change ("" +:+ String sep b) with (String sep b). simpl.
    by rewrite Ascii.eqb_refl.
  - rewrite append_cons. simpl. destruct (Ascii.eqb c sep); [by rewrite IH|].
    rewrite IH. pose proof (split_nonempty sep a). by destruct (split sep a).
Qed.

Lemma parts_of_comma a b :
  parts_of (Some (a +:+ "," +:+ b)) = parts_of (Some a) ++ parts_of (Some b).
Proof.
  unfold parts_of. change ("," +:+ b) with (String "," b).
  by rewrite split_app, fmap_app, filter_app.
Qed.

Section Grouping.
Context `{!Library} `{!StepHandlers}.

(** X14. [run] takes the steps of a selection apart at the commas, so a
    token "a,b" stands for the two tokens "a" and "b" at its place, and a
    token that is [None] for nothing: the run is the same. *)
Theorem commas_separate_tokens config before a b after dry_run env :
  run config (Some (before ++ Some (a +:+ "," +:+ b) :: after)) dry_run env
  = run config (Some (before ++ Some a :: Some b :: after)) dry_run env
  ∧ run config (Some (before ++ None :: after)) dry_run env
    = run config (Some (before ++ after)) dry_run env.
Proof.
  assert (selected_list_of (before ++ Some (a +:+ "," +:+ b) :: after)
          = selected_list_of (before ++ Some a :: Some b :: after)) as Hcomma.
  { unfold selected_list_of. rewrite !bind_app, !bind_cons, parts_of_comma.
    by rewrite <- app_assoc. }
  assert (selected_list_of (before ++ None :: after) = selected_list_of (before ++ after))
    as Hnone.
  { unfold selected_list_of. by rewrite !bind_app, bind_cons. }
  unfold run, resolve. by rewrite Hcomma, Hnone.
Qed.
End Grouping.

(** ** The recorder, whatever the calls *)

Lemma same_entry_refl e : same_entry e e.
Proof. done. Qed.

Lemma same_entry_trans e1 e2 e3 : same_entry e1 e2 → same_entry e2 e3 → same_entry e1 e3.
Proof. unfold same_entry. intros (? & ? & ?) (? & ? & ?). split_and!; congruence. Qed.

Lemma Forall2_same_refl steps : Forall2 same_entry steps steps.
Proof. induction steps; constructor; done. Qed.

Lemma alter_same (f : StepEntry → StepEntry) steps : ∀ i,
  (∀ e, same_entry e (f e)) → Forall2 same_entry steps (alter f i steps).
Proof.
  induction steps as [|e steps IH]; intros i Hf; [constructor|].
  destruct i as [|i]; simpl.
  - constructor; [apply Hf|apply Forall2_same_refl].
  - constructor; [done|by apply IH].
Qed.

Section Whatever.
Context `{!Library}.

Lemma close_entry_same status finished start_time message e :
  same_entry e (close_entry status finished start_time message e).
Proof. done. Qed.

Lemma fail_entry_same finished started message e :
  same_entry e (fail_entry finished started message e).
Proof. done. Qed.

Lemma fail_pending_same finished message pending : ∀ steps r remaining steps',
  fail_pending finished message pending steps = (r, remaining, steps') →
  Forall2 same_entry steps steps'.
Proof.
  induction pending as [|[k t] rest IH]; intros steps r remaining steps'; simpl.
  - intros [= <- <- <-]. apply Forall2_same_refl.
  - destruct (_find_step_entry k steps) as [i|exc].
    + intros Hrest. apply IH in Hrest.
      eapply Forall2_trans; [apply same_entry_trans| |exact Hrest].
      apply alter_same. intros e. apply fail_entry_same.
    + intros [= <- <- <-]. apply Forall2_same_refl.
Qed.

Lemma apply_op_keeps o self env r self' env' :
  apply_op o self env = (r, self', env') →
  header self' = header self
  ∧ ∃ updated more,
      d_steps (data self') = updated ++ more
      ∧ Forall2 same_entry (d_steps (data self)) updated
      ∧ e_step <$> more = entered_steps [o].
Proof.
  assert (∀ step status message,
    complete_step step status message self env = (r, self', env') →
    header self' = header self
    ∧ ∃ updated more,
        d_steps (data self') = updated ++ more
        ∧ Forall2 same_entry (d_steps (data self)) updated
        ∧ e_step <$> more = []) as Hcomplete.
  { intros step status message. unfold complete_step. simpl.
    destruct (_find_step_entry step (d_steps (data self))) as [i|exc].
    - destruct (dict_pop step (_active_starts self)) as [start_time active].
      match goal with |- context [_write ?s ?e] => destruct (_write s e) as [r1 env2] end.
      intros [= <- <- <-]. split; [done|]. simpl.
      eexists _, []. rewrite app_nil_r. split_and!; [done| |done].
      apply alter_same. intros e. apply close_entry_same.
    - intros [= <- <- <-]. split; [done|].
      exists (d_steps (data self)), []. rewrite app_nil_r.
      split_and!; [done|apply Forall2_same_refl|done]. }
  destruct o as [step|step|step status message|step message|status message]; simpl.
  - unfold plan_step. simpl.
    match goal with |- context [_write ?s ?e] => destruct (_write s e) as [r1 env2] end.
    intros [= <- <- <-]. split; [done|]. simpl.
    eexists _, _. split_and!; [done|apply Forall2_same_refl|done].
  - unfold start_step. simpl.
    match goal with |- context [_write ?s ?e] => destruct (_write s e) as [r1 env2] end.
    intros [= <- <- <-]. split; [done|]. simpl.
    eexists _, _. split_and!; [done|apply Forall2_same_refl|done].
  - apply Hcomplete.
  - apply Hcomplete.
  - unfold finish. simpl.
    destruct (fail_pending _ message (reverse (_active_starts self)) (d_steps (data self)))
      as [[r0 remaining] steps'] eqn:Hpending.
    apply fail_pending_same in Hpending.
    destruct r0 as [[]|exc].
    + match goal with |- context [_write ?s ?e] => destruct (_write s e) as [r1 env2] end.
      intros [= <- <- <-]. split; [done|]. simpl.
      exists steps', []. by rewrite app_nil_r.
    + intros [= <- <- <-]. split; [done|]. simpl.
      exists steps', []. by rewrite app_nil_r.
Qed.

(** X15. Whatever is called on a [ProgressLog], and whether or not the
    calls return, the files it writes to, its session name and the
    session, dry_run, started_at and run_order of its document stay as
    they were; its entries are never removed, reordered or given to
    another step, and keep their noted and started times; and what comes
    after them is one entry for each [plan_step] and [start_step] called,
    in the order of the calls. *)
Theorem calls_only_add_entries ops : ∀ self env self' env',
  apply_ops ops self env = (self', env') →
  header self' = header self
  ∧ ∃ updated more,
      d_steps (data self') = updated ++ more
      ∧ Forall2 same_entry (d_steps (data self)) updated
      ∧ e_step <$> more = entered_steps ops.
Proof.
  induction ops as [|o ops IH]; intros self env self' env'; simpl.
  - intros [= <- <-]. split; [done|].
    exists (d_steps (data self)), []. rewrite app_nil_r.
    split_and!; [done|apply Forall2_same_refl|done].
  - destruct (apply_op o self env) as [[r self1] env1] eqn:Hop.
    intros Hrest. apply IH in Hrest as (Hheader & updated' & more' & Hsteps' & Hsame' & Hmore').
    apply apply_op_keeps in Hop as (Hheader1 & updated & more & Hsteps & Hsame & Hmore).
    split; [congruence|].
    rewrite Hsteps in Hsame'.
    apply Forall2_app_inv_l in Hsame' as (u1 & u2 & Hu1 & Hu2 & ->).
    exists u1, (u2 ++ more'). split_and!.
    + by rewrite Hsteps', <- app_assoc.
    + eapply Forall2_trans; [apply same_entry_trans|exact Hsame|exact Hu1].
    + rewrite fmap_app, Hmore'.
      assert (e_step <$> u2 = e_step <$> more) as ->.
      { clear -Hu2. induction Hu2 as [|e e' ? ? [Hstep _] _ IH]; [done|].
        by rewrite !fmap_cons, Hstep, IH. }
      rewrite Hmore. unfold entered_steps. simpl. by destruct o.
Qed.

Lemma tracked_keep steps active entry :
  tracked steps active → tracked (steps ++ [entry]) active.
Proof.
  intros [Hnodup Hentry]. split; [done|].
  intros k Hk. destruct (Hentry k Hk) as (e & Hin & He). exists e. split; [|done].
  apply elem_of_app. by left.
Qed.

Lemma tracked_start steps active step t entry :
  e_step entry = step → recorded entry →
  tracked steps active → tracked (steps ++ [entry]) (dict_set step t active).
Proof.
  intros Hstep Hrec [Hnodup Hentry]. split; [by apply dict_set_NoDup|].
  intros k [->|Hk]%dict_set_keys.
  - exists entry. split; [|done]. apply elem_of_app. right. by apply list_elem_of_singleton.
  - destruct (Hentry k Hk) as (e & Hin & He). exists e. split; [|done].
    apply elem_of_app. by left.
Qed.

Lemma tracked_close steps active step i ei (f : StepEntry → StepEntry) :
  (∀ e, e_step (f e) = e_step e) →
  tracked steps active →
  steps !! i = Some ei → e_step ei = step →
  tracked (alter f i steps) (dict_pop step active).2.
Proof.
  intros Hf [Hnodup Hentry] Hi Hstep. split; [by apply dict_pop_NoDup|].
  intros k [Hne Hk]%dict_pop_keys; [|done].
  destruct (Hentry k Hk) as (e & (j & Hj)%list_elem_of_lookup_1 & He & Hrec).
  exists e. split; [|done]. apply list_elem_of_lookup. exists j.
  rewrite list_lookup_alter_ne; [done|]. intros ->. congruence.
Qed.

Lemma fail_pending_total finished message pending : ∀ steps,
  (∀ k, k ∈ pending.*1 → ∃ e, e ∈ steps ∧ e_step e = k ∧ recorded e) →
  ∃ steps', fail_pending finished message pending steps = (Returned (), [], steps').
Proof.
  induction pending as [|[k t] rest IH]; intros steps Hentry; simpl; [by eexists|].
  destruct (_find_step_entry k steps) as [i|exc] eqn:Hfind; cycle 1.
  { destruct (Hentry k) as (e & Hin & He); [set_solver|].
    by destruct (find_Raised _ _ _ _ Hfind Hin). }
  destruct (find_Returned _ _ _ Hfind) as (ei & Hi & Hki & Hri).
  apply IH. intros k' Hk'.
  destruct (Hentry k') as (e & (j & Hj)%list_elem_of_lookup_1 & Hek & Hrk); [set_solver|].
  destruct (decide (j = i)) as [->|Hne].
  - exists (fail_entry finished t message ei). assert (e = ei) as -> by congruence.
    split; [|split; [done | by apply recorded_failed]].
    apply list_elem_of_lookup. exists i. by rewrite list_lookup_alter_eq, Hi.
  - exists e. split; [|done]. apply list_elem_of_lookup. exists j.
    by rewrite list_lookup_alter_ne.
Qed.

Lemma finish_tracked status message self env :
  tracked (d_steps (data self)) (_active_starts self) →
  ∃ self',
    finish status message self env
    = ((_write self' (now env).2).1, self', (_write self' (now env).2).2)
    ∧ _active_starts self' = []
    ∧ d_status (data self') = status
    ∧ d_finished_at (data self') = Some (_fmt (clock env (ticks env))).
Proof.
  intros [Hnodup Hentry]. unfold finish. simpl.
  destruct (fail_pending_total (clock env (ticks env)) message
              (reverse (_active_starts self)) (d_steps (data self))) as (steps' & ->).
  { intros k Hk. apply Hentry. by rewrite fmap_reverse, elem_of_reverse in Hk. }
  match goal with
  | |- context [_write ?s ?e] => exists s; destruct (_write s e) as [r1 env2] eqn:Hw
  end.
  done.
Qed.

Lemma apply_op_tracked o self env r self' env' :
  tracked (d_steps (data self)) (_active_starts self) →
  apply_op o self env = (r, self', env') →
  tracked (d_steps (data self')) (_active_starts self').
Proof.
  intros Htracked.
  assert (∀ step status message,
    complete_step step status message self env = (r, self', env') →
    tracked (d_steps (data self')) (_active_starts self')) as Hcomplete.
  { intros step status message. unfold complete_step. simpl.
    destruct (_find_step_entry step (d_steps (data self))) as [i|exc] eqn:Hfind; cycle 1.
    { by intros [= <- <- <-]. }
    destruct (find_Returned _ _ _ Hfind) as (ei & Hi & Hki & Hri).
    destruct (dict_pop step (_active_starts self)) as [start_time active] eqn:Hpop.
    match goal with |- context [_write ?s ?e] => destruct (_write s e) as [r1 env2] end.
    intros [= <- <- <-]. simpl.
    replace active with (dict_pop step (_active_starts self)).2 by by rewrite Hpop.
    by eapply tracked_close. }
  destruct o as [step|step|step status message|step message|status message]; simpl.
  - unfold plan_step. simpl.
    match goal with |- context [_write ?s ?e] => destruct (_write s e) as [r1 env2] end.
    intros [= <- <- <-]. simpl. by apply tracked_keep.
  - unfold start_step. simpl.
    match goal with |- context [_write ?s ?e] => destruct (_write s e) as [r1 env2] end.
    intros [= <- <- <-]. simpl. apply tracked_start; [done| |done].
    by apply recorded_running.
  - apply Hcomplete.
  - apply Hcomplete.
  - destruct (finish_tracked status message self env Htracked) as (self1 & -> & Hactive & _).
    intros [= <- <- <-]. rewrite Hactive. split; [constructor|]. set_solver.
Qed.

Lemma apply_ops_tracked ops : ∀ self env self' env',
  tracked (d_steps (data self)) (_active_starts self) →
  apply_ops ops self env = (self', env') →
  tracked (d_steps (data self')) (_active_starts self').
Proof.
  induction ops as [|o ops IH]; intros self env self' env' Htracked; simpl.
  - by intros [= <- <-].
  - destruct (apply_op o self env) as [[r self1] env1] eqn:Hop.
    apply IH. by eapply apply_op_tracked.
Qed.

(** X16. On a [ProgressLog] that was built and then used through its
    methods in any way, [finish] finds the entry of every step it still
    has to fail: it never raises the [KeyError] of [_find_step_entry].
    It sets the status and the finish time, empties the pending starts
    and ends with the write, so that it raises only what the write
    raises, and returns when no file operation fails. *)
Theorem finish_fails_only_on_write path session dry_run run_order started_at env0 self0 env
    ops self1 env1 status message r self2 env2 :
  ProgressLog_init path session dry_run run_order started_at env0 = (Returned self0, env) →
  apply_ops ops self0 env = (self1, env1) →
  finish status message self1 env1 = (r, self2, env2) →
  (r, env2) = _write self2 (now env1).2
  ∧ _active_starts self2 = []
  ∧ d_status (data self2) = status
  ∧ d_finished_at (data self2) = Some (_fmt (clock env1 (ticks env1)))
  ∧ (calm env1 → r = Returned ()).
Proof.
  rewrite ProgressLog_init_eq. intros Hinit Hops Hfinish.
  assert (tracked (d_steps (data self0)) (_active_starts self0)) as Htracked0.
  { destruct started_at as [dt|]; simpl in Hinit;
      match type of Hinit with
      | context [_write ?s ?e] => destruct (_write s e) as [[[]|] ?]
      end; try discriminate Hinit; injection Hinit as <- <-;
      (split; [constructor|set_solver]). }
  pose proof (apply_ops_tracked _ _ _ _ _ Htracked0 Hops) as Htracked1.
  destruct (finish_tracked status message self1 env1 Htracked1)
    as (self' & Heq & Hactive & Hstatus & Hfinished).
  rewrite Heq in Hfinish. injection Hfinish as <- <- <-.
  split_and!; [symmetry; apply surjective_pairing|done..|].
  intros Hcalm.
  destruct (_write_calm self' (now env1).2) as (env' & Hw & _); [by apply calm_now|].
  exact (f_equal fst Hw).
Qed.

Lemma dict_pop_set {V} k (v : V) d : (dict_pop k (dict_set k v d)).1 = Some v.
Proof.
  induction d as [|[k' v'] d IH]; simpl.
  - by rewrite decide_True.
  - destruct (decide (k = k')) as [->|Hne]; simpl.
    + by rewrite decide_True.
    + rewrite decide_False by done. by destruct (dict_pop k (dict_set k v d)).
Qed.

Lemma find_nothing step steps :
  (∀ e, e ∈ steps → e_step e = step → e_status e ∉ recorded_statuses) →
  _find_step_entry step steps
  = Raised (Exn "KeyError" (repr ("No step entry recorded for " +:+ repr step))).
Proof.
  intros Hnone. unfold _find_step_entry.
  replace (list_find (λ entry, e_step entry = step ∧ e_status entry ∈ recorded_statuses)
                     (reverse steps)) with (@None (nat * StepEntry)); [done|].
  symmetry. apply list_find_None, Forall_forall.
  intros e Hin [Hstep Hrec]. rewrite elem_of_reverse in Hin. by apply (Hnone e Hin Hstep).
Qed.

(** X17. [complete_step] and [fail_step] close only a step that has been
    started: for a step with no entry, or with entries that are all
    planned ones, they raise the [KeyError] of [_find_step_entry], write
    nothing and leave the object as it was. *)
Theorem completing_needs_a_started_entry step status message self env :
  (∀ e, e ∈ d_steps (data self) → e_step e = step → e_status e ∉ recorded_statuses) →
  let raised :=
    Raised (Exn "KeyError" (repr ("No step entry recorded for " +:+ repr step))) in
  complete_step step status message self env = (raised, self, (now env).2)
  ∧ fail_step step message self env = (raised, self, (now env).2)
  ∧ fs (now env).2 = fs env
  ∧ observable (now env).2 = observable env.
Proof.
  intros Hnone raised. unfold fail_step, complete_step. simpl.
  by rewrite (find_nothing _ _ Hnone).
Qed.

(** X18. [start_step] followed by [complete_step] for the same step leaves
    one more entry, the last one: completed, started and finished at the
    times of the two calls, with the duration between them; the step is
    the last completed one and is pending no more. This holds for any
    entries before, also entries of the same step, and whether or not the
    two writes went through. *)
Theorem start_then_complete step self env r1 self1 env1 r2 self2 env2 :
  NoDup (_active_starts self).*1 →
  start_step step self env = (r1, self1, env1) →
  complete_step step "completed" None self1 env1 = (r2, self2, env2) →
  let started := clock env (ticks env) in
  let finished := clock env1 (ticks env1) in
  d_steps (data self2)
  = d_steps (data self)
    ++ [mkEntry step "completed" None (Some (_fmt started)) (Some (_fmt finished))
                (Some (duration_seconds finished started)) None]
  ∧ d_last_completed_step (data self2) = Some step
  ∧ (step ∉ (_active_starts self2).*1)
  ∧ (∀ k, k ≠ step → k ∈ (_active_starts self2).*1 ↔ k ∈ (_active_starts self).*1).
Proof.
  intros Hnodup. unfold start_step. simpl.
  match goal with |- context [_write ?s ?e] => destruct (_write s e) as [r env'] end.
  intros [= <- <- <-]. unfold complete_step. simpl.
  rewrite find_last by (done || by apply recorded_running).
  pose proof (dict_pop_set step (clock env (ticks env)) (_active_starts self)) as Hpop.
  pose proof (dict_pop_keys step (dict_set step (clock env (ticks env)) (_active_starts self))
                (dict_set_NoDup _ _ _ Hnodup)) as Hkeys.
  destruct (dict_pop step (dict_set step (clock env (ticks env)) (_active_starts self)))
    as [start_time active].
  simpl in Hpop, Hkeys. subst start_time.
  match goal with |- context [_write ?s ?e] => destruct (_write s e) as [r0 env0] end.
  intros [= <- <- <-]. simpl.
  split_and!.
  - replace (length (d_steps (data self))) with (length (d_steps (data self)) + 0)%nat by lia.
    by rewrite alter_app_r.
  - done.
  - intros Hin. by apply Hkeys in Hin as [? _].
  - intros k Hne. rewrite Hkeys, dict_set_keys. tauto.
Qed.
End Whatever.

(** ** The runner: what a run keeps *)

Lemma steady_refl st : steady st st.
Proof. unfold steady. by destruct (progress st). Qed.

Lemma steady_trans st1 st2 st3 : steady st1 st2 → steady st2 st3 → steady st1 st3.
Proof.
  unfold steady. intros (-> & -> & H12) (-> & -> & H23). split_and!; [done..|].
  destruct (progress st1), (progress st2), (progress st3); try done. congruence.
Qed.

Section Steady.
Context `{!Library} `{!StepHandlers}.

Lemma apply_op_header o self env r self' env' :
  apply_op o self env = (r, self', env') → header self' = header self.
Proof. intros Hop. by apply apply_op_keeps in Hop as [? _]. Qed.

Lemma method_steady attr o st r st' :
  method attr (apply_op o) st = (r, st') → steady st st'.
Proof.
  unfold method, steady. destruct (progress st) as [self|] eqn:Hprog.
  - destruct (apply_op o self (world st)) as [[r1 self1] env1] eqn:Hop.
    intros [= <- <-]. cbn. split_and!; [done..|]. by apply apply_op_header in Hop.
  - intros [= <- <-]. by rewrite Hprog.
Qed.

Lemma info_steady msg st r st' : info msg st = (r, st') → r = Returned () ∧ steady st st'.
Proof.
  unfold info. intros [= <- <-]. split; [done|].
  unfold steady. cbn. by destruct (progress st).
Qed.

Lemma invoke_steady config step st r st' : invoke config step st = (r, st') → steady st st'.
Proof.
  unfold invoke. destruct (STEP_FUNCTIONS !! step) as [h|].
  - destruct (call h config (world st)) as [r1 env1]. intros [= <- <-].
    unfold steady. cbn. by destruct (progress st).
  - intros [= <- <-]. apply steady_refl.
Qed.

Lemma plan_steps_steady run_order : ∀ st r st',
  plan_steps run_order st = (r, st') → steady st st'.
Proof.
  induction run_order as [|step rest IH]; intros st r st'; cbn [plan_steps].
  { intros [= <- <-]. apply steady_refl. }
  change (plan_step step) with (apply_op (PlanStep step)).
  intros [([] & st1 & H1 & Hrun) | (e & H1 & ->)]%Run_bind_inv;
    apply method_steady in H1; [|done].
  apply Run_bind_inv in Hrun as [([] & st2 & H2 & Hrun) | (e & H2 & _)];
    apply info_steady in H2 as [? H2]; [|done].
  apply IH in Hrun. eauto using steady_trans.
Qed.

Lemma run_steps_steady config run_order : ∀ st r st',
  run_steps config run_order st = (r, st') → steady st st'.
Proof.
  induction run_order as [|step rest IH]; intros st r st'; cbn [run_steps].
  { intros [= <- <-]. apply steady_refl. }
  change (start_step step) with (apply_op (StartStep step)).
  change (complete_step step "completed" None)
    with (apply_op (CompleteStep step "completed" None)).
  intros [([] & st1 & H1 & Hrun) | (e & H1 & _)]%Run_bind_inv; [|done].
  assert (steady st st1) as Hs1.
  { injection H1 as <-. unfold steady. cbn. by destruct (progress st). }
  apply Run_bind_inv in Hrun as [([] & st2 & H2 & Hrun) | (e & H2 & ->)];
    apply method_steady in H2; [|eauto using steady_trans].
  apply Run_bind_inv in Hrun as [([] & st3 & H3 & Hrun) | (e & H3 & ->)];
    apply invoke_steady in H3; [|eauto using steady_trans].
  apply Run_bind_inv in Hrun as [([] & st4 & H4 & Hrun) | (e & H4 & ->)];
    apply method_steady in H4; [|eauto using steady_trans].
  apply IH in Hrun. eauto using steady_trans.
Qed.

Lemma run_tail_steady config run_order dry_run st r st' :
  run_tail config run_order dry_run st = (r, st') → steady st st'.
Proof.
  unfold run_tail.
  change (finish "dry_run" None) with (apply_op (Finish "dry_run" None)).
  change (finish "completed" None) with (apply_op (Finish "completed" None)).
  destruct dry_run.
  - intros [([] & st1 & H1 & Hrun) | (e & H1 & ->)]%Run_bind_inv;
      apply plan_steps_steady in H1; [|done].
    apply Run_bind_inv in Hrun as [([] & st2 & H2 & Hrun) | (e & H2 & ->)];
      apply method_steady in H2; [|eauto using steady_trans].
    apply info_steady in Hrun as [_ Hrun]. eauto using steady_trans.
  - intros [([] & st1 & H1 & Hrun) | (e & H1 & ->)]%Run_bind_inv;
      apply run_steps_steady in H1; [|done].
    apply Run_bind_inv in Hrun as [([] & st2 & H2 & Hrun) | (e & H2 & ->)];
      apply method_steady in H2; [|eauto using steady_trans].
    apply info_steady in Hrun as [_ Hrun]. eauto using steady_trans.
Qed.

Lemma on_exception_steady exc st : steady st (on_exception exc st).
Proof.
  unfold on_exception, best_effort. destruct (progress st) eqn:Hprog; [|apply steady_refl].
  change (finish "failed" (Some (exn_str exc)))
    with (apply_op (Finish "failed" (Some (exn_str exc)))).
  destruct (current_step st) as [step|].
  - change (fail_step step (Some (exn_str exc)))
      with (apply_op (FailStep step (Some (exn_str exc)))).
    destruct (method "fail_step" (apply_op (FailStep step (Some (exn_str exc)))) st)
      as [r1 st1] eqn:H1. cbn [snd].
    destruct (method "finish" (apply_op (Finish "failed" (Some (exn_str exc)))) st1)
      as [r2 st2] eqn:H2. cbn [snd].
    apply method_steady in H1, H2. eauto using steady_trans.
  - destruct (method "finish" (apply_op (Finish "failed" (Some (exn_str exc)))) st)
      as [r2 st2] eqn:H2. cbn [snd].
    by apply method_steady in H2.
Qed.

(** How [run_body] gets to the steps: it fails before the recorder is
    built, or with the recorder built and the log file not opened, or it
    goes on with the recorder of [session_of] and the log file attached. *)
Lemma run_body_cases config run_order dry_run env r st' :
  run_body config run_order dry_run (initial env) = (r, st') →
  (∃ e, r = Raised e ∧ ¬ calm env
        ∧ progress st' = None ∧ log_handler st' = None ∧ logger_files st' = []
        ∧ invoked st' = [] ∧ current_step st' = None)
  ∨ (∃ e, r = Raised e ∧ ¬ calm env
          ∧ progress st' = Some (session_of config run_order dry_run env)
          ∧ log_handler st' = None ∧ logger_files st' = []
          ∧ invoked st' = [] ∧ current_step st' = None)
  ∨ (∃ st1,
       progress st1 = Some (session_of config run_order dry_run env)
       ∧ log_handler st1 = Some (log_path_of config dry_run env)
       ∧ logger_files st1 = [log_path_of config dry_run env]
       ∧ invoked st1 = [] ∧ current_step st1 = None
       ∧ (calm env → calm (world st1))
       ∧ run_tail config run_order dry_run st1 = (r, st')).
Proof.
  unfold run_body.
  (* log_dir.mkdir *)
  intros [([] & st1 & Hio1 & Hrun) | (e & Hio1 & ->)]%Run_bind_inv;
    apply lift_inv in Hio1 as (env1 & Hio1 & ->); cbn [world initial] in Hio1.
  2:{ left. exists e. split; [done|]. split; [|done].
      intros Hcalm.
      destruct (mkdir_calm (root config // "outputs" // "run_history") env Hcalm)
        as (? & Hok & _). congruence. }
  assert ((calm env → calm env1) ∧ clock env1 (ticks env1) = clock env (ticks env))
    as [Hc1 Hclock].
  { unfold mkdir, next_io in Hio1. split.
    - intros Hcalm. rewrite Hcalm in Hio1. simpl in Hio1. by injection Hio1 as <-.
    - destruct (faults env (io_calls env)); simpl in Hio1; [|done..].
      by injection Hio1 as <-. }
  (* datetime.now() *)
  apply Run_bind_inv in Hrun as [(start_time & st2 & Hio2 & Hrun) | (e & Hio2 & _)];
    apply lift_inv in Hio2 as (env2 & Hio2 & ->); [|done].
  cbn [world set_world] in Hio2. injection Hio2 as <- <-. rewrite Hclock in Hrun.
  fold (session_name_of dry_run env) in Hrun.
  (* ProgressLog(...) *)
  apply Run_bind_inv in Hrun as [(self & st3 & Hio3 & Hrun) | (e & Hio3 & ->)];
    apply lift_inv in Hio3 as (env3 & Hio3 & ->); cbn [world set_world] in Hio3.
  2:{ left. exists e. split; [done|]. split; [|done].
      intros Hcalm.
      match type of Hio3 with ProgressLog_init ?p ?s ?d ?o (Some ?t) ?e = _ =>
        destruct (ProgressLog_init_calm p s d o t e) as (? & Hok & _) end;
        [by apply calm_now, Hc1|]. congruence. }
  match type of Hio3 with ProgressLog_init ?p ?s ?d ?o (Some ?t) ?e = _ =>
    assert (self = new_log p s d o t ∧ (calm env → calm env3)) as [-> Hc3] end.
  { rewrite ProgressLog_init_eq in Hio3. cbv zeta in Hio3.
    match type of Hio3 with context [_write ?s ?e] =>
      pose proof (_write_calm s e) as Hw;
      destruct (_write s e) as [[[]|exc] env'] end; [|done].
    injection Hio3 as <- <-. split; [done|]. intros Hcalm.
    destruct Hw as (? & Hw & ?); [by apply calm_now, Hc1|]. congruence. }
  fold (session_of config run_order dry_run env) in Hrun |- *.
  (* progress = ... *)
  apply Run_bind_inv in Hrun as [([] & st4 & Hio4 & Hrun) | (e & Hio4 & _)]; [|done].
  injection Hio4 as <-.
  (* logging.FileHandler(log_path) *)
  apply Run_bind_inv in Hrun as [([] & st5 & Hio5 & Hrun) | (e & Hio5 & ->)];
    apply lift_inv in Hio5 as (env5 & Hio5 & ->); cbn [world set_world] in Hio5.
  2:{ right. left. exists e. split; [done|]. split; [|done].
      intros Hcalm. unfold open_append, next_io in Hio5. rewrite (Hc3 Hcalm) in Hio5.
      simpl in Hio5. by destruct (fs env3 !! _). }
  assert (calm env → calm env5) as Hc5.
  { intros Hcalm. unfold open_append, next_io in Hio5. rewrite (Hc3 Hcalm) in Hio5.
    simpl in Hio5. destruct (fs env3 !! _); injection Hio5 as <-; by apply Hc3. }
  (* addHandler, the first log record *)
  apply Run_bind_inv in Hrun as [([] & st6 & Hio6 & Hrun) | (e & Hio6 & _)]; [|done].
  injection Hio6 as <-.
  apply Run_bind_inv in Hrun as [([] & st7 & Hio7 & Hrun) | (e & Hio7 & _)]; [|done].
  injection Hio7 as <-.
  right. right. eexists. split_and!; cycle 6.
  { exact Hrun. }
  all: try reflexivity.
  intros Hcalm. cbn [world set_world]. by apply calm_log_record, Hc5.
Qed.
End Steady.

Section Sessions.
Context `{!Library} `{!StepHandlers}.

Lemma steady_progress st st' self :
  steady st st' → progress st = Some self →
  ∃ self', progress st' = Some self' ∧ header self' = header self.
Proof.
  intros (_ & _ & Hprog) Hself. rewrite Hself in Hprog.
  destruct (progress st') as [self'|]; [|done]. by exists self'.
Qed.

Lemma steady_none st st' : steady st st' → progress st = None → progress st' = None.
Proof. intros (_ & _ & Hprog) Hnone. rewrite Hnone in Hprog. by destruct (progress st'). Qed.

Lemma run_order_session_ends config run_order dry_run env r st :
  run_order_session config run_order dry_run (initial env) = (r, st) →
  logger_files st = []
  ∧ (progress st = None
     ∨ ∃ self, progress st = Some self
         ∧ header self = header (session_of config run_order dry_run env)).
Proof.
  rewrite run_order_session_eq. cbv zeta.
  destruct (run_body config run_order dry_run (initial env)) as [r0 st0] eqn:Hbody.
  cbn [fst snd].
  set (st1 := match r0 with
              | Returned _ => st0
              | Raised exc => on_exception exc st0
              end).
  assert (steady st0 st1) as Hsteady.
  { subst st1. destruct r0; [apply steady_refl|apply on_exception_steady]. }
  destruct (detach st1) as [r1 st'] eqn:Hdetach. cbn [snd]. intros [= <- <-].
  apply detach_spec in Hdetach as (_ & -> & _ & _ & -> & _).
  apply run_body_cases in Hbody
    as [(e & _ & _ & Hprog & Hhandler & Hfiles & _)
       |[(e & _ & _ & Hprog & Hhandler & Hfiles & _)
        |(st2 & Hprog & Hhandler & Hfiles & _ & _ & _ & Htail)]].
  - destruct Hsteady as (Hh & Hf & Hp). split.
    + rewrite Hh, Hhandler. congruence.
    + left. rewrite Hprog in Hp. by destruct (progress st1).
  - split.
    + destruct Hsteady as (Hh & Hf & Hp). rewrite Hh, Hhandler. congruence.
    + right. by apply (steady_progress st0).
  - apply run_tail_steady in Htail.
    pose proof (steady_trans _ _ _ Htail Hsteady) as Hall. split.
    + destruct Hall as (Hh & Hf & Hp). rewrite Hh, Hhandler.
      rewrite Hf, Hfiles. rewrite filter_cons_False; [done|]. by intros ?.
    + right. by apply (steady_progress st2).
Qed.

(** X19. When [run] ends, in whatever way, the logger has no file handler
    left: nothing but its stream handler, as before the call. *)
Theorem log_handler_is_detached config selected_steps dry_run env r st :
  run config selected_steps dry_run env = (r, st) → logger_files st = [].
Proof.
  unfold run. destruct (resolve config selected_steps) as [run_order|selected_list|e].
  - intros Hrun. by apply run_order_session_ends in Hrun as [? _].
  - unfold warning. by intros [= <- <-].
  - by intros [= <- <-].
Qed.

Lemma session_name_not_latest dry_run env suffix :
  session_name_of dry_run env +:+ suffix ∉ reserved_names.
Proof.
  unfold session_name_of. rewrite !append_assoc, !append_cons. intros Hin.
  repeat (apply elem_of_cons in Hin as [Hin|Hin]; [discriminate Hin|]).
  by apply elem_of_nil in Hin.
Qed.

(** X20. The recorder that [run] leaves behind is the one of the session
    it opened: named run_ and the time of the start, with _dryrun after
    it for a dry run, writing to the file of that name with .json and to
    latest.json in outputs/run_history under the project root, and
    holding the run order and the dry-run flag of the call. The year of
    the name has the digits the year has, the other fields two each. The
    session file is named neither latest.json nor latest.json.tmp, which
    is what the atomic writes of the recorder need. *)
Theorem session_is_named_after_its_start config selected_steps dry_run env run_order r st self :
  resolve config selected_steps = Order run_order →
  run config selected_steps dry_run env = (r, st) →
  progress st = Some self →
  let history := root config // "outputs" // "run_history" in
  session self
  = "run_" +:+ strftime_compact (clock env (ticks env))
    +:+ (if dry_run then "_dryrun" else "")
  ∧ path self = history // (session self +:+ ".json")
  ∧ latest_path self = history // "latest.json"
  ∧ d_session (data self) = session self
  ∧ d_dry_run (data self) = dry_run
  ∧ d_started_at (data self) = _fmt (clock env (ticks env))
  ∧ d_run_order (data self) = run_order
  ∧ well_placed self.
Proof.
  intros Hresolve. unfold run. rewrite Hresolve. intros Hrun Hprog. cbv zeta.
  set (history := root config // "outputs" // "run_history").
  apply run_order_session_ends in Hrun as [_ [Hnone | (self' & Hself & Hheader)]];
    [congruence|].
  assert (self' = self) as -> by congruence.
  unfold header in Hheader. injection Hheader as Hp Hl Hs Hds Hdd Hdt Hdo.
  cbn in Hp, Hl, Hs, Hds, Hdd, Hdt, Hdo.
  fold (session_name_of dry_run env) in Hp, Hl, Hs, Hds |- *.
  fold history in Hp, Hl.
  split_and!; try congruence.
  - by rewrite Hl, parent_div.
  - split.
    + by rewrite Hp, Hl, !parent_div.
    + rewrite Hp, name_div. apply session_name_not_latest.
Qed.
End Sessions.

(** ** The runner: which steps ran *)

Section Resume.
Context `{!Library} `{!StepHandlers}.

Lemma start_step_last_completed step self env r self' env' :
  start_step step self env = (r, self', env') →
  d_last_completed_step (data self') = d_last_completed_step (data self).
Proof.
  unfold start_step. simpl.
  match goal with |- context [_write ?s ?e] => destruct (_write s e) as [r1 env2] end.
  by intros [= <- <- <-].
Qed.

Lemma complete_step_last_completed step status message self env r self' env' :
  complete_step step status message self env = (r, self', env') →
  d_last_completed_step (data self')
  = match _find_step_entry step (d_steps (data self)) with
    | Returned _ => if decide (status = "completed") then Some step
                    else d_last_completed_step (data self)
    | Raised _ => d_last_completed_step (data self)
    end.
Proof.
  unfold complete_step. simpl.
  destruct (_find_step_entry step (d_steps (data self))) as [i|exc].
  - destruct (dict_pop step (_active_starts self)) as [start_time active].
    match goal with |- context [_write ?s ?e] => destruct (_write s e) as [r1 env2] end.
    by intros [= <- <- <-].
  - by intros [= <- <- <-].
Qed.

Lemma finish_last_completed status message self env r self' env' :
  finish status message self env = (r, self', env') →
  d_last_completed_step (data self') = d_last_completed_step (data self).
Proof.
  unfold finish. simpl.
  destruct (fail_pending _ message (reverse (_active_starts self)) (d_steps (data self)))
    as [[r0 remaining] steps'].
  destruct r0 as [[]|exc].
  - match goal with |- context [_write ?s ?e] => destruct (_write s e) as [r1 env2] end.
    by intros [= <- <- <-].
  - by intros [= <- <- <-].
Qed.

Lemma on_exception_last_completed exc st self :
  progress st = Some self →
  ∃ self', progress (on_exception exc st) = Some self'
    ∧ d_last_completed_step (data self') = d_last_completed_step (data self).
Proof.
  intros Hprog. unfold on_exception, best_effort, method. rewrite Hprog.
  destruct (current_step st) as [step|].
  - cbn [progress world].
    destruct (fail_step step (Some (exn_str exc)) self (world st))
      as [[r1 self1] env1] eqn:Hfail. cbn [progress world snd].
    destruct (finish "failed" (Some (exn_str exc)) self1 env1)
      as [[r2 self2] env2] eqn:Hfinish. cbn [progress snd].
    exists self2. split; [done|].
    apply finish_last_completed in Hfinish. rewrite Hfinish.
    apply complete_step_last_completed in Hfail. rewrite Hfail.
    by destruct (_find_step_entry step (d_steps (data self))).
  - rewrite Hprog.
    destruct (finish "failed" (Some (exn_str exc)) self (world st))
      as [[r2 self2] env2] eqn:Hfinish. cbn [progress snd].
    exists self2. split; [done|]. by apply finish_last_completed in Hfinish.
Qed.

(** How the loop over the steps of a live run ends: the step functions of
    a prefix of the run order returned, the last of them is the last
    completed step, and the loop went on to the end, or was stopped by a
    file operation, or by the step function of the next step. *)
Lemma run_steps_resume config run_order : ∀ st r st' self,
  progress st = Some self →
  _active_starts self = [] →
  run_steps config run_order st = (r, st') →
  ∃ self' pre,
    progress st' = Some self'
    ∧ d_last_completed_step (data self')
      = from_option Some (d_last_completed_step (data self)) (last pre)
    ∧ ((pre `prefix_of` run_order
        ∧ invoked st' = invoked st ++ ok_calls pre
        ∧ (r = Returned () → pre = run_order))
       ∨ (∃ step exc,
            (pre ++ [step]) `prefix_of` run_order
            ∧ invoked st' = invoked st ++ ok_calls pre ++ [(step, Raised exc)]
            ∧ r = Raised exc)).
Proof.
  induction run_order as [|step rest IH]; intros st r st' self Hprog Hidle.
  { intros [= <- <-]. exists self, []. split; [done|]. split; [done|]. left.
    by rewrite app_nil_r. }
  cbn [run_steps].
  (* current_step = step *)
  intros [([] & st1 & Hio1 & Hrun) | (e & Hio1 & _)]%Run_bind_inv; [|done].
  injection Hio1 as <-.
  (* progress.start_step(step) *)
  apply Run_bind_inv in Hrun as [([] & st2 & Hio2 & Hrun) | (e & Hio2 & ->)];
    unfold method in Hio2; cbn [progress world] in Hio2; rewrite Hprog in Hio2;
    destruct (start_step step self (world st)) as [[r1 self1] env1] eqn:Hstart;
    injection Hio2 as -> <-;
    destruct (start_step_idle _ _ _ _ _ _ Hidle Hstart)
      as (t & entry & Hsteps1 & Hes & Hst & Hmsg & Hact1 & Hord1);
    pose proof (start_step_last_completed _ _ _ _ _ _ Hstart) as Hlast1.
  2:{ exists self1, []. split; [done|]. split; [done|]. left.
      split_and!; [apply prefix_nil|by rewrite app_nil_r|done]. }
  (* handler(self.config) *)
  apply Run_bind_inv in Hrun as [([] & st3 & Hio3 & Hrun) | (e & Hio3 & ->)];
    unfold invoke in Hio3; destruct (STEP_FUNCTIONS !! step) as [h|]; cbn [world] in Hio3;
    try discriminate Hio3;
    try destruct (call h config env1) as [r2 env2] eqn:Hcall;
    injection Hio3 as ? <-; subst.
  2:{ exists self1, []. split; [done|]. split; [done|]. right.
      exists (e_step entry), e. split_and!; [|done..].
      simpl. apply prefix_cons, prefix_nil. }
  2:{ exists self1, []. split; [done|]. split; [done|]. left.
      split_and!; [apply prefix_nil|by rewrite app_nil_r|done]. }
  (* progress.complete_step(step) *)
  assert (recorded entry) as Hrec by by apply recorded_running.
  apply Run_bind_inv in Hrun as [([] & st4 & Hio4 & Hrun) | (e & Hio4 & ->)];
    unfold method in Hio4; cbn [progress world] in Hio4;
    destruct (complete_step (e_step entry) "completed" None self1 env2)
      as [[r3 self3] env3] eqn:Hcomplete;
    injection Hio4 as -> <-;
    destruct (complete_step_last _ _ _ _ _ _ _ _ _ _ _ Hact1 Hsteps1 eq_refl Hrec Hcomplete)
      as (Hsteps3 & Hact3 & Hord3);
    pose proof (complete_step_last_completed _ _ _ _ _ _ _ _ Hcomplete) as Hlast3;
    rewrite Hsteps1, find_last in Hlast3 by done; cbn in Hlast3.
  2:{ exists self3, [e_step entry]. split; [done|]. split; [done|]. left.
      split_and!; [by apply prefix_cons, prefix_nil|done|done]. }
  (* the remaining steps *)
  eapply (IH _ _ _ self3) in Hrun; [|done|done].
  cbn [invoked] in Hrun.
  destruct Hrun as (self' & pre & Hprog' & Hlast' & Hcases).
  exists self', (e_step entry :: pre). split; [done|]. split.
  { rewrite Hlast', Hlast3, last_cons. by destruct (last pre). }
  destruct Hcases as [(Hpre & Hinv & Hall) | (s & exc & Hpre & Hinv & ->)].
  - left. split_and!; [by apply prefix_cons|by rewrite Hinv, <- app_assoc|].
    intros Hr. by rewrite (Hall Hr).
  - right. exists s, exc. split_and!; [by apply prefix_cons| |done].
    by rewrite Hinv, <- !app_assoc.
Qed.

Lemma run_order_session_resume config run_order env r st :
  run_order_session config run_order false (initial env) = (r, st) →
  (progress st = None ∧ invoked st = [] ∧ ∃ e, r = Raised e)
  ∨ ∃ self pre,
      progress st = Some self
      ∧ d_last_completed_step (data self) = last pre
      ∧ ((pre `prefix_of` run_order ∧ invoked st = ok_calls pre
          ∧ (r = Returned () → pre = run_order))
         ∨ (∃ step exc,
              (pre ++ [step]) `prefix_of` run_order
              ∧ invoked st = ok_calls pre ++ [(step, Raised exc)]
              ∧ r = after_closing st (Raised exc))).
Proof.
  rewrite run_order_session_eq. cbv zeta.
  destruct (run_body config run_order false (initial env)) as [r0 st0] eqn:Hbody.
  cbn [fst snd]. intros [= <- <-].
  set (st1 := match r0 with
              | Returned _ => st0
              | Raised exc => on_exception exc st0
              end).
  destruct (detach_keeps st1) as [-> ->].
  assert (∀ e, ∃ e', after_closing (detach st1).2 (Raised e) = Raised e') as Hraised.
  { intros e. unfold after_closing. destruct (close_error _); by eexists. }
  assert (invoked st1 = invoked st0) as Hinv.
  { subst st1. destruct r0; [done | apply invoked_on_exception]. }
  assert (∀ self, progress st0 = Some self →
            ∃ self', progress st1 = Some self'
              ∧ d_last_completed_step (data self') = d_last_completed_step (data self))
    as Hkeeps.
  { intros self Hself. subst st1. destruct r0; [by exists self|].
    by apply on_exception_last_completed. }
  rewrite Hinv.
  apply run_body_cases in Hbody
    as [(e & -> & _ & Hprog & _ & _ & Hnone & _)
       |[(e & -> & _ & Hprog & _ & _ & Hnone & _)
        |(st2 & Hprog & _ & _ & Hnone & _ & _ & Htail)]].
  - left. split_and!; [|done|apply Hraised].
    subst st1. unfold on_exception. by rewrite Hprog.
  - right. destruct (Hkeeps _ Hprog) as (self' & Hself' & Hlast').
    exists self', []. split; [done|]. split; [done|]. left.
    split_and!; [apply prefix_nil|done|by intros ?%after_closing_Returned].
  - unfold run_tail in Htail.
    apply Run_bind_inv in Htail as [([] & st3 & Hloop & Htail) | (e & Hloop & ->)];
      apply (run_steps_resume _ _ _ _ _ _ Hprog eq_refl) in Hloop
        as (self3 & pre & Hprog3 & Hlast3 & Hcases);
      rewrite Hnone in Hcases; cbn [app] in Hcases;
      assert (d_last_completed_step (data self3) = last pre) as Hlast
        by (rewrite Hlast3; cbn; by destruct (last pre));
      clear Hlast3; rename Hlast into Hlast3.
    + (* every step function returned *)
      destruct Hcases as [(Hpre & Hcalls & Hall) | (? & ? & _ & _ & [=])].
      specialize (Hall eq_refl). subst pre.
      assert (∃ self4, progress st0 = Some self4
                ∧ d_last_completed_step (data self4) = last run_order
                ∧ invoked st0 = ok_calls run_order) as (self4 & Hprog4 & Hlast4 & Hinv4).
      { apply Run_bind_inv in Htail as [([] & st4 & Hfin & Htail) | (e & Hfin & ->)].
        - injection Htail as <- <-. cbn [progress invoked set_world].
          pose proof (method_invoked _ _ _ _ _ Hfin) as [-> _].
          unfold method in Hfin. rewrite Hprog3 in Hfin.
          destruct (finish "completed" None self3 (world st3))
            as [[r4 self4] env4] eqn:Hfinish.
          injection Hfin as -> <-. cbn [progress].
          exists self4. split; [done|]. split; [|done].
          apply finish_last_completed in Hfinish. by rewrite Hfinish, Hlast3.
        - pose proof (method_invoked _ _ _ _ _ Hfin) as [-> _].
          unfold method in Hfin. rewrite Hprog3 in Hfin.
          destruct (finish "completed" None self3 (world st3))
            as [[r4 self4] env4] eqn:Hfinish.
          injection Hfin as -> <-. cbn [progress].
          exists self4. split; [done|]. split; [|done].
          apply finish_last_completed in Hfinish. by rewrite Hfinish, Hlast3. }
      right. destruct (Hkeeps _ Hprog4) as (self' & Hself' & Hlast').
      exists self', run_order. split; [done|]. split; [congruence|]. left.
      rewrite Hinv4. done.
    + (* the loop raised *)
      right. destruct (Hkeeps _ Hprog3) as (self' & Hself' & Hlast').
      exists self', pre. split; [done|]. split; [by rewrite Hlast', Hlast3|].
      destruct Hcases as [(Hpre & Hcalls & Hall) | (s & exc & Hpre & Hcalls & Heq)].
      * left. split_and!; [done|done|by intros ?%after_closing_Returned].
      * right. exists s, exc. by injection Heq as ->.
Qed.

(** X21. In a live run the step functions are called in the run order,
    each once, the next one only when the one before has returned: what
    was called is a prefix of the run order whose calls all returned but
    perhaps the last. When the last one raised, [run] raises what it
    raised if closing the log file succeeds, and the error of closing it
    if that fails. When [run] returns, the whole run order was called. *)
Theorem steps_run_in_order config selected_steps env run_order r st :
  resolve config selected_steps = Order run_order →
  run config selected_steps false env = (r, st) →
  ∃ pre,
    (pre `prefix_of` run_order ∧ invoked st = ok_calls pre
     ∧ (r = Returned () → pre = run_order))
    ∨ (∃ step exc,
         (pre ++ [step]) `prefix_of` run_order
         ∧ invoked st = ok_calls pre ++ [(step, Raised exc)]
         ∧ (close_error st = None → r = Raised exc)
         ∧ (∀ e, close_error st = Some e → r = Raised e)).
Proof.
  intros Hresolve. unfold run. rewrite Hresolve. intros Hrun.
  apply run_order_session_resume in Hrun
    as [(_ & Hnone & e & ->) | (self & pre & _ & _ & Hcases)].
  - exists []. left. split_and!; [apply prefix_nil|done|done].
  - exists pre. destruct Hcases as [Hok | (step & exc & Hpre & Hcalls & ->)]; [by left|].
    right. exists step, exc. split; [done|]. split; [done|]. unfold after_closing.
    split; [by intros ->|]. by intros e ->.
Qed.

(** X22. When a step function raised in a live run, the session names the
    step to resume after: last_completed_step is the step before the
    failing one in the run order, the last one whose function returned,
    and it is absent when the first step failed. *)
Theorem failed_run_keeps_last_completed config selected_steps env r st step exc :
  run config selected_steps false env = (r, st) →
  (step, Raised exc) ∈ invoked st →
  ∃ pre self,
    invoked st = ok_calls pre ++ [(step, Raised exc)]
    ∧ progress st = Some self
    ∧ d_last_completed_step (data self) = last pre.
Proof.
  unfold run.
  destruct (resolve config selected_steps) as [run_order|selected_list|e] eqn:Hresolve.
  - intros Hrun Hin.
    apply run_order_session_resume in Hrun
      as [(_ & Hnone & _) | (self & pre & Hprog & Hlast & Hcases)].
    { rewrite Hnone in Hin. by apply elem_of_nil in Hin. }
    destruct Hcases as [(_ & Hcalls & _) | (s & exc' & _ & Hcalls & _)];
      rewrite Hcalls in Hin.
    { by apply ok_calls_returned in Hin. }
    apply elem_of_app in Hin as [Hin | Hin%list_elem_of_singleton];
      [by apply ok_calls_returned in Hin|].
    injection Hin as -> ->. by exists pre, self.
  - unfold warning. intros [= <- <-] Hin. by apply elem_of_nil in Hin.
  - intros [= <- <-] Hin. by apply elem_of_nil in Hin.
Qed.
End Resume.

(** ** The runner: a run without failures *)

Lemma append_inj_l (a b c : string) : a +:+ b = a +:+ c → b = c.
Proof.
  induction a as [|ch a IH]; [done|]. rewrite !append_cons. intros [= Heq]. by apply IH.
Qed.

Section Success.
Context `{!Library} `{!StepHandlers}.

Lemma detach_world st :
  fs (world (detach st).2) = fs (world st)
  ∧ observable (world (detach st).2) = observable (world st)
  ∧ stderr (world (detach st).2) = stderr (world st).
Proof.
  destruct (detach st) as [r st'] eqn:Hdetach.
  by apply detach_spec in Hdetach as (_ & _ & _ & _ & _ & ? & ? & ? & _).
Qed.

Lemma start_step_calm step self env r self' env' :
  calm env → start_step step self env = (r, self', env') → r = Returned () ∧ calm env'.
Proof.
  intros Hcalm. unfold start_step. simpl.
  match goal with
  | |- context [_write ?s ?e] => destruct (_write_calm s e) as (env2 & -> & Hc2); [done|]
  end.
  by intros [= <- <- <-].
Qed.

Lemma complete_step_calm step status message self env r self' env' i :
  calm env →
  _find_step_entry step (d_steps (data self)) = Returned i →
  complete_step step status message self env = (r, self', env') →
  r = Returned () ∧ calm env'.
Proof.
  intros Hcalm Hfind. unfold complete_step. simpl. rewrite Hfind.
  destruct (dict_pop step (_active_starts self)) as [start_time active].
  match goal with
  | |- context [_write ?s ?e] => destruct (_write_calm s e) as (env2 & -> & Hc2); [done|]
  end.
  by intros [= <- <- <-].
Qed.

Lemma run_steps_calm config run_order : ∀ st self done,
  (∀ h env, calm env → ∃ env', call h config env = (Returned (), env') ∧ calm env') →
  Forall (λ step, is_Some (STEP_FUNCTIONS !! step)) run_order →
  progress st = Some self →
  calm (world st) →
  _active_starts self = [] →
  Forall2 completed_as done (d_steps (data self)) →
  ∃ st' self',
    run_steps config run_order st = (Returned (), st')
    ∧ progress st' = Some self'
    ∧ calm (world st')
    ∧ _active_starts self' = []
    ∧ Forall2 completed_as (done ++ run_order) (d_steps (data self')).
Proof.
  induction run_order as [|step rest IH];
    intros st self done Hcalls Hreg Hprog Hcalm Hidle Hdone.
  { exists st, self. rewrite app_nil_r. done. }
  apply Forall_cons in Hreg as [[h Hfun] Hreg].
  destruct (run_steps config (step :: rest) st) as [r st'] eqn:Hrun.
  cbn [run_steps] in Hrun.
  (* current_step = step *)
  apply Run_bind_inv in Hrun as [([] & st1 & Hio1 & Hrun) | (e & Hio1 & _)]; [|done].
  injection Hio1 as <-.
  (* progress.start_step(step) *)
  apply Run_bind_inv in Hrun as [([] & st2 & Hio2 & Hrun) | (e & Hio2 & ->)];
    unfold method in Hio2; cbn [progress world] in Hio2; rewrite Hprog in Hio2;
    destruct (start_step step self (world st)) as [[r1 self1] env1] eqn:Hstart;
    injection Hio2 as -> <-;
    destruct (start_step_calm _ _ _ _ _ _ Hcalm Hstart) as [Hr1 Hc1]; [|done].
  destruct (start_step_idle _ _ _ _ _ _ Hidle Hstart)
    as (t & entry & Hsteps1 & Hes & Hst & Hmsg & Hact1 & Hord1).
  (* handler(self.config) *)
  destruct (Hcalls h env1 Hc1) as (env2 & Hcall & Hc2).
  apply Run_bind_inv in Hrun as [([] & st3 & Hio3 & Hrun) | (e & Hio3 & ->)];
    unfold invoke in Hio3; rewrite Hfun in Hio3; cbn [world] in Hio3;
    rewrite Hcall in Hio3; [|done].
  injection Hio3 as <-.
  (* progress.complete_step(step) *)
  assert (recorded entry) as Hrec by by apply recorded_running.
  assert (_find_step_entry step (d_steps (data self1)) = Returned (length (d_steps (data self))))
    as Hfind by (rewrite Hsteps1; by apply find_last).
  apply Run_bind_inv in Hrun as [([] & st4 & Hio4 & Hrun) | (e & Hio4 & ->)];
    unfold method in Hio4; cbn [progress world] in Hio4;
    destruct (complete_step step "completed" None self1 env2)
      as [[r3 self3] env3] eqn:Hcomplete;
    injection Hio4 as -> <-;
    destruct (complete_step_calm _ _ _ _ _ _ _ _ _ Hc2 Hfind Hcomplete) as [Hr3 Hc3];
    [|done].
  destruct (complete_step_last _ _ _ _ _ _ _ _ _ _ _ Hact1 Hsteps1 Hes Hrec Hcomplete)
    as (Hsteps3 & Hact3 & Hord3).
  (* the remaining steps *)
  match type of Hrun with
  | run_steps _ _ ?s = _ =>
      destruct (IH s self3 (done ++ [step]) Hcalls Hreg eq_refl Hc3 Hact3)
        as (st5 & self5 & Hrest & Hprog5 & Hc5 & Hact5 & Hdone5)
  end.
  { rewrite Hsteps3. apply Forall2_app; [done|]. by repeat constructor. }
  rewrite Hrest in Hrun. injection Hrun as <- <-.
  exists st5, self5. split_and!; [done..|].
  by rewrite <- app_assoc in Hdone5.
Qed.

Lemma session_of_placed config run_order dry_run env self :
  header self = header (session_of config run_order dry_run env) →
  well_placed self
  ∧ path self ≠ latest_path self
  ∧ path self ≠ log_path_of config dry_run env
  ∧ latest_path self ≠ log_path_of config dry_run env.
Proof.
  unfold header. intros [= Hp Hl _ _ _ _ _]. cbn in Hp, Hl.
  unfold log_path_of, well_placed. rewrite Hp, Hl, !parent_div, name_div.
  split_and!.
  - done.
  - apply session_name_not_latest.
  - intros [_ Heq]%app_inj_tail. symmetry in Heq. revert Heq.
    unfold session_name_of. rewrite !append_assoc, !append_cons. done.
  - intros [_ Heq]%app_inj_tail. by apply append_inj_l in Heq.
  - intros [_ Heq]%app_inj_tail. revert Heq.
    unfold session_name_of. rewrite !append_assoc, !append_cons. done.
Qed.

(** X23. A live run in which no file operation fails and every step
    function returns does return: every step function of the run order
    was called, in order; the session holds one completed entry per step,
    in order, under the status completed, with the last step of the run
    order as last_completed_step; and the session file and latest.json
    hold the documents of that final state. *)
Theorem live_run_completes config selected_steps env run_order :
  resolve config selected_steps = Order run_order →
  calm env →
  (∀ h env, calm env → ∃ env', call h config env = (Returned (), env') ∧ calm env') →
  ∃ st self,
    run config selected_steps false env = (Returned (), st)
    ∧ invoked st = ok_calls run_order
    ∧ progress st = Some self
    ∧ Forall2 completed_as run_order (d_steps (data self))
    ∧ d_status (data self) = "completed"
    ∧ d_last_completed_step (data self) = last run_order
    ∧ fs (world st) !! path self = Some (session_document self)
    ∧ fs (world st) !! latest_path self = Some (latest_document self).
Proof.
  intros Hresolve Hcalm Hcalls.
  pose proof (resolve_registered _ _ _ Hresolve) as Hreg.
  unfold run. rewrite Hresolve.
  destruct (run_order_session config run_order false (initial env)) as [r st] eqn:Hrun.
  pose proof (run_order_session_resume _ _ _ _ _ Hrun) as Hresume.
  rewrite run_order_session_eq in Hrun. cbv zeta in Hrun.
  destruct (run_body config run_order false (initial env)) as [r0 st0] eqn:Hbody.
  cbn [fst snd] in Hrun. injection Hrun as <- <-.
  apply run_body_cases in Hbody
    as [(e & _ & Hnot & _) | [(e & _ & Hnot & _)
        | (st1 & Hprog1 & Hhandler1 & Hfiles1 & _ & _ & Hc1 & Htail)]];
    [done..|].
  specialize (Hc1 Hcalm). unfold run_tail in Htail.
  assert (Forall (λ step, is_Some (STEP_FUNCTIONS !! step)) run_order) as Hfuns.
  { eapply Forall_impl; [exact Hreg|]. by intros ? [? _]. }
  destruct (run_steps_calm config run_order st1 (session_of config run_order false env) []
              Hcalls Hfuns Hprog1 Hc1 eq_refl ltac:(constructor)) as
    (st2 & self2 & Hloop & Hprog2 & Hc2 & Hact2 & Hdone2).
  rewrite (Run_bind_ok _ _ _ _ _ Hloop) in Htail.
  pose proof (run_steps_steady _ _ _ _ _ Hloop) as Hsteady2.
  destruct (steady_progress _ _ _ Hsteady2 Hprog1) as (self2' & Hself2 & Hheader2).
  assert (self2' = self2) as -> by congruence.
  destruct (session_of_placed _ _ _ _ _ Hheader2) as (Hwp2 & _).
  (* progress.finish(status="completed") *)
  destruct (finish "completed" None self2 (world st2)) as [[r3 self3] env3] eqn:Hfinish.
  destruct (finish_idle _ _ _ _ _ _ _ Hact2 Hfinish)
    as (Hsteps3 & Hstatus3 & _ & _ & Hok3).
  destruct (Hok3 Hc2) as [-> Hc3].
  destruct (apply_op_atomic (Finish "completed" None) _ _ _ _ _ Hwp2 Hfinish)
    as (Hwp3 & new & _ & _ & Hpersisted).
  specialize (Hpersisted eq_refl).
  pose proof (apply_op_header (Finish "completed" None) _ _ _ _ _ Hfinish) as Hheader3.
  rewrite Hheader2 in Hheader3.
  destruct (session_of_placed _ _ _ _ _ Hheader3) as (_ & Hne & Hlog1 & Hlog2).
  assert (method "finish" (finish "completed" None) st2
          = (Returned (), mkRun env3 (Some self3) (current_step st2) (log_handler st2)
                                (logger_files st2) (invoked st2))) as Hfin.
  { unfold method. by rewrite Hprog2, Hfinish. }
  rewrite (Run_bind_ok _ _ _ _ _ Hfin) in Htail.
  unfold info in Htail. cbn [world logger_files set_world] in Htail.
  injection Htail as <- <-.
  destruct Hsteady2 as (Hh2 & Hf2 & _).
  set (st_end := set_world _ (log_record (logger_files st2) "INFO" "Run complete" env3))
    in *.
  assert (calm (world st_end)) as Hc4 by (by apply calm_log_record).
  assert (after_closing (detach st_end).2 (Returned ()) = Returned ()) as Hreturns
    by (by apply after_closing_calm, detach_calm).
  rewrite Hreturns in Hresume |- *.
  exists (detach st_end).2, self3.
  destruct Hresume as [(Hnone & _) | (self & pre & Hprog & Hlast & Hcases)].
  { by rewrite (proj2 (detach_keeps _)) in Hnone. }
  rewrite (proj2 (detach_keeps _)) in Hprog. cbn [progress] in Hprog.
  injection Hprog as <-.
  destruct Hcases as [(_ & Hinv & Hall) | (? & ? & _ & _ & Hraised)].
  2:{ symmetry in Hraised. by apply after_closing_Returned in Hraised. }
  specialize (Hall eq_refl). subst pre.
  destruct (detach_world st_end) as (Hfs & _).
  split_and!; try done.
  - by rewrite (proj2 (detach_keeps _)).
  - by rewrite Hsteps3.
  - rewrite Hfs. unfold st_end, set_world. cbn [world]. rewrite Hf2, Hfiles1.
    rewrite log_record_fs_other; [by apply Hpersisted|].
    by intros Hin%list_elem_of_singleton.
  - rewrite Hfs. unfold st_end, set_world. cbn [world]. rewrite Hf2, Hfiles1.
    rewrite log_record_fs_other; [by apply Hpersisted|].
    by intros Hin%list_elem_of_singleton.
Qed.
End Success.

(** ** Loading the configuration and the command line *)

Section CommandLine.
Context `{!Library} `{!StepHandlers} `{!Runtime}.

Lemma load_keeps path env r env' :
  load path env = (r, env') →
  fs env' = fs env ∧ observable env' = observable env ∧ stderr env' = stderr env
  ∧ clock env' = clock env ∧ ticks env' = ticks env.
Proof.
  unfold load. destruct (fs env !! resolve_user path) as [text|]; [|by intros [= <- <-]].
  unfold next_io. destruct (faults env (io_calls env)); [|by intros [= <- <-]..].
  destruct (safe_load text) as [document|msg]; [|by intros [= <- <-]].
  destruct (if truthy document then document else YMap []); try by intros [= <- <-].
  destruct (default (YStr ".") (dict_get "project_root" items)); by intros [= <- <-].
Qed.


Lemma is_ConfigError_ConfigError msg : is_ConfigError (ConfigError msg) = true.
Proof. done. Qed.

Lemma log_record_stderr level msg env :
  fs (log_record [] level msg env) = fs env
  ∧ observable (log_record [] level msg env) = observable env
  ∧ stderr (log_record [] level msg env)
    = stderr env ++ [format_record (clock env (ticks env)) level msg].
Proof. done. Qed.

(** X25. [main], given a selection with a name that is neither a step nor
    an alias, returns the exit status 1: no step function is called, no
    session is opened and no file is written; one ERROR line goes to the
    standard error stream, with a message that names every unknown
    token. *)
Theorem main_rejects_unknown_steps args env config env1 tokens :
  load (args_config args) env = (Returned config, env1) →
  args_list_steps args = false →
  args_steps args = Some tokens →
  unresolved (Some <$> tokens) ≠ [] →
  ∃ st msg,
    main args env = (Returned 1%Z, st)
    ∧ invoked st = [] ∧ progress st = None
    ∧ fs (world st) = fs env ∧ observable (world st) = observable env
    ∧ stderr (world st) = stderr env ++ [format_record (clock env (ticks env)) "ERROR" msg]
    ∧ Forall (λ token, occurs_in token msg) (unresolved (Some <$> tokens)).
Proof.
  intros Hload Hlist Hsteps Hunknown. unfold main.
  rewrite Hload, Hlist, Hsteps. cbn [selection_of].
  apply load_keeps in Hload as (Hfs & Hobs & Herr & Hclock & Hticks).
  unfold run. rewrite resolve_selection.
  destruct (unresolved (Some <$> tokens)) as [|token rest] eqn:Hlist'; [done|].
  rewrite is_ConfigError_ConfigError. cbn [exn_str ConfigError].
  unfold error. cbn [snd initial world logger_files set_world].
  eexists _, _. split; [done|]. unfold set_world, initial. cbn [invoked progress world].
  destruct (log_record_stderr "ERROR"
              ("Unknown step(s): " +:+ join ", " (token :: rest)) env1) as (-> & -> & ->).
  rewrite Hfs, Hobs, Herr, Hclock, Hticks. split_and!; try done.
  apply Forall_forall. intros step Hin. apply occurs_in_later. by apply join_occurs.
Qed.

(** X26. With --list-steps [main] runs nothing: it calls no step function,
    opens no session and writes no file. It returns 0 when the
    configuration loads and its steps are a mapping, and 1 when loading
    raises a [ConfigError]; the [ConfigError] of steps that are no
    mapping is not caught and leaves [main]. *)
Theorem main_lists_without_running args env r st :
  args_list_steps args = true →
  main args env = (r, st) →
  invoked st = [] ∧ progress st = None
  ∧ fs (world st) = fs env ∧ observable (world st) = observable env
  ∧ match load (args_config args) env with
    | (Returned config, _) =>
        match configured_steps config with
        | Returned _ => r = Returned 0%Z
        | Raised exc =>
            r = Raised (ConfigError "steps must be a mapping in the YAML configuration")
        end
    | (Raised exc, _) => if is_ConfigError exc then r = Returned 1%Z else r = Raised exc
    end.
Proof.
  intros Hlist. unfold main. rewrite Hlist.
  destruct (load (args_config args) env) as [[config|exc] env1] eqn:Hload;
    apply load_keeps in Hload as (Hfs & Hobs & _).
  - rewrite configured_steps_eq. unfold info, set_world, initial.
    cbn [snd world logger_files].
    destruct (get config ["steps"] (YMap [])); intros [= <- <-];
      cbn [invoked progress world logger_files];
      repeat match goal with
             | |- context [log_record [] ?l ?m ?e] =>
                 destruct (log_record_stderr l m e) as (-> & -> & _)
             end;
      done.
  - destruct (is_ConfigError exc); intros [= <- <-]; [|done].
    unfold error, set_world, initial. cbn [snd world logger_files invoked progress].
    destruct (log_record_stderr "ERROR" (exn_str exc) env1) as (-> & -> & _). done.
Qed.

Lemma close_error_OSError st e : close_error st = Some e → is_ConfigError e = false.
Proof.
  unfold close_error. destruct (log_handler st); [|done].
  by destruct (last_verdict (world st)); intros [= <-].
Qed.

(** X27. When a step function raises during a live run started by [main],
    the session is closed as failed. If closing the log file succeeds,
    [main] returns 1 when the exception is a [ConfigError] and lets it
    through otherwise; if closing the log file fails, the error of
    closing it leaves [main], also when the step function had raised a
    [ConfigError]. *)
Theorem main_after_a_failed_step args env config env1 r st step exc :
  load (args_config args) env = (Returned config, env1) →
  args_list_steps args = false →
  args_dry_run args = false →
  main args env = (r, st) →
  (step, Raised exc) ∈ invoked st →
  (close_error st = None → if is_ConfigError exc then r = Returned 1%Z else r = Raised exc)
  ∧ (∀ e, close_error st = Some e → r = Raised e)
  ∧ ∃ self, progress st = Some self ∧ d_status (data self) = "failed".
Proof.
  intros Hload Hlist Hdry. unfold main. rewrite Hload, Hlist, Hdry.
  destruct (run config (selection_of (args_steps args)) false env1) as [r1 st1] eqn:Hrun.
  assert ((step, Raised exc) ∈ invoked st1 →
          r1 = after_closing st1 (Raised exc)
          ∧ ∃ self, progress st1 = Some self ∧ d_status (data self) = "failed")
    as Hfailed.
  { revert Hrun. unfold run.
    destruct (resolve config (selection_of (args_steps args))) as [run_order|selected_list|e].
    - intros Hrun Hin.
      destruct (live_failure _ _ _ _ _ _ _ Hrun Hin)
        as (-> & pre & post & self & steps0 & entry & _ & _ & Hprog & _ & _ & _ & _ & _
            & Hstatus & _).
      split; [done|]. by exists self.
    - unfold warning. intros [= <- <-] Hin. by apply elem_of_nil in Hin.
    - intros [= <- <-] Hin. by apply elem_of_nil in Hin. }
  assert (∀ msg, close_error (set_world st1 (log_record (logger_files st1) "ERROR" msg
                                                       (world st1)))
                 = close_error st1) as Herror.
  { intros msg. unfold close_error, last_verdict, set_world.
    cbn [log_handler world]. destruct (log_handler st1); [|done].
    by rewrite faults_log_record, io_calls_log_record. }
  destruct r1 as [[]|exc1].
  - intros [= <- <-] Hin. destruct (Hfailed Hin) as [Habs _]. symmetry in Habs.
    by apply after_closing_Returned in Habs.
  - destruct (is_ConfigError exc1) eqn:Hcfg; intros [= <- <-] Hin.
    + unfold error in Hin. cbn [snd invoked set_world] in Hin.
      destruct (Hfailed Hin) as [Hr Hself]. rewrite Herror.
      unfold after_closing in Hr. destruct (close_error st1) as [e|] eqn:Hclose;
        injection Hr as ->.
      * apply close_error_OSError in Hclose. congruence.
      * rewrite Hcfg. split_and!; [done|done|]. exact Hself.
    + destruct (Hfailed Hin) as [Hr Hself].
      unfold after_closing in Hr. destruct (close_error st1) as [e|] eqn:Hclose;
        injection Hr as ->.
      * split_and!; [done|by intros ? [= ->]|done].
      * rewrite Hcfg. split_and!; done.
Qed.


(** X29. When the directory outputs/run_history cannot be made, [run]
    raises the error of the operating system and leaves no trace: no
    session, no log file, no step function called, no file written and
    nothing logged. *)
Theorem run_without_history_directory config selected_steps dry_run env run_order msg :
  resolve config selected_steps = Order run_order →
  faults env (io_calls env) = IoFailBefore msg →
  ∃ st,
    run config selected_steps dry_run env = (Raised (OSError msg), st)
    ∧ progress st = None ∧ invoked st = [] ∧ logger_files st = []
    ∧ fs (world st) = fs env ∧ observable (world st) = observable env
    ∧ stderr (world st) = stderr env
    ∧ ticks (world st) = ticks env.
Proof.
  intros Hresolve Hfault. unfold run. rewrite Hresolve.
  unfold run_order_session, run_body.
  assert (lift (mkdir (root config // "outputs" // "run_history")) (initial env)
          = (Raised (OSError msg),
             set_world (initial env)
               (mkEnv (fs env) (observable env) (clock env) (ticks env) (faults env)
                      (S (io_calls env)) (stderr env)))) as Hmkdir.
  { unfold lift, mkdir, next_io. cbn [world initial]. by rewrite Hfault. }
  unfold mbind at 1, Run_bind at 1. rewrite Hmkdir.
  eexists. split; [done|]. done.
Qed.
End CommandLine.

(** ** The code around the runner at work *)

Example split_whitespace_runs :
  split_whitespace "  FAM1  IND1 0 x " = ["FAM1"; "IND1"; "0"; "x"].
Proof. vm_compute. reflexivity. Qed.

Example fix_lines_of_ped_lines :
  @Steps.fix_lines sample_runtime "panel.ped" 1 ped_lines [] 0
  = (Raised (ConfigError
               "Line 3 in panel.ped is not a valid PED record (expected â‰¥6 columns)."),
     ["FAM1 IND1 0 0 2 -9 A C" +:+ newline]).
Proof. vm_compute. reflexivity. Qed.

Example subset_lines_keeps_header :
  Steps.subset_lines (Steps.selected_of [" snp2 " +:+ newline; newline]) 0
    ["Probe,a,b"; "snp1,0,1"; "snp2,1,1"; "snp2"]
  = ["Probe,a,b"; "snp2,1,1"; "snp2"].
Proof. vm_compute. reflexivity. Qed.

Example plink_pruning_writes_readme :
  let out := @Steps.plink_pruning sample_library sample_runtime legacy_ped_config
               (initial sample_env) in
  out.1 = Returned ()
  ∧ dom (fs (world out.2)) = {[ ["project"; "_README.txt"] ]}.
Proof. split; [vm_compute; reflexivity|]. apply (bool_decide_unpack _). vm_compute. exact I. Qed.

Example resolve_rscript_from_environment :
  @Steps._resolve_rscript sample_library sample_runtime (Some sample_config) sample_env
  = (Returned (YStr "/opt/R/bin/Rscript"), sample_env)
  ∧ @Steps._resolve_rscript sample_library sample_runtime
      (Some (mkConfig [("tools", YMap [("rscript_executable", YStr "bin/Rscript")])]
                      ["project"] ["project"; "config"; "pipeline.yaml"])) sample_env
    = (Returned (YStr "project/bin/Rscript"), sample_env).
Proof. split; vm_compute; reflexivity. Qed.

Example main_exit_statuses :
  (@main sample_library quiet_handlers sample_runtime
         (args_for false (Some ["pcoa"])) (env_with_config "")).1 = Returned 0%Z
  ∧ (@main sample_library quiet_handlers sample_runtime
           (args_for false (Some ["pcoa"])) (env_with_config "- a")).1 = Returned 1%Z
  ∧ (@main sample_library quiet_handlers sample_runtime
           (args_for true None) (env_with_config "steps: 3")).1
    = Raised (ConfigError "steps must be a mapping in the YAML configuration").
Proof. vm_compute. done. Qed.

(** ** The further theorems at concrete inputs *)

Lemma default_order_agrees_with_step_blocks_witness :
  configured_steps sample_config
  = Returned ["step01_filter_variants"; "step02_filter_mapped_snps"]
  ∧ ("step02_filter_mapped_snps", "filter_mapped_snps") ∈ STEP_SEQUENCE
  ∧ ("step02_filter_mapped_snps"
       ∈ ["step01_filter_variants"; "step02_filter_mapped_snps"]
     ↔ is_Some (_load_step_config sample_config "step02_filter_mapped_snps"
                                  (Some "filter_mapped_snps")).1).
Proof.
  assert (configured_steps sample_config
          = Returned ["step01_filter_variants"; "step02_filter_mapped_snps"]) as Horder
    by (vm_compute; reflexivity).
  assert (("step02_filter_mapped_snps", "filter_mapped_snps") ∈ STEP_SEQUENCE) as Hin
    by (apply (bool_decide_unpack _); vm_compute; exact I).
  split; [exact Horder|]. split; [exact Hin|].
  exact (default_order_agrees_with_step_blocks sample_config _ _ _ Horder Hin).
Defined.

Lemma legacy_block_of_fix_pruned_ped_witness :
  let steps_cfg := [("fix_pruned_ped", YMap [("input_ped", YStr "panel.ped")]);
                    ("plink_pruning", YMap [("panel_prefix", YStr "panel/pruned")])] in
  get legacy_ped_config ["steps"] (YMap []) = YMap steps_cfg
  ∧ block_exists steps_cfg "fix_pruned_ped" = true
  ∧ block_exists steps_cfg "step15_fix_pruned_ped" = false
  ∧ (∃ order, configured_steps legacy_ped_config = Returned order
              ∧ "step15_fix_pruned_ped" ∈ order)
  ∧ _load_step_config legacy_ped_config "step15_fix_pruned_ped" None
    = (None, "step15_fix_pruned_ped")
  ∧ is_Some (_load_step_config legacy_ped_config "step15_fix_pruned_ped"
                               (Some "fix_pruned_ped")).1.
Proof.
  intros steps_cfg.
  assert (get legacy_ped_config ["steps"] (YMap []) = YMap steps_cfg) as Hsteps
    by (vm_compute; reflexivity).
  assert (block_exists steps_cfg "fix_pruned_ped" = true) as Hlegacy
    by (vm_compute; reflexivity).
  assert (block_exists steps_cfg "step15_fix_pruned_ped" = false) as Hprimary
    by (vm_compute; reflexivity).
  split; [exact Hsteps|]. split; [exact Hlegacy|]. split; [exact Hprimary|].
  exact (legacy_block_of_fix_pruned_ped legacy_ped_config steps_cfg Hsteps Hlegacy Hprimary).
Defined.


Lemma fix_lines_output_witness :
  let out := @Steps.fix_lines sample_runtime "panel.ped" 1 ped_lines [] 0 in
  ∃ good rows,
    out.2 = [] ++ rows
    ∧ good `prefix_of` ped_lines
    ∧ Forall2 (λ raw row,
                 ∃ tokens,
                   (∀ k, @Steps.fix_tokens sample_runtime "panel.ped" k
                           (split_whitespace (strip raw)) = Returned tokens)
                   ∧ row = join " " tokens +:+ newline)
              (filter (λ raw, strip raw ≠ "") good) rows
    ∧ match out.1 with
      | Returned total' => good = ped_lines ∧ total' = (0 + length rows)%nat
      | Raised e =>
          ∃ bad, (good ++ [bad]) `prefix_of` ped_lines
            ∧ strip bad ≠ ""
            ∧ @Steps.fix_tokens sample_runtime "panel.ped" (1 + length good)
                                (split_whitespace (strip bad)) = Raised e
      end.
Proof.
  intros out.
  exact (@fix_lines_output sample_runtime "panel.ped" ped_lines 1 [] 0 out.1 out.2
           (surjective_pairing out)).
Defined.

Lemma run_order_is_registered_witness :
  resolve sample_config three_steps
  = Order ["step01_filter_variants"; "step02_filter_mapped_snps";
           "step03_filter_individuals"]
  ∧ Forall (λ step, is_Some (STEP_FUNCTIONS !! step)
                    ∧ step ∈ available_steps
                    ∧ default step (STEP_ALIASES !! step) = step)
           ["step01_filter_variants"; "step02_filter_mapped_snps";
            "step03_filter_individuals"].
Proof.
  assert (resolve sample_config three_steps
          = Order ["step01_filter_variants"; "step02_filter_mapped_snps";
                   "step03_filter_individuals"]) as Hresolve
    by (vm_compute; reflexivity).
  split; [exact Hresolve|].
  exact (run_order_is_registered sample_config three_steps _ Hresolve).
Defined.

Lemma run_order_selects_itself_witness :
  let run_order := ["step01_filter_variants"; "step02_filter_mapped_snps";
                    "step03_filter_individuals"] in
  resolve sample_config three_steps = Order run_order
  ∧ run_order ≠ []
  ∧ resolve sample_config (Some (Some <$> run_order)) = Order run_order.
Proof.
  intros run_order.
  assert (resolve sample_config three_steps = Order run_order) as Hresolve
    by (vm_compute; reflexivity).
  assert (run_order ≠ []) as Hne by discriminate.
  split; [exact Hresolve|]. split; [exact Hne|].
  exact (run_order_selects_itself sample_config three_steps run_order Hresolve Hne).
Defined.

Lemma calls_only_add_entries_witness :
  let after := @apply_ops sample_library interrupted_calls fresh_log after_build in
  header after.1 = header fresh_log
  ∧ ∃ updated more,
      d_steps (data after.1) = updated ++ more
      ∧ Forall2 same_entry (d_steps (data fresh_log)) updated
      ∧ e_step <$> more = entered_steps interrupted_calls.
Proof.
  intros after.
  exact (@calls_only_add_entries sample_library interrupted_calls fresh_log after_build
           after.1 after.2 (surjective_pairing after)).
Defined.

Lemma finish_fails_only_on_write_witness :
  let after := @apply_ops sample_library careless_calls fresh_log after_build in
  let closing := @finish sample_library "completed" None after.1 after.2 in
  (closing.1.1, closing.2) = @_write sample_library closing.1.2 (now after.2).2
  ∧ _active_starts closing.1.2 = []
  ∧ d_status (data closing.1.2) = "completed"
  ∧ d_finished_at (data closing.1.2) = Some (_fmt (clock after.2 (ticks after.2)))
  ∧ (calm after.2 → closing.1.1 = Returned ()).
Proof.
  intros after closing.
  exact (@finish_fails_only_on_write sample_library history_file "run_1" false
           ["step01_filter_variants"; "step02_filter_mapped_snps"] None sample_env
           fresh_log after_build careless_calls after.1 after.2
           "completed" None closing.1.1 closing.1.2 closing.2
           fresh_log_built (surjective_pairing after) (triple_eta closing)).
Defined.

Lemma completing_needs_a_started_entry_witness :
  let after := @apply_ops sample_library interrupted_calls fresh_log after_build in
  let raised :=
    Raised (Exn "KeyError"
              (@repr sample_library
                 ("No step entry recorded for "
                  +:+ @repr sample_library "step03_filter_individuals"))) in
  Forall (λ e, e_step e = "step03_filter_individuals" → e_status e ∉ recorded_statuses)
         (d_steps (data after.1))
  ∧ @complete_step sample_library "step03_filter_individuals" "completed" None
      after.1 after.2
    = (raised, after.1, (now after.2).2)
  ∧ @fail_step sample_library "step03_filter_individuals" (Some "late") after.1 after.2
    = (raised, after.1, (now after.2).2)
  ∧ fs (now after.2).2 = fs after.2
  ∧ observable (now after.2).2 = observable after.2.
Proof.
  intros after raised.
  assert (Forall (λ e, e_step e = "step03_filter_individuals"
                       → e_status e ∉ recorded_statuses)
                 (d_steps (data after.1))) as Hplanned
    by (apply (bool_decide_unpack _); vm_compute; exact I).
  split; [exact Hplanned|].
  pose proof (@completing_needs_a_started_entry sample_library
                "step03_filter_individuals" "completed" None after.1 after.2
                (λ e Hin, proj1 (Forall_forall _ _) Hplanned e Hin)) as Hcomplete.
  pose proof (@completing_needs_a_started_entry sample_library
                "step03_filter_individuals" "failed" (Some "late") after.1 after.2
                (λ e Hin, proj1 (Forall_forall _ _) Hplanned e Hin)) as Hfail.
  split; [exact (proj1 Hcomplete)|]. split; [exact (proj1 (proj2 Hfail))|].
  exact (proj2 (proj2 Hcomplete)).
Defined.

Lemma start_then_complete_witness :
  let starting := @start_step sample_library "step01_filter_variants"
                    fresh_log after_build in
  let closing := @complete_step sample_library "step01_filter_variants" "completed" None
                   starting.1.2 starting.2 in
  let started := clock after_build (ticks after_build) in
  let finished := clock starting.2 (ticks starting.2) in
  NoDup (_active_starts fresh_log).*1
  ∧ d_steps (data closing.1.2)
    = d_steps (data fresh_log)
      ++ [mkEntry "step01_filter_variants" "completed" None (Some (_fmt started))
                  (Some (_fmt finished))
                  (Some (@duration_seconds sample_library finished started)) None]
  ∧ d_last_completed_step (data closing.1.2) = Some "step01_filter_variants"
  ∧ ("step01_filter_variants" ∉ (_active_starts closing.1.2).*1)
  ∧ (∀ k, k ≠ "step01_filter_variants" →
       k ∈ (_active_starts closing.1.2).*1 ↔ k ∈ (_active_starts fresh_log).*1).
Proof.
  intros starting closing started finished.
  assert (NoDup (_active_starts fresh_log).*1) as Hnodup by constructor.
  split; [exact Hnodup|].
  exact (@start_then_complete sample_library "step01_filter_variants" fresh_log after_build
           starting.1.1 starting.1.2 starting.2 closing.1.1 closing.1.2 closing.2
           Hnodup (triple_eta starting) (triple_eta closing)).
Defined.

Lemma log_handler_is_detached_witness :
  logger_files (@run sample_library (failing_handlers boom)
                     sample_config three_steps false sample_env).2 = [].
Proof.
  exact (@log_handler_is_detached sample_library (failing_handlers boom) sample_config
           three_steps false sample_env _ _ (surjective_pairing _)).
Defined.

Lemma session_is_named_after_its_start_witness :
  let out := @run sample_library quiet_handlers sample_config three_steps true sample_env in
  let self := default fresh_log (progress out.2) in
  let history := root sample_config // "outputs" // "run_history" in
  resolve sample_config three_steps
  = Order ["step01_filter_variants"; "step02_filter_mapped_snps";
           "step03_filter_individuals"]
  ∧ progress out.2 = Some self
  ∧ session self = "run_" +:+ strftime_compact (clock sample_env (ticks sample_env))
                   +:+ "_dryrun"
  ∧ path self = history // (session self +:+ ".json")
  ∧ latest_path self = history // "latest.json"
  ∧ d_session (data self) = session self
  ∧ d_dry_run (data self) = true
  ∧ d_started_at (data self) = _fmt (clock sample_env (ticks sample_env))
  ∧ d_run_order (data self)
    = ["step01_filter_variants"; "step02_filter_mapped_snps"; "step03_filter_individuals"]
  ∧ well_placed self.
Proof.
  intros out self history.
  assert (resolve sample_config three_steps
          = Order ["step01_filter_variants"; "step02_filter_mapped_snps";
                   "step03_filter_individuals"]) as Hresolve
    by (vm_compute; reflexivity).
  assert (progress out.2 = Some self) as Hself by (vm_compute; reflexivity).
  split; [exact Hresolve|]. split; [exact Hself|].
  exact (@session_is_named_after_its_start sample_library quiet_handlers sample_config
           three_steps true sample_env _ out.1 out.2 self
           Hresolve (surjective_pairing out) Hself).
Defined.

Lemma steps_run_in_order_witness :
  let out := @run sample_library (failing_handlers boom)
                  sample_config three_steps false sample_env in
  let run_order := ["step01_filter_variants"; "step02_filter_mapped_snps";
                    "step03_filter_individuals"] in
  resolve sample_config three_steps = Order run_order
  ∧ ∃ pre,
      (pre `prefix_of` run_order ∧ invoked out.2 = ok_calls pre
       ∧ (out.1 = Returned () → pre = run_order))
      ∨ (∃ step exc,
           (pre ++ [step]) `prefix_of` run_order
           ∧ invoked out.2 = ok_calls pre ++ [(step, Raised exc)]
           ∧ (close_error out.2 = None → out.1 = Raised exc)
           ∧ (∀ e, close_error out.2 = Some e → out.1 = Raised e)).
Proof.
  intros out run_order.
  assert (resolve sample_config three_steps = Order run_order) as Hresolve
    by (vm_compute; reflexivity).
  split; [exact Hresolve|].
  exact (@steps_run_in_order sample_library (failing_handlers boom) sample_config
           three_steps sample_env run_order out.1 out.2
           Hresolve (surjective_pairing out)).
Defined.

Lemma failed_run_keeps_last_completed_witness :
  let out := @run sample_library (failing_handlers boom)
                  sample_config three_steps false sample_env in
  ("step02_filter_mapped_snps", Raised boom) ∈ invoked out.2
  ∧ ∃ pre self,
      invoked out.2 = ok_calls pre ++ [("step02_filter_mapped_snps", Raised boom)]
      ∧ progress out.2 = Some self
      ∧ d_last_completed_step (data self) = last pre.
Proof.
  intros out.
  assert (("step02_filter_mapped_snps", Raised boom) ∈ invoked out.2) as Hin
    by (apply (list_elem_of_lookup_2 _ 1); vm_compute; reflexivity).
  split; [exact Hin|].
  exact (@failed_run_keeps_last_completed sample_library (failing_handlers boom)
           sample_config three_steps sample_env out.1 out.2 _ boom
           (surjective_pairing out) Hin).
Defined.

Lemma live_run_completes_witness :
  let run_order := ["step01_filter_variants"; "step02_filter_mapped_snps";
                    "step03_filter_individuals"] in
  resolve sample_config three_steps = Order run_order
  ∧ calm sample_env
  ∧ ∃ st self,
      @run sample_library quiet_handlers sample_config three_steps false sample_env
      = (Returned (), st)
      ∧ invoked st = ok_calls run_order
      ∧ progress st = Some self
      ∧ Forall2 completed_as run_order (d_steps (data self))
      ∧ d_status (data self) = "completed"
      ∧ d_last_completed_step (data self) = last run_order
      ∧ fs (world st) !! path self = Some (@session_document sample_library self)
      ∧ fs (world st) !! latest_path self = Some (@latest_document sample_library self).
Proof.
  intros run_order.
  assert (resolve sample_config three_steps = Order run_order) as Hresolve
    by (vm_compute; reflexivity).
  assert (calm sample_env) as Hcalm by (intros n; reflexivity).
  split; [exact Hresolve|]. split; [exact Hcalm|].
  exact (@live_run_completes sample_library quiet_handlers sample_config three_steps
           sample_env run_order Hresolve Hcalm
           (λ h env Hc, ex_intro _ env (conj eq_refl Hc))).
Defined.


Lemma empty_config_loaded :
  @load sample_library sample_runtime "pipeline.yaml" (env_with_config "")
  = (Returned empty_config,
     (@load sample_library sample_runtime "pipeline.yaml" (env_with_config "")).2).
Proof. apply pair_eta_l. vm_compute. reflexivity. Qed.

Lemma main_rejects_unknown_steps_witness :
  let args := args_for false (Some ["pcoa,bogus"]) in
  let env := env_with_config "" in
  let env1 := (@load sample_library sample_runtime "pipeline.yaml" env).2 in
  @load sample_library sample_runtime (args_config args) env = (Returned empty_config, env1)
  ∧ unresolved (Some <$> ["pcoa,bogus"]) ≠ []
  ∧ ∃ st msg,
      @main sample_library quiet_handlers sample_runtime args env = (Returned 1%Z, st)
      ∧ invoked st = [] ∧ progress st = None
      ∧ fs (world st) = fs env ∧ observable (world st) = observable env
      ∧ stderr (world st)
        = stderr env ++ [@format_record sample_library (clock env (ticks env)) "ERROR" msg]
      ∧ Forall (λ token, occurs_in token msg) (unresolved (Some <$> ["pcoa,bogus"])).
Proof.
  intros args env env1.
  assert (unresolved (Some <$> ["pcoa,bogus"]) ≠ []) as Hunknown
    by (vm_compute; discriminate).
  split; [exact empty_config_loaded|]. split; [exact Hunknown|].
  exact (@main_rejects_unknown_steps sample_library quiet_handlers sample_runtime
           args env empty_config env1 ["pcoa,bogus"]
           empty_config_loaded eq_refl eq_refl Hunknown).
Defined.

Lemma main_lists_without_running_witness :
  let args := args_for true None in
  let env := env_with_config "steps: 3" in
  let out := @main sample_library quiet_handlers sample_runtime args env in
  invoked out.2 = [] ∧ progress out.2 = None
  ∧ fs (world out.2) = fs env ∧ observable (world out.2) = observable env
  ∧ match @load sample_library sample_runtime (args_config args) env with
    | (Returned config, _) =>
        match configured_steps config with
        | Returned _ => out.1 = Returned 0%Z
        | Raised exc =>
            out.1 = Raised (ConfigError "steps must be a mapping in the YAML configuration")
        end
    | (Raised exc, _) =>
        if is_ConfigError exc then out.1 = Returned 1%Z else out.1 = Raised exc
    end.
Proof.
  intros args env out.
  exact (@main_lists_without_running sample_library quiet_handlers sample_runtime
           args env out.1 out.2 eq_refl (surjective_pairing out)).
Defined.

Lemma main_after_a_failed_step_witness :
  let args := args_for false (Some ["filter_mapped_snps"]) in
  let env := env_with_config "" in
  let env1 := (@load sample_library sample_runtime "pipeline.yaml" env).2 in
  let out := @main sample_library (failing_handlers boom) sample_runtime args env in
  @load sample_library sample_runtime (args_config args) env = (Returned empty_config, env1)
  ∧ ("step02_filter_mapped_snps", Raised boom) ∈ invoked out.2
  ∧ (close_error out.2 = None →
     if is_ConfigError boom then out.1 = Returned 1%Z else out.1 = Raised boom)
  ∧ (∀ e, close_error out.2 = Some e → out.1 = Raised e)
  ∧ ∃ self, progress out.2 = Some self ∧ d_status (data self) = "failed".
Proof.
  intros args env env1 out.
  assert (("step02_filter_mapped_snps", Raised boom) ∈ invoked out.2) as Hin
    by (apply (list_elem_of_lookup_2 _ 0); vm_compute; reflexivity).
  split; [exact empty_config_loaded|]. split; [exact Hin|].
  exact (@main_after_a_failed_step sample_library (failing_handlers boom) sample_runtime
           args env empty_config env1 out.1 out.2 _ boom
           empty_config_loaded eq_refl eq_refl (surjective_pairing out) Hin).
Defined.


Lemma run_without_history_directory_witness :
  let run_order := ["step01_filter_variants"; "step02_filter_mapped_snps";
                    "step03_filter_individuals"] in
  let env := failing_env 0 in
  resolve sample_config three_steps = Order run_order
  ∧ faults env (io_calls env) = IoFailBefore "No space left on device"
  ∧ ∃ st,
      @run sample_library quiet_handlers sample_config three_steps false env
      = (Raised (OSError "No space left on device"), st)
      ∧ progress st = None ∧ invoked st = [] ∧ logger_files st = []
      ∧ fs (world st) = fs env ∧ observable (world st) = observable env
      ∧ stderr (world st) = stderr env
      ∧ ticks (world st) = ticks env.
Proof.
  intros run_order env.
  assert (resolve sample_config three_steps = Order run_order) as Hresolve
    by (vm_compute; reflexivity).
  assert (faults env (io_calls env) = IoFailBefore "No space left on device") as Hfault
    by reflexivity.
  split; [exact Hresolve|]. split; [exact Hfault|].
  exact (@run_without_history_directory sample_library quiet_handlers sample_config
           three_steps false env run_order "No space left on device" Hresolve Hfault).
Defined.
